(** * ZATCA QR scanner: a shallow embedding and its verification

    The development follows the repository's layers:
    - the in-memory store [MemStorage] (sessions, scanned QR records,
      session statistics),
    - the spreadsheet export [exportToExcel],
    - the scanner pipeline [processQRCode] and the debounced detection
      [handleQRDetection] in front of it,
    - the scan table (pages, selection, cells),
    - the QR payload decoder (base64, TLV tokenizer, field mapper and
      validator).

    Part I holds the definitions, Part II the lemmas and theorems. *)

From Stdlib Require Import ZArith List String Ascii Lia ZifyNat SpecFloat.
From Stdlib Require Import FunInd Recdef.
From Stdlib.Strings Require Import Byte.
From Stdlib Require Import DecimalN DecimalFacts DecimalString.
From stdpp Require Import base list gmap strings.

Open Scope Z_scope.

(* ===================================================================== *)
(** * Part I: the embedding                                               *)
(* ===================================================================== *)

(** ** JavaScript values used by the sources

    A string is a [string]; [s || d] on a nullable string takes [d] when [s]
    is [null] or empty. *)

(** [o || d] with a string default. *)
Definition or_default (o : option string) (d : string) : string :=
  match o with
  | Some s => if String.eqb s "" then d else s
  | None => d
  end.

(** [o || null] *)
Definition or_null (o : option string) : option string :=
  match o with
  | Some s => if String.eqb s "" then None else Some s
  | None => None
  end.

(** [s.endsWith(suffix)] *)
Definition endsWith (s suffix : string) : bool :=
  let n := String.length s in
  let m := String.length suffix in
  (m <=? n)%nat && String.eqb (substring (n - m) m s) suffix.

(** *** Numbers: IEEE 754 binary64

    A JavaScript number is a binary64 float: [spec_float] with precision 53
    and maximal exponent 1024, rounding to nearest, ties to even. *)

Definition number := spec_float.

Definition num_zero : number := S754_zero false.
Definition num_add : number → number → number := SFadd 53 1024.
Definition num_sub : number → number → number := SFsub 53 1024.

(** The number nearest to [n * 10 ^ e10] for a digit value [n >= 0]: one
    correctly rounded division of two integers. *)
Definition decimal_to_number (neg : bool) (n e10 : Z) : number :=
  match n with
  | Zpos _ =>
      SFdiv 53 1024
        (S754_finite neg (Z.to_pos (n * 10 ^ Z.max e10 0)) 0)
        (S754_finite false (Z.to_pos (10 ^ Z.max (- e10) 0)) 0)
  | _ => S754_zero neg
  end.

Definition is_digit (c : ascii) : bool :=
  Ascii.leb "0" c && Ascii.leb c "9".

(** White space skipped by [parseFloat]; the stored amounts are ASCII, so the
    non-ASCII white space of ECMAScript is left out. *)
Definition is_white_space (c : ascii) : bool :=
  let n := N_of_ascii c in
  (N.leb 9 n && N.leb n 13) || N.eqb n 32.

Fixpoint skip_white_space (s : string) : string :=
  match s with
  | String c r => if is_white_space c then skip_white_space r else s
  | EmptyString => s
  end.

(** The longest prefix of decimal digits, and what follows it. *)
Fixpoint span_digits (s : string) : string * string :=
  match s with
  | String c r =>
      if is_digit c
      then let '(ds, rest) := span_digits r in (String c ds, rest)
      else (EmptyString, s)
  | EmptyString => (EmptyString, EmptyString)
  end.

(** A string of decimal digits. *)
Definition digit_string (s : string) : Prop :=
  Forall (λ c, is_digit c = true) (list_ascii_of_string s).

(** What may follow the digits: nothing, or a character that is not a
    digit. *)
Definition no_digit_ahead (r : string) : Prop :=
  match r with
  | EmptyString => True
  | String c _ => is_digit c = false
  end.

(** The value of a string of decimal digits (0 for the empty string). *)
Definition digits_value (ds : string) : Z :=
  match NilEmpty.uint_of_string ds with
  | Some u => Z.of_N (N.of_uint u)
  | None => 0
  end.

(** An optional sign. *)
Definition split_sign (s : string) : bool * string :=
  match s with
  | String "+" r => (false, r)
  | String "-" r => (true, r)
  | _ => (false, s)
  end.

(** The value of an [ExponentPart] at the head of [s], 0 when there is none
    (an [e] that no digit follows is not part of the literal). *)
Definition exponent_part (s : string) : Z :=
  match s with
  | String c r =>
      if Ascii.eqb c "e" || Ascii.eqb c "E" then
        let '(neg, r') := split_sign r in
        let '(ds, _) := span_digits r' in
        if String.eqb ds "" then 0
        else if neg then - digits_value ds else digits_value ds
      else 0
  | EmptyString => 0
  end.

(** [parseFloat(s)]: skip leading white space, then read the longest prefix
    that is a [StrDecimalLiteral] (sign, [Infinity], or digits with an
    optional fraction and exponent); [NaN] when there is none.  The value is
    rounded correctly, whatever the number of digits. *)
Definition parseFloat (s : string) : number :=
  let '(neg, s1) := split_sign (skip_white_space s) in
  if String.prefix "Infinity" s1 then S754_infinity neg
  else
    let '(ip, s2) := span_digits s1 in
    let '(fp, s3) :=
      match s2 with
      | String "." r => span_digits r
      | _ => (EmptyString, s2)
      end in
    if String.eqb (ip +:+ fp) "" then S754_nan
    else
      decimal_to_number neg (digits_value (ip +:+ fp))
        (exponent_part s3 - Z.of_nat (String.length fp)).

(** Decimal digits of a natural number, ["0"] for zero. *)
Definition string_of_Z (n : Z) : string :=
  NilEmpty.string_of_uint (N.to_uint (Z.to_N n)).

(** Left padding with zeros up to [len] characters. *)
Definition pad_zeros (len : nat) (s : string) : string :=
  string_of_list_ascii (replicate (len - String.length s) "0"%char) +:+ s.

(** The digits of [n] with a decimal point before the last [f] of them
    ([f > 0]), padded so that a digit precedes the point. *)
Definition with_fraction (f : nat) (n : Z) : string :=
  let m := list_ascii_of_string (pad_zeros (S f) (string_of_Z n)) in
  let k := length m in
  string_of_list_ascii (take (k - f) m ++ "."%char :: drop (k - f) m).

(** [Number::toString] on an integer below 1e21: its decimal digits. *)
Definition integer_toString (n : Z) : string :=
  (if n <? 0 then "-" else "") +:+ string_of_Z (Z.abs n).

(** A decimal literal: the digits [ip], and when [fp] is not empty a point
    and the digits [fp]. *)
Definition decimal_text (ip fp : string) : string :=
  match fp with
  | EmptyString => ip
  | _ => ip +:+ String "." fp
  end.

(** [x] is exactly the fraction [n / 10 ^ k]. *)
Definition number_is_fraction (x : number) (n : Z) (k : nat) : bool :=
  match x with
  | S754_zero _ => n =? 0
  | S754_finite neg m e =>
      let v := if neg then Zneg m else Zpos m in
      if 0 <=? e then v * 2 ^ e * 10 ^ Z.of_nat k =? n
      else v * 10 ^ Z.of_nat k =? n * 2 ^ (- e)
  | _ => false
  end.

Section Host.
(** [Number::toString], which [toFixed] falls back on from 1e21 on; its
    digits are the engine's choice. *)
Variable Number_toString : number → string.

(** [x.toFixed(2)]: the integer [n] nearest to [100 * x] (the larger one
    on a tie), printed with two fractional digits. *)
Definition toFixed2 (x : number) : string :=
  match x with
  | S754_nan => "NaN"
  | S754_infinity false => "Infinity"
  | S754_infinity true => "-Infinity"
  | S754_zero _ => "0.00"
  | S754_finite neg m e =>
      let sign := if neg then "-" else "" in
      let big :=
        if 0 <=? e then 10 ^ 21 <=? Zpos m * 2 ^ e
        else 10 ^ 21 * 2 ^ (- e) <=? Zpos m in
      if big then sign +:+ Number_toString (S754_finite false m e)
      else
        let n :=
          if 0 <=? e then 100 * Zpos m * 2 ^ e
          else (200 * Zpos m + 2 ^ (- e)) / (2 * 2 ^ (- e)) in
        sign +:+ with_fraction 2 n
  end.
End Host.

(** ** Shared schema ([@shared/schema])

    The schema module is imported by every source file; the records below
    carry the fields the sources read and write.  A nullable text column
    ([string | null]) is an [option string]; a [Date] is its time value in
    milliseconds. *)

Record InsertScanSession := mkInsertScanSession {
  iss_sessionId : string
}.

Record ScanSession := mkScanSession {
  ss_sessionId : string;
  ss_id : Z;
  ss_createdAt : Z
}.

Record InsertScannedQR := mkInsertScannedQR {
  iq_sessionId : string;
  iq_rawData : string;
  iq_status : string;
  iq_sellerName : option string;
  iq_vatNumber : option string;
  iq_invoiceNumber : option string;
  iq_invoiceDate : option string;
  iq_subtotal : option string;
  iq_vatAmount : option string;
  iq_totalAmount : option string
}.

Record ScannedQR := mkScannedQR {
  sessionId : string;
  rawData : string;
  status : string;
  sellerName : option string;
  vatNumber : option string;
  invoiceNumber : option string;
  invoiceDate : option string;
  subtotal : option string;
  vatAmount : option string;
  totalAmount : option string;
  id : Z;
  scannedAt : Z
}.

(** ** JavaScript [Map] with numeric keys

    A [Map] iterates in insertion order, so it is an association list whose
    keys are pairwise distinct.  [set] on a present key replaces the value in
    place, on a fresh key it appends; [delete] reports whether the key was
    there. *)

Abbreviation jsmap V := (list (Z * V)).

Definition map_has {V} (k : Z) (m : jsmap V) : bool :=
  bool_decide (k ∈ m.*1).

Definition map_get {V} (k : Z) (m : jsmap V) : option V :=
  (λ r, r.2.2) <$> list_find (λ e, e.1 = k) m.

Definition map_set {V} (k : Z) (v : V) (m : jsmap V) : jsmap V :=
  if map_has k m
  then (λ e, if bool_decide (e.1 = k) then (k, v) else e) <$> m
  else m ++ [(k, v)].

Definition map_delete {V} (k : Z) (m : jsmap V) : bool * jsmap V :=
  (map_has k m, filter (λ e, e.1 ≠ k) m).

Definition map_values {V} (m : jsmap V) : list V := m.*2.

Definition map_entries {V} (m : jsmap V) : list (Z * V) := m.

(** ** [MemStorage] *)

Record MemStorage := mkMemStorage {
  sessions : gmap string ScanSession;
  qrs : jsmap ScannedQR;
  currentSessionId : Z;
  currentQRId : Z
}.

(** [constructor()] *)
Definition newMemStorage : MemStorage :=
  {| sessions := ∅; qrs := []; currentSessionId := 1; currentQRId := 1 |}.

(** [createSession(insertSession)]; [now] is the value of [new Date()]. *)
Definition createSession (now : Z) (insertSession : InsertScanSession)
    (st : MemStorage) : ScanSession * MemStorage :=
  let id := currentSessionId st in
  let session :=
    {| ss_sessionId := iss_sessionId insertSession;
       ss_id := id;
       ss_createdAt := now |} in
  (session,
   {| sessions := <[ss_sessionId session := session]> (sessions st);
      qrs := qrs st;
      currentSessionId := id + 1;
      currentQRId := currentQRId st |}).

(** [getSession(sessionId)] *)
Definition getSession (sid : string) (st : MemStorage) : option ScanSession :=
  sessions st !! sid.

(** [addScannedQR(insertQR)]; [now] is the value of [new Date()]. *)
Definition addScannedQR (now : Z) (insertQR : InsertScannedQR)
    (st : MemStorage) : ScannedQR * MemStorage :=
  let id := currentQRId st in
  let qr :=
    {| sessionId := iq_sessionId insertQR;
       rawData := iq_rawData insertQR;
       status := iq_status insertQR;
       sellerName := iq_sellerName insertQR;
       vatNumber := iq_vatNumber insertQR;
       invoiceNumber := iq_invoiceNumber insertQR;
       invoiceDate := iq_invoiceDate insertQR;
       subtotal := iq_subtotal insertQR;
       vatAmount := iq_vatAmount insertQR;
       totalAmount := iq_totalAmount insertQR;
       id := id;
       scannedAt := now |} in
  (qr,
   {| sessions := sessions st;
      qrs := map_set id qr (qrs st);
      currentSessionId := currentSessionId st;
      currentQRId := id + 1 |}).

(** [Array.prototype.sort] with the comparator
    [(a, b) => b.scannedAt.getTime() - a.scannedAt.getTime()]: a stable sort,
    latest scan first.  [insert_by_scannedAt x l] puts [x] in front of the
    first element that is not strictly later than [x], so equal times keep
    their original order. *)
Fixpoint insert_by_scannedAt (x : ScannedQR) (l : list ScannedQR)
    : list ScannedQR :=
  match l with
  | [] => [x]
  | y :: l' =>
      if bool_decide (scannedAt x < scannedAt y)
      then y :: insert_by_scannedAt x l'
      else x :: y :: l'
  end.

Definition sort_by_scannedAt_desc (l : list ScannedQR) : list ScannedQR :=
  foldr insert_by_scannedAt [] l.

(** [getScannedQRs(sessionId)] *)
Definition getScannedQRs (sid : string) (st : MemStorage) : list ScannedQR :=
  sort_by_scannedAt_desc
    (filter (λ qr, sessionId qr = sid) (map_values (qrs st))).

(** [deleteScannedQR(id)] *)
Definition deleteScannedQR (k : Z) (st : MemStorage) : bool * MemStorage :=
  let '(found, m) := map_delete k (qrs st) in
  (found,
   {| sessions := sessions st;
      qrs := m;
      currentSessionId := currentSessionId st;
      currentQRId := currentQRId st |}).

(** [clearSessionQRs(sessionId)]: collect the ids of the session's entries,
    then [delete] each of them. *)
Definition clearSessionQRs (sid : string) (st : MemStorage)
    : bool * MemStorage :=
  let qrsToDelete :=
    (filter (λ e, sessionId e.2 = sid) (map_entries (qrs st))).*1 in
  let m := foldl (λ m k, (map_delete k m).2) (qrs st) qrsToDelete in
  (true,
   {| sessions := sessions st;
      qrs := m;
      currentSessionId := currentSessionId st;
      currentQRId := currentQRId st |}).

(** The keys of the record map are pairwise distinct (it is a [Map]) and all
    below the next id to hand out. *)
Definition store_wf (st : MemStorage) : Prop :=
  NoDup (qrs st).*1 ∧ ∀ k, k ∈ (qrs st).*1 → k < currentQRId st.

(** [getSessionStats(sessionId)] *)
Module Stats.
Record t := mk {
  totalScans : nat;
  validScans : nat;
  totalAmount : number;
  errors : nat
}.
End Stats.

Definition getSessionStats (sid : string) (st : MemStorage) : Stats.t :=
  let qrs := getScannedQRs sid st in
  let validQRs := filter (λ qr, status qr = "valid") qrs in
  {| Stats.totalScans := length qrs;
     Stats.validScans := length validQRs;
     Stats.totalAmount :=
       foldl (λ sum qr, num_add sum (parseFloat (or_default (totalAmount qr) "0")))
             num_zero validQRs;
     Stats.errors := length (filter (λ qr, status qr = "invalid") qrs) |}.

(** What a valid record adds to the session total: its amount read by
    [parseFloat], and 0 when the amount is missing. *)
Definition amount_of (qr : ScannedQR) : number :=
  match or_null (totalAmount qr) with
  | Some a => parseFloat a
  | None => num_zero
  end.

(** ** Spreadsheet export ([exportToExcel]) *)

Inductive ExportRange := RangeAll | RangeSelected | RangeValid.

Record ExportOptions := mkExportOptions {
  filename : string;
  includeHeaders : bool;
  exportRange : ExportRange;
  selectedIds : option (list Z)
}.

(** A sheet cell: a number or a text. *)
Inductive cell := CellNumber (n : Z) | CellText (s : string).

Record ExcelRow := mkExcelRow {
  col_Row : cell;
  col_Status : string;
  col_SellerName : string;
  col_VATNumber : string;
  col_InvoiceNumber : string;
  col_InvoiceDate : string;
  col_Subtotal : string;
  col_VATAmount : string;
  col_TotalAmount : string;
  col_ScannedAt : string
}.

(** What [exportToExcel] hands to the spreadsheet library: the data rows,
    whether the header row is skipped, the summary row if there is one, and
    the file name. *)
Record Workbook := mkWorkbook {
  wb_rows : list ExcelRow;
  wb_skipHeader : bool;
  wb_summary : option ExcelRow;
  wb_filename : string
}.

(** The [switch] on [options.exportRange]. *)
Definition dataToExport (qrCodes : list ScannedQR) (options : ExportOptions)
    : list ScannedQR :=
  match exportRange options with
  | RangeSelected =>
      match selectedIds options with
      | Some ids => filter (λ qr, id qr ∈ ids) qrCodes
      | None => qrCodes
      end
  | RangeValid => filter (λ qr, status qr = "valid") qrCodes
  | RangeAll => qrCodes
  end.

Section ExcelExport.
(** Host functions whose results depend on the engine or the locale:
    [Number::toString], [Date.prototype.toLocaleString], and the date part
    of [Date.prototype.toISOString] ([toISOString().split('T')[0]]). *)
Variable Number_toString : number → string.
Variable Date_toLocaleString : Z → string.
Variable Date_toISODate : Z → string.

(** [a ? parseFloat(a).toFixed(2) : '-'] *)
Definition amount_cell (a : option string) : string :=
  match or_null a with
  | Some s => toFixed2 Number_toString (parseFloat s)
  | None => "-"
  end.

Definition excelRow (index : nat) (qr : ScannedQR) : ExcelRow :=
  {| col_Row := CellNumber (Z.of_nat index + 1);
     col_Status := if String.eqb (status qr) "valid" then "Valid" else "Invalid";
     col_SellerName := or_default (sellerName qr) "-";
     col_VATNumber := or_default (vatNumber qr) "-";
     col_InvoiceNumber := or_default (invoiceNumber qr) "-";
     col_InvoiceDate := or_default (invoiceDate qr) "-";
     col_Subtotal := amount_cell (subtotal qr);
     col_VATAmount := amount_cell (vatAmount qr);
     col_TotalAmount := amount_cell (totalAmount qr);
     col_ScannedAt := Date_toLocaleString (scannedAt qr) |}.

Definition excelData (data : list ScannedQR) : list ExcelRow :=
  imap excelRow data.

(** [a ? parseFloat(a) : 0] *)
Definition amount_or_zero (a : option string) : number :=
  match or_null a with
  | Some s => parseFloat s
  | None => num_zero
  end.

Definition summaryRow (now : Z) (data : list ScannedQR) : ExcelRow :=
  let validQRs := filter (λ qr, status qr = "valid") data in
  let totalAmount :=
    foldl (λ sum qr, num_add sum (amount_or_zero (totalAmount qr)))
          num_zero validQRs in
  let totalVAT :=
    foldl (λ sum qr, num_add sum (amount_or_zero (vatAmount qr)))
          num_zero validQRs in
  {| col_Row := CellText "SUMMARY";
     col_Status := string_of_Z (Z.of_nat (length validQRs)) +:+ " Valid";
     col_SellerName := string_of_Z (Z.of_nat (length data)) +:+ " Total";
     col_VATNumber := "-";
     col_InvoiceNumber := "-";
     col_InvoiceDate := "-";
     col_Subtotal := toFixed2 Number_toString (num_sub totalAmount totalVAT);
     col_VATAmount := toFixed2 Number_toString totalVAT;
     col_TotalAmount := toFixed2 Number_toString totalAmount;
     col_ScannedAt := Date_toLocaleString now |}.

(** [exportToExcel(qrCodes, options)]; [now] is the value of [new Date()]. *)
Definition exportToExcel (now : Z) (qrCodes : list ScannedQR)
    (options : ExportOptions) : Workbook :=
  let data := dataToExport qrCodes options in
  let name :=
    if String.eqb (filename options) ""
    then "zatca_qr_export_" +:+ Date_toISODate now
    else filename options in
  {| wb_rows := excelData data;
     wb_skipHeader := negb (includeHeaders options);
     wb_summary :=
       if includeHeaders options && negb (bool_decide (data = []))
       then Some (summaryRow now data) else None;
     wb_filename := if endsWith name ".xlsx" then name else name +:+ ".xlsx" |}.
End ExcelExport.

(** ** Scanner pipeline ([processQRCode])

    What the caller reads of the parser's result: [null], or an object whose
    text fields and amounts may be [undefined]; an amount is turned into text
    by its [toString]. *)

Record ParsedData (Amount : Type) := mkParsedData {
  pd_sellerName : option string;
  pd_vatNumber : option string;
  pd_invoiceNumber : option string;
  pd_invoiceDate : option string;
  pd_subtotal : option Amount;
  pd_vatAmount : option Amount;
  pd_totalAmount : option Amount
}.
Arguments mkParsedData {Amount}.
Arguments pd_sellerName {Amount}.
Arguments pd_vatNumber {Amount}.
Arguments pd_invoiceNumber {Amount}.
Arguments pd_invoiceDate {Amount}.
Arguments pd_subtotal {Amount}.
Arguments pd_vatAmount {Amount}.
Arguments pd_totalAmount {Amount}.

(** The component state [processQRCode] reads and writes. *)
Record ScannerState := mkScannerState {
  isProcessing : bool;
  lastScannedData : string;
  lastScanResult : option InsertScannedQR
}.

Section Pipeline.
Context {Amount : Type}.
Variable Amount_toString : Amount → string.
(** [parseZATCAQR] of [@/lib/zatca-parser]. *)
Variable parseZATCAQR : string → option (ParsedData Amount).

(** [parsedData?.f || null] *)
Definition text_field (parsedData : option (ParsedData Amount))
    (f : ParsedData Amount → option string) : option string :=
  or_null (parsedData ≫= f).

(** [parsedData?.f?.toString() || null] *)
Definition amount_field (parsedData : option (ParsedData Amount))
    (f : ParsedData Amount → option Amount) : option string :=
  or_null (Amount_toString <$> (parsedData ≫= f)).

(** The [qrRecord] object literal. *)
Definition qrRecord (sid qrData : string)
    (parsedData : option (ParsedData Amount)) : InsertScannedQR :=
  {| iq_sessionId := sid;
     iq_rawData := qrData;
     iq_status :=
       match parsedData with Some _ => "valid" | None => "invalid" end;
     iq_sellerName := text_field parsedData pd_sellerName;
     iq_vatNumber := text_field parsedData pd_vatNumber;
     iq_invoiceNumber := text_field parsedData pd_invoiceNumber;
     iq_invoiceDate := text_field parsedData pd_invoiceDate;
     iq_subtotal := amount_field parsedData pd_subtotal;
     iq_vatAmount := amount_field parsedData pd_vatAmount;
     iq_totalAmount := amount_field parsedData pd_totalAmount |}.

(** [processQRCode(qrData)]: returns the record handed to the mutation (if
    the call got that far) and the new component state; [saved] tells
    whether the mutation succeeded. *)
Definition processQRCode (sid qrData : string) (saved : bool)
    (st : ScannerState) : option InsertScannedQR * ScannerState :=
  if isProcessing st then (None, st)
  else
    let record := qrRecord sid qrData (parseZATCAQR qrData) in
    (Some record,
     {| isProcessing := false;
        lastScannedData := qrData;
        lastScanResult :=
          if saved then Some record else lastScanResult st |}).
End Pipeline.

(** ** QR payload decoder

    The decoder module ([@/lib/zatca-parser]) is not among the sources; its
    three stages are modelled from the specification. *)

(** Modelled from the spec: the single error type of section 4.4, shared by
    the three stages of the missing decoder. *)
Inductive ParseError :=
  | InvalidBase64
  | PayloadTooLarge
  | EmptyPayload
  | Truncated (offset : nat)
  | MissingTag (tag : N)
  | InvalidUtf8 (tag : N)
  | NotANumber (tag : N) (raw : list byte).

(** Modelled from the spec: the result of a decoder stage, a value or a
    [ParseError] (errors are returned as data, section 7). *)
Inductive result (A : Type) :=
  | Ok (a : A)
  | Err (e : ParseError).
Arguments Ok {A}.
Arguments Err {A}.

#[global] Instance result_ret : MRet result := λ A a, Ok a.
#[global] Instance result_bind : MBind result := λ A B f m,
  match m with
  | Ok a => f a
  | Err e => Err e
  end.

(** *** Base64 (section 4.1) *)

(** Modelled from the spec: a byte of the [ByteBuffer] from its value (the
    decoder builds no value above 255). *)
Definition byte_of_nat (n : nat) : byte := default "000"%byte (Byte.of_nat n).

(** Modelled from the spec: the value of a character of the base64
    alphabet ([A-Z], [a-z], [0-9], [+], [/]) of the missing base64 stage. *)
Definition b64_value (c : byte) : option nat :=
  let n := Byte.to_nat c in
  if (65 <=? n)%nat && (n <=? 90)%nat then Some (n - 65)%nat
  else if (97 <=? n)%nat && (n <=? 122)%nat then Some (n - 71)%nat
  else if (48 <=? n)%nat && (n <=? 57)%nat then Some (n + 4)%nat
  else if (n =? 43)%nat then Some 62%nat
  else if (n =? 47)%nat then Some 63%nat
  else None.

(** Modelled from the spec: the character of a 6-bit value, the inverse of
    [b64_value]. *)
Definition b64_char (v : nat) : byte :=
  if (v <? 26)%nat then byte_of_nat (v + 65)
  else if (v <? 52)%nat then byte_of_nat (v + 71)
  else if (v <? 62)%nat then byte_of_nat (v - 4)
  else if (v =? 62)%nat then "+"%byte
  else "/"%byte.

(** Modelled from the spec: the bytes of one group of four characters; [c]
    and [d] may be the padding character in the last group. *)
Definition b64_group (last : bool) (a b c d : byte) : option (list byte) :=
  va ← b64_value a;
  vb ← b64_value b;
  let b1 := byte_of_nat (va * 4 + vb / 16) in
  if last && Byte.eqb d "="%byte then
    if Byte.eqb c "="%byte then Some [b1]
    else
      vc ← b64_value c;
      Some [b1; byte_of_nat (vb mod 16 * 16 + vc / 4)]
  else
    vc ← b64_value c;
    vd ← b64_value d;
    Some [b1; byte_of_nat (vb mod 16 * 16 + vc / 4);
          byte_of_nat (vc mod 4 * 64 + vd)].

(** Modelled from the spec: base64 text to bytes, four characters at a time;
    [None] on a character outside the alphabet or on incorrect padding
    (padding elsewhere than at the end, or a length that is no multiple of
    four). *)
Fixpoint b64_decode_chars (cs : list byte) : option (list byte) :=
  match cs with
  | [] => Some []
  | a :: b :: c :: d :: rest =>
      match rest with
      | [] => b64_group true a b c d
      | _ =>
          g ← b64_group false a b c d;
          r ← b64_decode_chars rest;
          Some (g ++ r)
      end
  | _ => None
  end.

(** Modelled from the spec: the white space trimmed around the captured
    text (spaces, tabs, line breaks). *)
Definition is_space (c : byte) : bool :=
  let n := Byte.to_nat c in
  ((9 <=? n)%nat && (n <=? 13)%nat) || (n =? 32)%nat.

(** Modelled from the spec: the trimming of section 4.1, at the start and
    (through the reversed text) at the end. *)
Fixpoint trim_start (cs : list byte) : list byte :=
  match cs with
  | c :: r => if is_space c then trim_start r else cs
  | [] => []
  end.

(** Modelled from the spec: ``trimmed before decoding'' (section 4.1). *)
Definition trim (cs : list byte) : list byte :=
  reverse (trim_start (reverse (trim_start cs))).

(** Modelled from the spec: the maximum accepted payload size, ``a few
    kilobytes'' of text. *)
Definition MAX_PAYLOAD_CHARS : nat := 4096.

(** Modelled from the spec: the Base64 Decoder of section 4.1.  The length
    of the input is checked first; the trimmed text must decode, and to at
    least one byte. *)
Definition base64Decode (input : string) : result (list byte) :=
  if (MAX_PAYLOAD_CHARS <? String.length input)%nat then Err PayloadTooLarge
  else
    match b64_decode_chars (trim (list_byte_of_string input)) with
    | Some (b :: bs) => Ok (b :: bs)
    | Some [] => Err InvalidBase64
    | None => Err InvalidBase64
    end.

(** Modelled from the spec: base64 encoding with padding (glossary), the
    inverse used by the round-trip property of section 8. *)
Fixpoint b64_encode_bytes (bs : list byte) : list byte :=
  match bs with
  | [] => []
  | [x] =>
      let n := Byte.to_nat x in
      [b64_char (n / 4); b64_char (n mod 4 * 16); "="%byte; "="%byte]
  | [x; y] =>
      let n := Byte.to_nat x in
      let m := Byte.to_nat y in
      [b64_char (n / 4); b64_char (n mod 4 * 16 + m / 16);
       b64_char (m mod 16 * 4); "="%byte]
  | x :: y :: z :: rest =>
      let n := Byte.to_nat x in
      let m := Byte.to_nat y in
      let k := Byte.to_nat z in
      b64_char (n / 4) :: b64_char (n mod 4 * 16 + m / 16)
        :: b64_char (m mod 16 * 4 + k / 64) :: b64_char (k mod 64)
        :: b64_encode_bytes rest
  end.

(** Modelled from the spec: the base64 text of a byte buffer (round trip of
    section 8). *)
Definition base64Encode (bs : list byte) : string :=
  string_of_list_byte (b64_encode_bytes bs).

(** *** TLV tokenizer (section 4.2) *)

(** Modelled from the spec: [TlvRecord], the tag byte's value and the value
    bytes. *)
Record TlvRecord := mkTlvRecord {
  tag : N;
  value : list byte
}.

(** Modelled from the spec: the tokenizer loop of section 4.2.  [rest] is
    the part of the buffer from the read [offset] on; a header needs two
    bytes and a value its [L] bytes, else the result is [Truncated] at the
    offset of the record. *)
Function tokenize_from (offset : nat) (rest : list byte)
    {measure length rest} : result (list TlvRecord) :=
  match rest with
  | [] => Ok []
  | [t] => Err (Truncated offset)
  | t :: l :: body =>
      if (Byte.to_nat l <=? length body)%nat then
        match tokenize_from (offset + 2 + Byte.to_nat l)
                (drop (Byte.to_nat l) body) with
        | Ok records =>
            Ok ({| tag := Byte.to_N t; value := take (Byte.to_nat l) body |}
                  :: records)
        | Err e => Err e
        end
      else Err (Truncated offset)
  end.
Proof.
  intros. rewrite length_drop. simpl. lia.
Defined.

(** Modelled from the spec: the TLV Tokenizer; an empty buffer is
    [EmptyPayload]. *)
Definition tokenize (buffer : list byte) : result (list TlvRecord) :=
  match buffer with
  | [] => Err EmptyPayload
  | _ => tokenize_from 0 buffer
  end.

(** Modelled from the spec: the wire format of section 6, a record as its
    tag byte, its length byte and its value bytes. *)
Definition serialize_record (r : TlvRecord) : list byte :=
  byte_of_nat (N.to_nat (tag r)) :: byte_of_nat (length (value r)) :: value r.

(** Modelled from the spec: the wire format of section 6, the records one
    after the other with no prefix and no terminator. *)
Definition serialize (records : list TlvRecord) : list byte :=
  concat (serialize_record <$> records).

(** *** Text and decimal values (section 4.3) *)

(** Modelled from the spec: a byte within the bounds of a UTF-8 byte
    class (multi-byte text handling, section 1). *)
Definition in_range (lo hi : nat) (b : byte) : bool :=
  (lo <=? Byte.to_nat b)%nat && (Byte.to_nat b <=? hi)%nat.

(** Modelled from the spec: a UTF-8 continuation byte. *)
Definition is_continuation (b : byte) : bool := in_range 128 191 b.

(** Modelled from the spec: ``decode value bytes as text''.  The bytes must
    be well-formed UTF-8: one to four bytes per character, no overlong
    form, no surrogate, nothing above U+10FFFF. *)
Fixpoint utf8_valid (bs : list byte) : bool :=
  match bs with
  | [] => true
  | b0 :: r0 =>
      let n := Byte.to_nat b0 in
      if (n <=? 127)%nat then utf8_valid r0
      else if (194 <=? n)%nat && (n <=? 223)%nat then
        match r0 with
        | b1 :: r1 => is_continuation b1 && utf8_valid r1
        | _ => false
        end
      else if (224 <=? n)%nat && (n <=? 239)%nat then
        match r0 with
        | b1 :: b2 :: r2 =>
            (if (n =? 224)%nat then in_range 160 191 b1
             else if (n =? 237)%nat then in_range 128 159 b1
             else is_continuation b1)
            && is_continuation b2 && utf8_valid r2
        | _ => false
        end
      else if (240 <=? n)%nat && (n <=? 244)%nat then
        match r0 with
        | b1 :: b2 :: b3 :: r3 =>
            (if (n =? 240)%nat then in_range 144 191 b1
             else if (n =? 244)%nat then in_range 128 143 b1
             else is_continuation b1)
            && is_continuation b2 && is_continuation b3 && utf8_valid r3
        | _ => false
        end
      else false
  end.

(** Modelled from the spec: a fixed-point decimal, the integer [coef]
    scaled by [10 ^ - scale]; it stands for exactly [coef / 10 ^ scale]. *)
Record Decimal := mkDecimal {
  coef : Z;
  scale : nat
}.

(** Modelled from the spec: [subtotal = invoiceTotal - vatTotal] (section
    3): [a - b], exact, at the larger of the two scales. *)
Definition dec_sub (a b : Decimal) : Decimal :=
  let s := Nat.max (scale a) (scale b) in
  {| coef := coef a * 10 ^ Z.of_nat (s - scale a)
             - coef b * 10 ^ Z.of_nat (s - scale b);
     scale := s |}.

(** Modelled from the spec: amounts ``compared with exact decimal
    semantics'' (section 3): [a < b] on the values, by cross
    multiplication. *)
Definition dec_ltb (a b : Decimal) : bool :=
  coef a * 10 ^ Z.of_nat (scale b) <? coef b * 10 ^ Z.of_nat (scale a).

(** Modelled from the spec: ``identical decimal values'' (section 8):
    [a = b] on the values. *)
Definition dec_eqb (a b : Decimal) : bool :=
  coef a * 10 ^ Z.of_nat (scale b) =? coef b * 10 ^ Z.of_nat (scale a).

(** Modelled from the spec: ``parse as non-negative fixed-point decimal'':
    one or more digits, optionally followed by a point and one or more
    digits, and nothing else. *)
Definition parse_decimal_text (s : string) : option Decimal :=
  let '(ip, r) := span_digits s in
  if String.eqb ip "" then None
  else
    match r with
    | EmptyString => Some {| coef := digits_value ip; scale := 0 |}
    | String "." f =>
        let '(fp, r') := span_digits f in
        if String.eqb fp "" || negb (String.eqb r' "") then None
        else Some {| coef := digits_value (ip +:+ fp);
                     scale := String.length fp |}
    | _ => None
    end.

(** Modelled from the spec: the decode rule of tags 4 and 5 on the value
    bytes. *)
Definition parse_decimal (v : list byte) : option Decimal :=
  parse_decimal_text (string_of_list_byte v).

(** Modelled from the spec: the ``exact decimal text'' of an amount
    (section 6): all [scale] fractional digits. *)
Definition render_decimal (d : Decimal) : string :=
  (if coef d <? 0 then "-" else "") +:+
  match scale d with
  | O => string_of_Z (Z.abs (coef d))
  | S _ => with_fraction (scale d) (Z.abs (coef d))
  end.

(** *** Field mapper and validator (section 4.3) *)

(** Modelled from the spec: the field-level anomaly descriptors of the
    [warnings] list. *)
Inductive Warning := SuspiciousVatNumber | InconsistentAmounts.

(** Modelled from the spec: [ParsedInvoice] of section 3. *)
Module ParsedInvoice.
Record t := mk {
  sellerName : string;
  vatNumber : string;
  timestamp : string;
  invoiceTotal : Decimal;
  vatTotal : Decimal;
  subtotal : Decimal;
  extendedTags : gmap N (list byte);
  warnings : list Warning
}.
End ParsedInvoice.

(** Modelled from the spec: [ParseOutcome] of section 3. *)
Inductive ParseOutcome :=
  | Valid (invoice : ParsedInvoice.t)
  | Invalid (error : ParseError).

(** Modelled from the spec: ``first occurrence of each tag is
    authoritative'': the value of the first record with tag [t]. *)
Fixpoint find_tag (t : N) (seq : list TlvRecord) : option (list byte) :=
  match seq with
  | [] => None
  | r :: rest => if N.eqb (tag r) t then Some (value r) else find_tag t rest
  end.

(** Modelled from the spec: a mandatory tag, [MissingTag] when absent. *)
Definition require_tag (t : N) (seq : list TlvRecord) : result (list byte) :=
  match find_tag t seq with
  | Some v => Ok v
  | None => Err (MissingTag t)
  end.

(** Modelled from the spec: the decode rule of tags 2 and 3 in the table
    of section 4.3, ``decode as text''. *)
Definition decode_text (t : N) (v : list byte) : result string :=
  if utf8_valid v then Ok (string_of_list_byte v) else Err (InvalidUtf8 t).

(** Modelled from the spec: the decode rule of tag 1, text that ``must be
    non-empty''; an empty name fails as [MissingTag 1]. *)
Definition decode_sellerName (v : list byte) : result string :=
  s ← decode_text 1 v;
  if String.eqb s "" then Err (MissingTag 1) else Ok s.

(** Modelled from the spec: the decode rule of tags 4 and 5,
    [NotANumber] with the offending bytes on failure. *)
Definition decode_amount (t : N) (v : list byte) : result Decimal :=
  match parse_decimal v with
  | Some d => Ok d
  | None => Err (NotANumber t v)
  end.

(** Modelled from the spec: the five mandatory fields of a structurally
    valid sequence. *)
Record CoreFields := mkCoreFields {
  cf_sellerName : string;
  cf_vatNumber : string;
  cf_timestamp : string;
  cf_invoiceTotal : Decimal;
  cf_vatTotal : Decimal
}.

(** Modelled from the spec: structural validity, ``all five tags present
    and individually decodable'': the five tags are looked up in tag order,
    then their values are decoded in tag order; the first failure is the
    result. *)
Definition structural (seq : list TlvRecord) : result CoreFields :=
  v1 ← require_tag 1 seq;
  v2 ← require_tag 2 seq;
  v3 ← require_tag 3 seq;
  v4 ← require_tag 4 seq;
  v5 ← require_tag 5 seq;
  seller ← decode_sellerName v1;
  vat ← decode_text 2 v2;
  time ← decode_text 3 v3;
  total ← decode_amount 4 v4;
  vatTotal ← decode_amount 5 v5;
  Ok {| cf_sellerName := seller; cf_vatNumber := vat; cf_timestamp := time;
        cf_invoiceTotal := total; cf_vatTotal := vatTotal |}.

(** Modelled from the spec: ``exactly 15 ASCII digits''. *)
Definition is_vat_number (s : string) : bool :=
  (String.length s =? 15)%nat && forallb is_digit (list_ascii_of_string s).

(** Modelled from the spec: the advisory checks of section 4.3. *)
Definition semantic_warnings (c : CoreFields) : list Warning :=
  (if is_vat_number (cf_vatNumber c) then [] else [SuspiciousVatNumber])
  ++ (if dec_ltb (cf_invoiceTotal c) (cf_vatTotal c)
      then [InconsistentAmounts] else []).

(** Modelled from the spec: the records with tag 6 and above, by tag; the
    first occurrence of a tag is the one kept. *)
Definition extended_tags (seq : list TlvRecord) : gmap N (list byte) :=
  foldr (λ r m, if (6 <=? tag r)%N then <[tag r := value r]> m else m) ∅ seq.

(** Modelled from the spec: the [ParsedInvoice] built from the decoded
    fields, with the derived subtotal, the extended tags and the warnings. *)
Definition build_invoice (c : CoreFields) (ext : gmap N (list byte))
    : ParsedInvoice.t :=
  {| ParsedInvoice.sellerName := cf_sellerName c;
     ParsedInvoice.vatNumber := cf_vatNumber c;
     ParsedInvoice.timestamp := cf_timestamp c;
     ParsedInvoice.invoiceTotal := cf_invoiceTotal c;
     ParsedInvoice.vatTotal := cf_vatTotal c;
     ParsedInvoice.subtotal := dec_sub (cf_invoiceTotal c) (cf_vatTotal c);
     ParsedInvoice.extendedTags := ext;
     ParsedInvoice.warnings := semantic_warnings c |}.

(** Modelled from the spec: the Field Mapper & Validator of section 4.3:
    the structural checks decide between [Valid] and [Invalid], the semantic
    checks only fill the warnings. *)
Definition mapAndValidate (seq : list TlvRecord) : ParseOutcome :=
  match structural seq with
  | Ok c => Valid (build_invoice c (extended_tags seq))
  | Err e => Invalid e
  end.

(** Modelled from the spec: the top-level entry point of section 4.4, the
    three stages in sequence. *)
Definition decode (input : string) : ParseOutcome :=
  match base64Decode input with
  | Err e => Invalid e
  | Ok buffer =>
      match tokenize buffer with
      | Err e => Invalid e
      | Ok seq => mapAndValidate seq
      end
  end.

(** Modelled from the spec: the encoding of the round-trip property of
    section 8: the five core fields as TLV records with tags 1 to 5, in
    base64.  A field longer than 255 bytes has no length byte. *)
Definition encode_record (t : N) (v : list byte) : option (list byte) :=
  if (length v <=? 255)%nat
  then Some (serialize_record {| tag := t; value := v |})
  else None.

(** Modelled from the spec: ``encoding a [ParsedInvoice]'s five core
    fields back into a TLV sequence (and base64)'' (section 8). *)
Definition encodeInvoice (inv : ParsedInvoice.t) : option string :=
  r1 ← encode_record 1 (list_byte_of_string (ParsedInvoice.sellerName inv));
  r2 ← encode_record 2 (list_byte_of_string (ParsedInvoice.vatNumber inv));
  r3 ← encode_record 3 (list_byte_of_string (ParsedInvoice.timestamp inv));
  r4 ← encode_record 4
         (list_byte_of_string (render_decimal (ParsedInvoice.invoiceTotal inv)));
  r5 ← encode_record 5
         (list_byte_of_string (render_decimal (ParsedInvoice.vatTotal inv)));
  Some (base64Encode (r1 ++ r2 ++ r3 ++ r4 ++ r5)).

(** Modelled from the spec: how the calling layer reads a [ParseOutcome]
    (section 6): nothing for [Invalid]; for [Valid] the field values and the
    derived subtotal, the timestamp as the invoice date. *)
Definition toParsedData (o : ParseOutcome) : option (ParsedData Decimal) :=
  match o with
  | Valid inv =>
      Some {| pd_sellerName := Some (ParsedInvoice.sellerName inv);
              pd_vatNumber := Some (ParsedInvoice.vatNumber inv);
              pd_invoiceNumber := None;
              pd_invoiceDate := Some (ParsedInvoice.timestamp inv);
              pd_subtotal := Some (ParsedInvoice.subtotal inv);
              pd_vatAmount := Some (ParsedInvoice.vatTotal inv);
              pd_totalAmount := Some (ParsedInvoice.invoiceTotal inv) |}
  | Invalid _ => None
  end.

(** Modelled from the spec: the error of the decode rule of tag [t] on the
    value [v], if it fails (the ``Failure'' column of the table of section
    4.3). *)
Definition decode_error (t : N) (v : list byte) : option ParseError :=
  let error {A} (r : result A) :=
    match r with Ok _ => None | Err e => Some e end in
  match t with
  | 1%N => error (decode_sellerName v)
  | 2%N | 3%N => error (decode_text t v)
  | 4%N | 5%N => error (decode_amount t v)
  | _ => None
  end.

(** Modelled from the spec: the invoices the encoder can write and the
    decoder reads back: text that is well-formed UTF-8, a seller name that
    is not empty, amounts that are not negative, and every field within the
    255 bytes of a record. *)
Definition text_wf (s : string) : Prop :=
  utf8_valid (list_byte_of_string s) = true ∧ (String.length s ≤ 255)%nat.

(** Modelled from the spec: a non-negative amount whose text fits a
    record. *)
Definition amount_wf (d : Decimal) : Prop :=
  0 ≤ coef d ∧ (String.length (render_decimal d) ≤ 255)%nat.

(** Modelled from the spec: the five fields of an invoice that decodes. *)
Definition core_wf (c : CoreFields) : Prop :=
  cf_sellerName c ≠ ""
  ∧ text_wf (cf_sellerName c) ∧ text_wf (cf_vatNumber c)
  ∧ text_wf (cf_timestamp c)
  ∧ amount_wf (cf_invoiceTotal c) ∧ amount_wf (cf_vatTotal c).

(** ** Predicates of the statements *)

(** A list ordered as [getScannedQRs] returns it: no record is followed by
    a strictly later one. *)
Definition later_first (l : list ScannedQR) : Prop :=
  ∀ i j x y, l !! i = Some x → l !! j = Some y → (i < j)%nat →
    scannedAt y ≤ scannedAt x.

(** Modelled from the spec: the records the tokenizer can emit, with a
    one-byte tag and at most 255 value bytes. *)
Definition record_wf (r : TlvRecord) : Prop :=
  (tag r < 256)%N ∧ (length (value r) ≤ 255)%nat.

(** ** Example data *)

(** Modelled from the spec: a record whose value is the bytes of a text. *)
Definition text_record (t : N) (s : string) : TlvRecord :=
  {| tag := t; value := list_byte_of_string s |}.

(** Modelled from the spec: the records the encoder writes for the five
    core fields. *)
Definition core_records (c : CoreFields) : list TlvRecord :=
  [text_record 1 (cf_sellerName c); text_record 2 (cf_vatNumber c);
   text_record 3 (cf_timestamp c);
   text_record 4 (render_decimal (cf_invoiceTotal c));
   text_record 5 (render_decimal (cf_vatTotal c))].

(** The example payload of section 8. *)
Definition acme_records : list TlvRecord :=
  [text_record 1 "Acme Corp"; text_record 2 "300000000000003";
   text_record 3 "2023-01-05T13:00:00"; text_record 4 "115.00";
   text_record 5 "15.00"].

Definition acme_payload : string :=
  "AQlBY21lIENvcnACDzMwMDAwMDAwMDAwMDAwMwMTMjAyMy0wMS0wNVQxMzowMDowMAQGMTE1LjAwBQUxNS4wMA==".

(** Tags 1, 2 and 3 only. *)
Definition three_tag_records : list TlvRecord :=
  [text_record 1 "Acme Corp"; text_record 2 "300000000000003";
   text_record 3 "2023-01-05T13:00:00"].

(** The inconsistent-amount scenario of section 8. *)
Definition inconsistent_records : list TlvRecord :=
  [text_record 1 "Acme Corp"; text_record 2 "300000000000003";
   text_record 3 "2023-01-05T13:00:00"; text_record 4 "10.00";
   text_record 5 "15.00"].

(** Two one-byte records, [(1, "A")] and [(2, "B")]. *)
Definition two_record_buffer : list byte :=
  ["001"; "001"; "A"; "002"; "001"; "B"]%byte.

(** A scan of session [sid] with the given status and total amount. *)
Definition scan (sid status : string) (total : option string)
    : InsertScannedQR :=
  {| iq_sessionId := sid; iq_rawData := ""; iq_status := status;
     iq_sellerName := None; iq_vatNumber := None; iq_invoiceNumber := None;
     iq_invoiceDate := None; iq_subtotal := None; iq_vatAmount := None;
     iq_totalAmount := total |}.

(** Three scans: a valid and an invalid one of session ["s"], a valid one of
    session ["t"]. *)
Definition example_store : MemStorage :=
  (addScannedQR 30 (scan "t" "valid" (Some "10.00"))
     (addScannedQR 20 (scan "s" "invalid" None)
        (addScannedQR 10 (scan "s" "valid" (Some "115.00"))
           newMemStorage).2).2).2.

(** Two valid scans of session ["s"], of 0.1 and 0.2. *)
Definition drift_store : MemStorage :=
  (addScannedQR 20 (scan "s" "valid" (Some "0.2"))
     (addScannedQR 10 (scan "s" "valid" (Some "0.1")) newMemStorage).2).2.

(** A parser result whose VAT number is the empty string; the amounts are
    whole numbers. *)
Definition empty_vat_data : ParsedData Z :=
  {| pd_sellerName := Some "Acme Corp";
     pd_vatNumber := Some "";
     pd_invoiceNumber := None;
     pd_invoiceDate := Some "2023-01-05T13:00:00";
     pd_subtotal := Some 100;
     pd_vatAmount := Some 15;
     pd_totalAmount := Some 115 |}.

(** The example payload with an empty tag 2. *)
Definition empty_vat_records : list TlvRecord :=
  [text_record 1 "Acme Corp"; text_record 2 "";
   text_record 3 "2023-01-05T13:00:00"; text_record 4 "115.00";
   text_record 5 "15.00"].

(** The five core fields of a stored record are all populated. *)
Definition core_populated (qr : ScannedQR) : Prop :=
  is_Some (sellerName qr) ∧ is_Some (vatNumber qr)
  ∧ is_Some (invoiceDate qr) ∧ is_Some (totalAmount qr)
  ∧ is_Some (vatAmount qr).

(** What [f || null] stores for the parser's value [o]: the value when it is
    a non-empty string, [null] otherwise. *)
Definition stored_as (o stored : option string) : Prop :=
  match o with
  | Some s => if decide (s = "") then stored = None else stored = Some s
  | None => stored = None
  end.

(** ** The calls of [IStorage] that change the store

    The fields of [MemStorage] are private, so the states of
    [storage = new MemStorage()] are those a sequence of calls leads to. *)

Inductive StorageCall :=
  | CreateSession (now : Z) (insertSession : InsertScanSession)
  | AddScannedQR (now : Z) (insertQR : InsertScannedQR)
  | DeleteScannedQR (k : Z)
  | ClearSessionQRs (sid : string).

Definition call (st : MemStorage) (c : StorageCall) : MemStorage :=
  match c with
  | CreateSession now insertSession => (createSession now insertSession st).2
  | AddScannedQR now insertQR => (addScannedQR now insertQR st).2
  | DeleteScannedQR k => (deleteScannedQR k st).2
  | ClearSessionQRs sid => (clearSessionQRs sid st).2
  end.

Definition storage_after (cs : list StorageCall) : MemStorage :=
  foldl call newMemStorage cs.

(** Every record is stored under its own id. *)
Definition keyed_by_id (st : MemStorage) : Prop :=
  ∀ k qr, (k, qr) ∈ qrs st → id qr = k.

(** What every state of the store satisfies: the record keys are pairwise
    distinct, each record is stored under its own id, the ids handed out so
    far are positive and below the counters, each session is stored under
    its own [sessionId], and no two stored sessions share an id. *)
Definition storage_inv (st : MemStorage) : Prop :=
  NoDup (qrs st).*1
  ∧ (∀ k qr, (k, qr) ∈ qrs st → id qr = k ∧ 1 ≤ k < currentQRId st)
  ∧ 1 ≤ currentQRId st ∧ 1 ≤ currentSessionId st
  ∧ (∀ sid s, getSession sid st = Some s →
       ss_sessionId s = sid ∧ 1 ≤ ss_id s < currentSessionId st)
  ∧ ∀ sid1 sid2 s1 s2,
      getSession sid1 st = Some s1 → getSession sid2 st = Some s2 →
      ss_id s1 = ss_id s2 → sid1 = sid2.

(** ** Scan table ([ScanTable]) *)

(** [Array.prototype.slice(start, end)]: a negative index counts from the
    end, and both are clamped to the array. *)
Definition slice {A} (start stop : Z) (l : list A) : list A :=
  let len := Z.of_nat (length l) in
  let k := if start <? 0 then Z.max (len + start) 0 else Z.min start len in
  let final := if stop <? 0 then Z.max (len + stop) 0 else Z.min stop len in
  take (Z.to_nat (final - k)) (drop (Z.to_nat k) l).

Definition itemsPerPage : Z := 10.

(** [Math.ceil(qrCodes.length / itemsPerPage)]; the quotient of an array
    length by 10 is rounded by less than its distance to the next integer,
    so the ceiling is that of the exact quotient. *)
Definition totalPages (qrCodes : list ScannedQR) : Z :=
  (Z.of_nat (length qrCodes) + itemsPerPage - 1) / itemsPerPage.

Definition startIndex (currentPage : Z) : Z :=
  (currentPage - 1) * itemsPerPage.

Definition endIndex (currentPage : Z) : Z :=
  startIndex currentPage + itemsPerPage.

Definition currentItems (currentPage : Z) (qrCodes : list ScannedQR)
    : list ScannedQR :=
  slice (startIndex currentPage) (endIndex currentPage) qrCodes.

(** The footer: [startIndex + 1] and [Math.min(endIndex, qrCodes.length)]. *)
Definition showing (currentPage : Z) (qrCodes : list ScannedQR) : Z * Z :=
  (startIndex currentPage + 1,
   Z.min (endIndex currentPage) (Z.of_nat (length qrCodes))).

(** [setCurrentPage(prev => Math.max(1, prev - 1))] *)
Definition previousPage (prev : Z) : Z := Z.max 1 (prev - 1).

(** [setCurrentPage(prev => Math.min(totalPages, prev + 1))] *)
Definition nextPage (qrCodes : list ScannedQR) (prev : Z) : Z :=
  Z.min (totalPages qrCodes) (prev + 1).

(** *** JavaScript [Set] of numbers

    A [Set] iterates in insertion order and holds no value twice: a list
    without duplicates. *)

Abbreviation jsset := (list Z).

Definition set_has (k : Z) (s : jsset) : bool := bool_decide (k ∈ s).

Definition set_add (k : Z) (s : jsset) : jsset :=
  if set_has k s then s else s ++ [k].

Definition set_delete (k : Z) (s : jsset) : jsset := filter (λ x, x ≠ k) s.

(** [new Set(iterable)] *)
Definition set_from (l : list Z) : jsset := foldl (λ s k, set_add k s) [] l.

(** [handleSelectAll(checked)] *)
Definition handleSelectAll (qrCodes : list ScannedQR) (checked : bool)
    : jsset :=
  if checked then set_from (id <$> qrCodes) else set_from [].

(** [handleSelectItem(id, checked)] *)
Definition handleSelectItem (k : Z) (checked : bool) (selectedIds : jsset)
    : jsset :=
  let newSelected := set_from selectedIds in
  if checked then set_add k newSelected else set_delete k newSelected.

(** [handleDeleteRecord(id)]: the selection after the call; [confirmed] is
    the answer to [confirm], [deleted] tells whether the mutation
    succeeded. *)
Definition handleDeleteRecord (confirmed deleted : bool) (k : Z)
    (selectedIds : jsset) : jsset :=
  if confirmed && deleted then set_delete k (set_from selectedIds)
  else selectedIds.

(** [handleExport()]: the argument of [onExport], [Array.from(selectedIds)]. *)
Definition handleExport (selectedIds : jsset) : list Z := selectedIds.

(** The header checkbox:
    [selectedIds.size === qrCodes.length && qrCodes.length > 0]. *)
Definition allSelected (qrCodes : list ScannedQR) (selectedIds : jsset)
    : bool :=
  (length selectedIds =? length qrCodes)%nat && (0 <? length qrCodes)%nat.

(** The checkbox of a row: [selectedIds.has(qr.id)]. *)
Definition rowSelected (qr : ScannedQR) (selectedIds : jsset) : bool :=
  set_has (id qr) selectedIds.

(** The selection holds no id twice and only ids of listed records. *)
Definition selection_wf (qrCodes : list ScannedQR) (selectedIds : jsset)
    : Prop :=
  NoDup selectedIds ∧ ∀ k, k ∈ selectedIds → k ∈ id <$> qrCodes.

(** *** The cells of a table row

    What a row of the table shows of a record: the status badge, three text
    cells and two amounts. *)

Record TableRow := mkTableRow {
  cell_Status : string;
  cell_SellerName : string;
  cell_VATNumber : string;
  cell_Date : string;
  cell_Amount : string;
  cell_VAT : string
}.

Section TableCells.
Variable Number_toString : number → string.

(** [a ? `${parseFloat(a).toFixed(2)} SAR` : '-'] *)
Definition amount_text (a : option string) : string :=
  match or_null a with
  | Some s => toFixed2 Number_toString (parseFloat s) +:+ " SAR"
  | None => "-"
  end.

Definition tableRow (qr : ScannedQR) : TableRow :=
  {| cell_Status := if String.eqb (status qr) "valid" then "Valid" else "Invalid";
     cell_SellerName := or_default (sellerName qr) "-";
     cell_VATNumber := or_default (vatNumber qr) "-";
     cell_Date := or_default (invoiceDate qr) "-";
     cell_Amount := amount_text (totalAmount qr);
     cell_VAT := amount_text (vatAmount qr) |}.
End TableCells.

(** ** Debounced detection ([handleQRDetection])

    The timers of the host, as far as the component uses them: [setTimeout]
    registers a callback under a fresh handle, [clearTimeout] drops the timer
    of a handle and does nothing for a handle whose timer has run or was
    cleared.  A pending timer is the time at which it is due and the data
    its callback passes to [processQRCode]. *)

Record Timers := mkTimers {
  nextHandle : Z;
  pending : jsmap (Z * string)
}.

Definition noTimers : Timers := {| nextHandle := 1; pending := [] |}.

Definition setTimeout (due : Z) (qrData : string) (t : Timers) : Z * Timers :=
  (nextHandle t,
   {| nextHandle := nextHandle t + 1;
      pending := map_set (nextHandle t) (due, qrData) (pending t) |}).

Definition clearTimeout (h : Z) (t : Timers) : Timers :=
  {| nextHandle := nextHandle t;
     pending := (map_delete h (pending t)).2 |}.

(** The timers and the ref [debounceTimeout] of the component. *)
Record Debounce := mkDebounce {
  timers : Timers;
  debounceTimeout : option Z
}.

(** [handleQRDetection(qrData)] at time [now]; [st] is the component state
    the handler reads. *)
Definition handleQRDetection (now : Z) (qrData : string) (st : ScannerState)
    (d : Debounce) : Debounce :=
  if String.eqb qrData (lastScannedData st) || isProcessing st then d
  else
    let t :=
      match debounceTimeout d with
      | Some h => clearTimeout h (timers d)
      | None => timers d
      end in
    let '(h, t') := setTimeout (now + 1000) qrData t in
    {| timers := t'; debounceTimeout := Some h |}.

(** The timer of handle [h] runs: the host drops it and calls back with its
    data, if it is still pending. *)
Definition runTimer (h : Z) (d : Debounce) : option string * Debounce :=
  (snd <$> map_get h (pending (timers d)),
   {| timers := clearTimeout h (timers d);
      debounceTimeout := debounceTimeout d |}).

(** The cleanup of the component's last effect:
    [if (debounceTimeout.current) clearTimeout(debounceTimeout.current)]. *)
Definition unmount (d : Debounce) : Debounce :=
  match debounceTimeout d with
  | Some h =>
      {| timers := clearTimeout h (timers d);
         debounceTimeout := debounceTimeout d |}
  | None => d
  end.

(** What happens to the timers of a mounted component: a detection, handled
    with the state its handler reads, or a timer that runs. *)
Inductive ScannerEvent :=
  | Detection (now : Z) (qrData : string) (st : ScannerState)
  | TimerRuns (h : Z).

Definition scanner_event (d : Debounce) (e : ScannerEvent) : Debounce :=
  match e with
  | Detection now qrData st => handleQRDetection now qrData st d
  | TimerRuns h => (runTimer h d).2
  end.

Definition debounce_after (es : list ScannerEvent) : Debounce :=
  foldl scanner_event {| timers := noTimers; debounceTimeout := None |} es.

(** At most one timer is pending, and the ref holds its handle. *)
Definition one_pending (d : Debounce) : Prop :=
  pending (timers d) = []
  ∨ ∃ h due qrData,
      debounceTimeout d = Some h ∧ pending (timers d) = [(h, (due, qrData))].

(** ** Further predicates and example data *)

(** A text with exactly two digits after the decimal point. *)
Definition two_decimals (c : string) : Prop :=
  ∃ sign ip fp,
    c = sign +:+ ip +:+ String "." fp
    ∧ (sign = "" ∨ sign = "-")
    ∧ digit_string ip ∧ ip ≠ "" ∧ digit_string fp
    ∧ String.length fp = 2%nat.

(** The calls that lead to [example_store], after the two sessions were
    created. *)
Definition example_calls : list StorageCall :=
  [CreateSession 1 (mkInsertScanSession "s");
   CreateSession 2 (mkInsertScanSession "t");
   AddScannedQR 10 (scan "s" "valid" (Some "115.00"));
   AddScannedQR 20 (scan "s" "invalid" None);
   AddScannedQR 30 (scan "t" "valid" (Some "10.00"))].

(** The records of session ["s"] in [example_store], as the table lists
    them. *)
Definition example_rows : list ScannedQR := getScannedQRs "s" example_store.

(* ===================================================================== *)
(** * Part II: lemmas and theorems                                        *)
(* ===================================================================== *)

(** ** The record map *)

Lemma filter_ext_in {A} (P Q : A → Prop) `{!∀ x, Decision (P x)}
    `{!∀ x, Decision (Q x)} (l : list A) :
  (∀ x, x ∈ l → (P x ↔ Q x)) → filter P l = filter Q l.
Proof.
  induction l as [|x l IH]; intros Hext; [done|].
  rewrite !filter_cons.
  assert (Hx : P x ↔ Q x) by (apply Hext; left).
  assert (Hl : filter P l = filter Q l).
  { apply IH. intros y Hy. apply Hext. by right. }
  destruct (decide (P x)) as [HP|HP], (decide (Q x)) as [HQ|HQ];
    rewrite ?Hl; tauto.
Qed.

Lemma map_delete_fold_filter {V} (ks : list Z) (m : jsmap V) :
  foldl (λ m k, (map_delete k m).2) m ks = filter (λ e, e.1 ∉ ks) m.
Proof.
  revert m. induction ks as [|k ks IH]; intros m; cbn [foldl map_delete snd].
  - induction m as [|e m IHm]; [done|].
    rewrite filter_cons, decide_True by apply not_elem_of_nil.
    by rewrite <- IHm.
  - rewrite IH, list_filter_filter. apply list_filter_iff. intros e.
    rewrite not_elem_of_cons. tauto.
Qed.

(** With distinct keys, an entry's key is among the keys selected by [P]
    exactly when the entry itself satisfies [P]. *)
Lemma key_selected_iff {V} (P : Z * V → Prop) `{!∀ e, Decision (P e)}
    (m : jsmap V) (e : Z * V) :
  NoDup m.*1 → e ∈ m → (e.1 ∈ (filter P m).*1 ↔ P e).
Proof.
  intros Hnd He. split.
  - intros Hin. apply list_elem_of_fmap in Hin as (e' & Hk & He').
    apply list_elem_of_filter in He' as [HP He'].
    assert (e' = e) as <-; [|done].
    apply list_elem_of_lookup in He as [i Hi].
    apply list_elem_of_lookup in He' as [j Hj].
    assert (i = j) as ->.
    { apply (NoDup_lookup m.*1 i j e.1 Hnd); rewrite list_lookup_fmap.
      - by rewrite Hi.
      - rewrite Hj. simpl. by rewrite Hk. }
    congruence.
  - intros HP. apply list_elem_of_fmap. exists e. split; [done|].
    by apply list_elem_of_filter.
Qed.

Lemma clear_keeps_other_sessions (sid : string) (m : jsmap ScannedQR) :
  NoDup m.*1 →
  foldl (λ m k, (map_delete k m).2) m
        (filter (λ e, sessionId e.2 = sid) (map_entries m)).*1
  = filter (λ e, sessionId e.2 ≠ sid) m.
Proof.
  intros Hnd. rewrite map_delete_fold_filter. unfold map_entries.
  apply filter_ext_in. intros e He.
  by rewrite (key_selected_iff (λ e, sessionId e.2 = sid) m e Hnd He).
Qed.

Lemma map_get_filter_keep {V} (P : Z * V → Prop) `{!∀ e, Decision (P e)}
    (m : jsmap V) (k : Z) (v : V) :
  NoDup m.*1 → map_get k m = Some v → P (k, v) →
  map_get k (filter P m) = Some v.
Proof.
  unfold map_get. intros Hnd Hget HP.
  destruct (list_find (λ e, e.1 = k) m) as [[i e]|] eqn:Hf; [|done].
  simpl in Hget. injection Hget as <-.
  apply list_find_Some in Hf as (Hi & Hk & Hbefore).
  destruct e as [k' v]; simpl in *; subst k'.
  clear Hbefore. revert i Hi. induction m as [|e m IH]; intros i Hi; [done|].
  rewrite filter_cons. apply NoDup_cons in Hnd as [Hnotin Hnd].
  destruct i as [|i]; simpl in Hi.
  - injection Hi as ->. rewrite decide_True by done. simpl.
    by rewrite decide_True.
  - assert (e.1 ≠ k) as Hne.
    { intros <-. apply Hnotin. apply list_elem_of_fmap. exists (e.1, v).
      split; [done|]. by eapply list_elem_of_lookup_2. }
    destruct (decide (P e)).
    + simpl. rewrite decide_False by done.
      specialize (IH Hnd i Hi).
      destruct (list_find (λ e0, e0.1 = k) (filter P m)) as [[j e']|];
        [|done]. simpl in *. done.
    + by apply (IH Hnd i).
Qed.

(** ** The store invariant holds in every reachable state *)

Lemma store_wf_new : store_wf newMemStorage.
Proof. split; [constructor|]. intros k Hk. by apply elem_of_nil in Hk. Qed.

Lemma store_wf_createSession now ins st :
  store_wf st → store_wf (createSession now ins st).2.
Proof. by intros [Hnd Hlt]. Qed.

Lemma store_wf_addScannedQR now ins st :
  store_wf st → store_wf (addScannedQR now ins st).2.
Proof.
  intros [Hnd Hlt]. unfold addScannedQR, store_wf, map_set, map_has. simpl.
  rewrite bool_decide_eq_false_2.
  2:{ intros Hin. apply Hlt in Hin. lia. }
  rewrite fmap_app. simpl. split.
  - apply NoDup_app. split; [done|]. split; [|apply NoDup_singleton].
    intros k Hk Hk'. apply list_elem_of_singleton in Hk' as ->.
    apply Hlt in Hk. lia.
  - intros k Hk. apply elem_of_app in Hk as [Hk|Hk].
    + apply Hlt in Hk. lia.
    + apply list_elem_of_singleton in Hk as ->. lia.
Qed.

Lemma store_wf_filter (P : Z * ScannedQR → Prop) `{!∀ e, Decision (P e)} st m :
  store_wf st → m = filter P (qrs st) →
  store_wf {| sessions := sessions st; qrs := m;
              currentSessionId := currentSessionId st;
              currentQRId := currentQRId st |}.
Proof.
  intros [Hnd Hlt] ->. split; simpl.
  - eapply sublist_NoDup; [exact Hnd|]. apply fmap_sublist, sublist_filter.
  - intros k Hk. apply Hlt. apply list_elem_of_fmap in Hk as (e & -> & He).
    apply list_elem_of_filter in He as [_ He].
    apply list_elem_of_fmap. by exists e.
Qed.

Lemma store_wf_deleteScannedQR k st :
  store_wf st → store_wf (deleteScannedQR k st).2.
Proof. intros Hwf. by eapply (store_wf_filter (λ e, e.1 ≠ k)). Qed.

Lemma store_wf_clearSessionQRs sid st :
  store_wf st → store_wf (clearSessionQRs sid st).2.
Proof.
  intros Hwf. unfold clearSessionQRs. simpl.
  eapply (store_wf_filter (λ e, sessionId e.2 ≠ sid)); [done|].
  apply clear_keeps_other_sessions, Hwf.
Qed.

(** ** [clearSessionQRs] *)

(** C9. [clearSessionQRs] removes exactly the records of the given session:
    afterwards no stored record has that [sessionId], the remaining entries
    are the entries of the other sessions, unchanged and in their order (so a
    lookup of any such record gives the same record as before), the sessions
    and the two id counters are untouched, and the result is [true] whether
    or not a record matched. *)
Theorem clearSessionQRs_frame (sid : string) (st : MemStorage) :
  store_wf st →
  (clearSessionQRs sid st).1 = true
  ∧ (∀ e, e ∈ qrs (clearSessionQRs sid st).2 → sessionId e.2 ≠ sid)
  ∧ qrs (clearSessionQRs sid st).2
    = filter (λ e, sessionId e.2 ≠ sid) (qrs st)
  ∧ (∀ k qr, map_get k (qrs st) = Some qr → sessionId qr ≠ sid →
       map_get k (qrs (clearSessionQRs sid st).2) = Some qr)
  ∧ sessions (clearSessionQRs sid st).2 = sessions st
  ∧ currentSessionId (clearSessionQRs sid st).2 = currentSessionId st
  ∧ currentQRId (clearSessionQRs sid st).2 = currentQRId st.
Proof.
  intros [Hnd Hlt].
  assert (Hq : qrs (clearSessionQRs sid st).2
               = filter (λ e, sessionId e.2 ≠ sid) (qrs st)).
  { unfold clearSessionQRs. simpl. by apply clear_keeps_other_sessions. }
  split; [done|]. split; [|split; [done|split; [|done]]].
  - intros e. rewrite Hq. intros He.
    by apply list_elem_of_filter in He as [? _].
  - intros k qr Hget Hne. rewrite Hq.
    by apply (map_get_filter_keep (λ e, sessionId e.2 ≠ sid)).
Qed.

(** ** [getScannedQRs] and [getSessionStats] *)

Lemma insert_by_scannedAt_perm x l : insert_by_scannedAt x l ≡ₚ x :: l.
Proof.
  induction l as [|y l IH]; simpl; [done|].
  case_bool_decide; [|done]. rewrite IH. apply Permutation_swap.
Qed.

Lemma sort_by_scannedAt_desc_perm l : sort_by_scannedAt_desc l ≡ₚ l.
Proof.
  induction l as [|x l IH]; simpl; [done|].
  rewrite insert_by_scannedAt_perm. by rewrite IH.
Qed.

Lemma later_first_cons x l :
  later_first (x :: l) ↔
  (∀ y, y ∈ l → scannedAt y ≤ scannedAt x) ∧ later_first l.
Proof.
  split.
  - intros H. split.
    + intros y Hy. apply list_elem_of_lookup in Hy as [j Hj].
      apply (H 0%nat (S j) x y); simpl; [done|done|lia].
    + intros i j a b Hi Hj Hij. apply (H (S i) (S j) a b); simpl; [done|done|lia].
  - intros [Hhd Htl] i j a b Hi Hj Hij.
    destruct i as [|i], j as [|j]; simpl in *; try lia.
    + injection Hi as <-. apply Hhd. by eapply list_elem_of_lookup_2.
    + apply (Htl i j a b); [done|done|lia].
Qed.

Lemma insert_by_scannedAt_sorted x l :
  later_first l → later_first (insert_by_scannedAt x l).
Proof.
  induction l as [|y l IH]; intros Hl; simpl.
  - apply later_first_cons. split; [|done]. intros y Hy.
    by apply elem_of_nil in Hy.
  - apply later_first_cons in Hl as [Hhd Htl]. case_bool_decide as Hlt.
    + apply later_first_cons. split; [|by apply IH].
      intros z Hz. rewrite insert_by_scannedAt_perm in Hz.
      apply elem_of_cons in Hz as [->|Hz]; [lia|by apply Hhd].
    + apply later_first_cons. split.
      * intros z Hz. apply elem_of_cons in Hz as [->|Hz]; [lia|].
        specialize (Hhd z Hz). lia.
      * apply later_first_cons. by split.
Qed.

Lemma sort_by_scannedAt_desc_sorted l : later_first (sort_by_scannedAt_desc l).
Proof.
  induction l as [|x l IH]; simpl.
  - intros i j x y Hi. done.
  - by apply insert_by_scannedAt_sorted.
Qed.

Lemma getScannedQRs_perm sid st :
  getScannedQRs sid st
  ≡ₚ filter (λ qr, sessionId qr = sid) (map_values (qrs st)).
Proof. apply sort_by_scannedAt_desc_perm. Qed.

Lemma length_filter_two_statuses (l : list ScannedQR) :
  (∀ qr, qr ∈ l → status qr = "valid" ∨ status qr = "invalid") →
  length l = (length (filter (λ qr, status qr = "valid") l)
              + length (filter (λ qr, status qr = "invalid") l))%nat.
Proof.
  induction l as [|x l IH]; intros Hst; [done|].
  rewrite !filter_cons.
  assert (IH' := IH (λ qr Hqr, Hst qr (list_elem_of_further _ _ _ Hqr))).
  destruct (Hst x) as [Hx|Hx]; [left|..]; rewrite Hx.
  - rewrite decide_True, decide_False by done. simpl. lia.
  - rewrite decide_False, decide_True by done. simpl. lia.
Qed.

Lemma parseFloat_or_default_zero o :
  parseFloat (or_default o "0")
  = match or_null o with Some a => parseFloat a | None => num_zero end.
Proof.
  destruct o as [a|]; simpl; [|done].
  by destruct (String.eqb a "").
Qed.

(** C8. [getSessionStats]: [totalScans] is the number of stored records of
    the session, [validScans] the number of those with status ['valid'],
    [errors] the number with status ['invalid'] (so the total is their sum
    whenever every record of the session has one of the two statuses), and
    [totalAmount] is the floating-point sum, taken from 0 in the order of
    [getScannedQRs] (latest scan first), of [parseFloat] of the
    [totalAmount] of the valid records only, a missing amount adding 0. *)
Theorem getSessionStats_spec (sid : string) (st : MemStorage) :
  let stored := filter (λ qr, sessionId qr = sid) (map_values (qrs st)) in
  let s := getSessionStats sid st in
  Stats.totalScans s = length stored
  ∧ Stats.validScans s = length (filter (λ qr, status qr = "valid") stored)
  ∧ Stats.errors s = length (filter (λ qr, status qr = "invalid") stored)
  ∧ ((∀ qr, qr ∈ stored → status qr = "valid" ∨ status qr = "invalid") →
     Stats.totalScans s = (Stats.validScans s + Stats.errors s)%nat)
  ∧ Stats.totalAmount s
    = foldl (λ sum qr, num_add sum (amount_of qr)) num_zero
        (filter (λ qr, status qr = "valid") (getScannedQRs sid st))
  ∧ getScannedQRs sid st ≡ₚ stored
  ∧ later_first (getScannedQRs sid st).
Proof.
  intros stored s. pose proof (getScannedQRs_perm sid st) as Hperm.
  fold stored in Hperm.
  assert (H1 : Stats.totalScans s = length stored).
  { unfold s, getSessionStats. simpl. by rewrite Hperm. }
  assert (H2 : Stats.validScans s
               = length (filter (λ qr, status qr = "valid") stored)).
  { unfold s, getSessionStats. simpl. by rewrite Hperm. }
  assert (H3 : Stats.errors s
               = length (filter (λ qr, status qr = "invalid") stored)).
  { unfold s, getSessionStats. simpl. by rewrite Hperm. }
  repeat split; try done.
  - intros Hst. rewrite H1, H2, H3. by apply length_filter_two_statuses.
  - unfold s, getSessionStats. simpl.
    generalize (filter (λ qr, status qr = "valid") (getScannedQRs sid st)).
    intros l. generalize num_zero. induction l as [|x l IH]; intros z; [done|].
    simpl. rewrite IH. unfold amount_of.
    by rewrite parseFloat_or_default_zero.
  - apply sort_by_scannedAt_desc_sorted.
Qed.

(** ** [exportToExcel] *)

(** C10. The rows [exportToExcel] writes: with range ['selected'] and no
    [selectedIds] nothing is filtered and the workbook is the one of range
    ['all']; with [selectedIds] the exported records are exactly those whose
    id is among them; with range ['valid'] exactly those whose status is
    ['valid']; in each case in the order of the input. *)
Theorem exportToExcel_selection
    (Number_toString : number → string) (Date_toLocaleString : Z → string)
    (Date_toISODate : Z → string) (now : Z) (qrCodes : list ScannedQR)
    (name : string) (headers : bool) (ids ids' : list Z) :
  let export :=
    exportToExcel Number_toString Date_toLocaleString Date_toISODate
      now qrCodes in
  let rows := excelData Number_toString Date_toLocaleString in
  export (mkExportOptions name headers RangeSelected None)
    = export (mkExportOptions name headers RangeAll (Some ids'))
  ∧ export (mkExportOptions name headers RangeSelected None)
    = export (mkExportOptions name headers RangeAll None)
  ∧ wb_rows (export (mkExportOptions name headers RangeSelected None))
    = rows qrCodes
  ∧ wb_rows (export (mkExportOptions name headers RangeSelected (Some ids)))
    = rows (filter (λ qr, id qr ∈ ids) qrCodes)
  ∧ (∀ qr, qr ∈ dataToExport qrCodes
                  (mkExportOptions name headers RangeSelected (Some ids))
           ↔ qr ∈ qrCodes ∧ id qr ∈ ids)
  ∧ wb_rows (export (mkExportOptions name headers RangeValid (Some ids')))
    = rows (filter (λ qr, status qr = "valid") qrCodes)
  ∧ wb_rows (export (mkExportOptions name headers RangeValid None))
    = rows (filter (λ qr, status qr = "valid") qrCodes)
  ∧ (∀ sel qr, qr ∈ dataToExport qrCodes
                      (mkExportOptions name headers RangeValid sel)
               ↔ qr ∈ qrCodes ∧ status qr = "valid").
Proof.
  intros export rows.
  split; [done|]. split; [done|]. split; [done|]. split; [done|].
  split; [|split; [done|split; [done|]]].
  - intros qr. unfold dataToExport. simpl. rewrite list_elem_of_filter. tauto.
  - intros sel qr. unfold dataToExport. simpl. rewrite list_elem_of_filter.
    tauto.
Qed.

(** ** TLV tokenizer *)

Section Tokenizer.
Local Open Scope nat_scope.

Lemma byte_of_to_nat b : byte_of_nat (Byte.to_nat b) = b.
Proof. unfold byte_of_nat. by rewrite Byte.of_to_nat. Qed.

Lemma to_nat_byte_of_nat n : n ≤ 255 → Byte.to_nat (byte_of_nat n) = n.
Proof.
  intros Hn. unfold byte_of_nat.
  destruct (Byte.of_nat n) as [b|] eqn:Hb; simpl.
  - by apply Byte.to_of_nat.
  - apply Byte.of_nat_None_iff in Hb. lia.
Qed.

(** One step of the loop on a buffer that holds a header. *)
Lemma tokenize_from_header off t l body :
  tokenize_from off (t :: l :: body) =
  if decide (Byte.to_nat l ≤ length body) then
    match tokenize_from (off + 2 + Byte.to_nat l)
            (drop (Byte.to_nat l) body) with
    | Ok records =>
        Ok ({| tag := Byte.to_N t; value := take (Byte.to_nat l) body |}
              :: records)
    | Err e => Err e
    end
  else Err (Truncated off).
Proof.
  rewrite tokenize_from_equation.
  destruct (Nat.leb_spec (Byte.to_nat l) (length body)), (decide _);
    try lia; done.
Qed.

Lemma serialize_cons r rs :
  serialize (r :: rs) = serialize_record r ++ serialize rs.
Proof. done. Qed.

Lemma serialize_snoc rs r :
  serialize (rs ++ [r]) = serialize rs ++ serialize_record r.
Proof.
  unfold serialize. rewrite fmap_app, concat_app. simpl.
  by rewrite app_nil_r.
Qed.

Lemma length_serialize_record r :
  length (serialize_record r) = 2 + length (value r).
Proof. done. Qed.

Lemma length_serialize rs :
  length (serialize rs) = sum_list ((λ r, 2 + length (value r)) <$> rs).
Proof.
  induction rs as [|r rs IH]; [done|].
  rewrite serialize_cons, length_app, IH. done.
Qed.

(** On success the records are exactly the buffer, cut into records. *)
Lemma tokenize_from_ok rest :
  ∀ off recs, tokenize_from off rest = Ok recs →
    rest = serialize recs ∧ Forall record_wf recs.
Proof.
  (* strong induction on the number of bytes left *)
  remember (length rest) as n eqn:Hn. revert rest Hn.
  induction n as [n IH] using lt_wf_ind. intros rest Hn off recs Htok.
  destruct rest as [|t [|l body]].
  - rewrite tokenize_from_equation in Htok. injection Htok as <-. by split.
  - rewrite tokenize_from_equation in Htok. done.
  - rewrite tokenize_from_header in Htok.
    destruct (decide _) as [Hle|]; [|done].
    destruct (tokenize_from _ (drop _ body)) as [rs|] eqn:Hrs; [|done].
    injection Htok as <-.
    apply IH with (m := length (drop (Byte.to_nat l) body)) in Hrs
      as [Hser Hwf]; [| subst n; rewrite length_drop; simpl; lia | done].
    split.
    + rewrite serialize_cons. unfold serialize_record at 1. simpl.
      rewrite <- Byte.to_nat_via_N, byte_of_to_nat.
      rewrite length_take, Nat.min_l by done.
      rewrite byte_of_to_nat, <- Hser.
      by rewrite take_drop.
    + constructor; [|done]. split; simpl.
      * pose proof (Byte.to_N_bounded t). lia.
      * rewrite length_take. pose proof (Byte.to_nat_bounded l). lia.
Qed.

(** Tokenizing well-formed records followed by more bytes: the records
    come out first, the rest is tokenized at the offset behind them. *)
Lemma tokenize_from_app recs :
  Forall record_wf recs →
  ∀ off rest,
    tokenize_from off (serialize recs ++ rest) =
    match tokenize_from (off + length (serialize recs)) rest with
    | Ok rs => Ok (recs ++ rs)
    | Err e => Err e
    end.
Proof.
  induction 1 as [|r recs [Htag Hlen] _ IH]; intros off rest.
  - simpl. rewrite Nat.add_0_r. by destruct (tokenize_from off rest).
  - rewrite serialize_cons, <- app_assoc. unfold serialize_record at 1.
    cbn [app]. rewrite tokenize_from_header.
    rewrite to_nat_byte_of_nat by done.
    rewrite decide_True by (rewrite length_app; lia).
    rewrite drop_app_length, take_app_length, IH.
    rewrite length_app, length_serialize_record.
    replace (off + 2 + length (value r) + length (serialize recs))
      with (off + (2 + length (value r) + length (serialize recs))) by lia.
    rewrite Byte.to_N_via_nat, to_nat_byte_of_nat, N2Nat.id by lia.
    destruct (tokenize_from _ rest); [|done]. by destruct r.
Qed.

(** A buffer that ends inside a record is [Truncated] at the offset of
    that record. *)
Lemma tokenize_from_cut r q q' off :
  record_wf r → q ++ q' = serialize_record r → q ≠ [] → q' ≠ [] →
  tokenize_from off q = Err (Truncated off).
Proof.
  intros [Htag Hlen] Hq Hne Hne'. unfold serialize_record in Hq.
  destruct q as [|t [|l body]]; [done|..].
  - by rewrite tokenize_from_equation.
  - injection Hq as -> -> Hv. rewrite tokenize_from_header.
    rewrite to_nat_byte_of_nat by done.
    rewrite decide_False; [done|].
    rewrite <- Hv, length_app. destruct q'; [done|]. simpl. lia.
Qed.

(** Where a cut at [n] bytes falls: behind [j] whole records, inside (or
    just in front of) record [j]. *)
Lemma serialize_cut recs :
  ∀ n, n < length (serialize recs) →
    ∃ j r, recs !! j = Some r
      ∧ length (serialize (take j recs)) ≤ n
      ∧ n < length (serialize (take j recs)) + length (serialize_record r)
      ∧ take n (serialize recs)
        = serialize (take j recs)
          ++ take (n - length (serialize (take j recs))) (serialize_record r).
Proof.
  induction recs as [|r recs IH]; intros n Hn; [simpl in Hn; lia|].
  rewrite serialize_cons, length_app in Hn.
  destruct (decide (n < length (serialize_record r))) as [Hlt|Hge].
  - exists 0, r. rewrite take_0. change (serialize []) with (@nil byte).
    cbn [length app]. split; [done|]. split; [lia|]. split; [lia|].
    rewrite serialize_cons, Nat.sub_0_r, take_app_le by lia. done.
  - destruct (IH (n - length (serialize_record r))) as (j & r' & Hj & H1 & H2 & H3);
      [lia|].
    exists (S j), r'. cbn [take lookup list_lookup].
    rewrite !serialize_cons, !length_app. split; [done|].
    split; [lia|]. split; [lia|].
    rewrite take_app_ge by lia. rewrite H3, <- app_assoc.
    do 3 f_equal. lia.
Qed.

Lemma tokenize_nonempty buffer :
  buffer ≠ [] → tokenize buffer = tokenize_from 0 buffer.
Proof. by destruct buffer. Qed.
End Tokenizer.

(** C1 (as amended).  On success the tokenizer has consumed the buffer
    exactly: the buffer is the emitted records laid end to end, the sum of
    [2 + L] over them is its length, and every value has its [L <= 255]
    bytes.  A buffer cut short of a well-formed payload, keeping [n] of its
    bytes, is [Truncated] at the offset of the record the cut falls in,
    except when the cut falls on a record boundary: then nothing tells the
    shorter buffer from a complete one, and the result is [EmptyPayload]
    for [n = 0] and otherwise the success made of the whole records in
    front of the cut. *)
Theorem tokenize_bounds (buffer : list byte) (recs : list TlvRecord) :
  tokenize buffer = Ok recs →
  buffer = serialize recs
  ∧ sum_list ((λ r, 2 + length (value r))%nat <$> recs) = length buffer
  ∧ Forall (λ r, length (value r) ≤ 255)%nat recs
  ∧ ∀ n, (n < length buffer)%nat →
      ∃ j off, (j < length recs)%nat
        ∧ off = length (serialize (take j recs))
        ∧ (off ≤ n < length (serialize (take (S j) recs)))%nat
        ∧ tokenize (take n buffer) =
            if (n =? 0)%nat then Err EmptyPayload
            else if (n =? off)%nat then Ok (take j recs)
            else Err (Truncated off).
Proof.
  intros Htok.
  assert (Hne : buffer ≠ []) by (by destruct buffer).
  rewrite tokenize_nonempty in Htok by done.
  apply tokenize_from_ok in Htok as [-> Hwf].
  split; [done|]. split; [by rewrite length_serialize|].
  split; [eapply Forall_impl; [exact Hwf|]; by intros r [_ ?]|].
  intros n Hn.
  destruct (serialize_cut recs n Hn) as (j & r & Hj & H1 & H2 & Hcut).
  exists j, (length (serialize (take j recs))).
  split; [by eapply lookup_lt_Some|]. split; [done|].
  assert (HSj : take (S j) recs = take j recs ++ [r])
    by (by apply take_S_r).
  split.
  { rewrite HSj, serialize_snoc, length_app. lia. }
  rewrite Hcut.
  assert (Hwfj : Forall record_wf (take j recs)) by by apply Forall_take.
  assert (Hwfr : record_wf r).
  { eapply Forall_lookup_1 in Hwf; [|exact Hj]. done. }
  destruct (n =? 0)%nat eqn:Hn0.
  - apply Nat.eqb_eq in Hn0 as ->.
    assert (length (serialize (take j recs)) = 0)%nat as Hz by lia.
    apply length_zero_iff_nil in Hz as ->. done.
  - apply Nat.eqb_neq in Hn0.
    destruct (n =? length (serialize (take j recs)))%nat eqn:Hoff.
    + apply Nat.eqb_eq in Hoff. rewrite <- Hoff, Nat.sub_diag, take_0.
      rewrite tokenize_nonempty.
      2:{ rewrite app_nil_r. intros Hnil.
          apply (f_equal length) in Hnil. cbn [length] in Hnil. lia. }
      rewrite tokenize_from_app by done. rewrite tokenize_from_equation.
      by rewrite app_nil_r.
    + apply Nat.eqb_neq in Hoff.
      set (k := (n - length (serialize (take j recs)))%nat).
      assert (Hk : (0 < k < length (serialize_record r))%nat) by (unfold k; lia).
      rewrite tokenize_nonempty.
      2:{ intros Hnil. apply (f_equal length) in Hnil.
          rewrite length_app, length_take in Hnil. cbn [length] in Hnil. lia. }
      rewrite tokenize_from_app by done. rewrite Nat.add_0_l.
      rewrite (tokenize_from_cut r _ (drop k (serialize_record r))); try done.
      * apply take_drop.
      * intros Hnil. apply (f_equal length) in Hnil.
        rewrite length_take in Hnil. cbn [length] in Hnil. lia.
      * intros Hnil. apply (f_equal length) in Hnil.
        rewrite length_drop in Hnil. cbn [length] in Hnil. lia.
Qed.

(** A payload cut at a record boundary is accepted: with the last record
    (three bytes) deleted, the two-record payload tokenizes to its first
    record; no [Truncated] is reported. *)
Lemma tokenize_cut_at_boundary :
  tokenize two_record_buffer
    = Ok [text_record 1 "A"; text_record 2 "B"]
  ∧ take 3 two_record_buffer = ["001"; "001"; "A"]%byte
  ∧ tokenize (take 3 two_record_buffer) = Ok [text_record 1 "A"]
  ∧ ¬ ∃ offset, tokenize (take 3 two_record_buffer) = Err (Truncated offset).
Proof.
  assert (H : tokenize (take 3 two_record_buffer) = Ok [text_record 1 "A"])
    by (vm_compute; reflexivity).
  split; [vm_compute; reflexivity|]. split; [reflexivity|]. split; [exact H|].
  intros [offset Hoff]. rewrite H in Hoff. discriminate.
Qed.

Lemma tokenize_bounds_witness :
  tokenize two_record_buffer = Ok [text_record 1 "A"; text_record 2 "B"]
  ∧ two_record_buffer = serialize [text_record 1 "A"; text_record 2 "B"].
Proof.
  assert (H : tokenize two_record_buffer
              = Ok [text_record 1 "A"; text_record 2 "B"])
    by (vm_compute; reflexivity).
  split; [exact H|].
  exact (proj1 (tokenize_bounds two_record_buffer _ H)).
Defined.

(** ** Field mapper and validator *)

Lemma structural_unfold seq :
  structural seq =
  match find_tag 1 seq, find_tag 2 seq, find_tag 3 seq,
        find_tag 4 seq, find_tag 5 seq with
  | None, _, _, _, _ => Err (MissingTag 1)
  | Some _, None, _, _, _ => Err (MissingTag 2)
  | Some _, Some _, None, _, _ => Err (MissingTag 3)
  | Some _, Some _, Some _, None, _ => Err (MissingTag 4)
  | Some _, Some _, Some _, Some _, None => Err (MissingTag 5)
  | Some v1, Some v2, Some v3, Some v4, Some v5 =>
      match decode_sellerName v1 with
      | Err e => Err e
      | Ok seller =>
        match decode_text 2 v2 with
        | Err e => Err e
        | Ok vat =>
          match decode_text 3 v3 with
          | Err e => Err e
          | Ok time =>
            match decode_amount 4 v4 with
            | Err e => Err e
            | Ok total =>
              match decode_amount 5 v5 with
              | Err e => Err e
              | Ok vatTotal =>
                  Ok {| cf_sellerName := seller; cf_vatNumber := vat;
                        cf_timestamp := time; cf_invoiceTotal := total;
                        cf_vatTotal := vatTotal |}
              end
            end
          end
        end
      end
  end.
Proof.
  unfold structural, require_tag.
  destruct (find_tag 1 seq), (find_tag 2 seq), (find_tag 3 seq),
    (find_tag 4 seq), (find_tag 5 seq); reflexivity.
Qed.

Lemma find_tag_None t seq :
  find_tag t seq = None ↔ ∀ r, r ∈ seq → tag r ≠ t.
Proof.
  induction seq as [|r seq IH]; simpl.
  - split; [|done]. intros _ r Hr. by apply elem_of_nil in Hr.
  - destruct (N.eqb_spec (tag r) t) as [Heq|Hne].
    + split; [done|]. intros H. destruct (H r); [left|done].
    + rewrite IH. split.
      * intros H r' Hr'. apply elem_of_cons in Hr' as [->|Hr']; [done|].
        by apply H.
      * intros H r' Hr'. apply H. by right.
Qed.

Lemma find_tag_Some t seq :
  is_Some (find_tag t seq) ↔ ∃ r, r ∈ seq ∧ tag r = t.
Proof.
  induction seq as [|r seq IH]; simpl.
  - split; [by intros [? ?]|]. intros (r & Hr & _).
    by apply elem_of_nil in Hr.
  - destruct (N.eqb_spec (tag r) t) as [Heq|Hne].
    + split; [|by eauto]. intros _. exists r. split; [left|done].
    + rewrite IH. split.
      * intros (r' & Hr' & Ht). exists r'. split; [by right|done].
      * intros (r' & Hr' & Ht). apply elem_of_cons in Hr' as [->|Hr'];
          [done|by eauto].
Qed.

Lemma mapAndValidate_missing_4 seq :
  is_Some (find_tag 1 seq) → is_Some (find_tag 2 seq) →
  is_Some (find_tag 3 seq) → find_tag 4 seq = None →
  mapAndValidate seq = Invalid (MissingTag 4).
Proof.
  intros [v1 H1] [v2 H2] [v3 H3] H4. unfold mapAndValidate.
  by rewrite structural_unfold, H1, H2, H3, H4.
Qed.

Ltac in_list := by repeat constructor.

Ltac tag_cases H :=
  repeat (apply elem_of_cons in H as [->|H]); [..|by apply elem_of_nil in H].

(** C2.  A sequence whose records carry the tags 1, 2 and 3 only is rejected
    with [MissingTag 4].  More generally: when one of the five mandatory
    tags is absent the outcome is [Invalid (MissingTag t')] for an absent
    tag [t'] (the first in tag order); when all five are present and the
    value of one fails its decode rule the outcome is [Invalid] with the
    error of such a failing value (the first in tag order); and an outcome
    [Valid] carries the decoded values of all five tags, so no partially
    populated invoice is produced. *)
(** The value [v] under test is the one found earlier, whose decoding
    succeeded. *)
Ltac earlier_ok Hv He :=
  exfalso; simpl in He;
  match type of Hv with
  | find_tag ?t ?s = Some ?v =>
      match goal with
      | H : find_tag t s = Some ?w |- _ =>
          tryif constr_eq v w then fail
          else assert (v = w) as -> by congruence
      end
  end;
  repeat match goal with
         | D : ?x = Ok _ |- _ => rewrite D in He
         end;
  discriminate.

Theorem mapAndValidate_rejects :
  (∀ seq,
     (∀ r, r ∈ seq → tag r ∈ [1; 2; 3]%N) →
     (∀ t, t ∈ [1; 2; 3]%N → ∃ r, r ∈ seq ∧ tag r = t) →
     mapAndValidate seq = Invalid (MissingTag 4))
  ∧ (∀ seq t,
       t ∈ [1; 2; 3; 4; 5]%N → find_tag t seq = None →
       ∃ t', (t' ≤ t)%N ∧ t' ∈ [1; 2; 3; 4; 5]%N ∧ find_tag t' seq = None
             ∧ mapAndValidate seq = Invalid (MissingTag t'))
  ∧ (∀ seq t v e,
       (∀ t', t' ∈ [1; 2; 3; 4; 5]%N → is_Some (find_tag t' seq)) →
       t ∈ [1; 2; 3; 4; 5]%N → find_tag t seq = Some v →
       decode_error t v = Some e →
       ∃ t' v' e', (t' ≤ t)%N ∧ find_tag t' seq = Some v'
                   ∧ decode_error t' v' = Some e'
                   ∧ mapAndValidate seq = Invalid e')
  ∧ (∀ seq inv,
       mapAndValidate seq = Valid inv →
       ∃ v1 v2 v3 v4 v5,
         find_tag 1 seq = Some v1 ∧ find_tag 2 seq = Some v2
         ∧ find_tag 3 seq = Some v3 ∧ find_tag 4 seq = Some v4
         ∧ find_tag 5 seq = Some v5
         ∧ decode_sellerName v1 = Ok (ParsedInvoice.sellerName inv)
         ∧ decode_text 2 v2 = Ok (ParsedInvoice.vatNumber inv)
         ∧ decode_text 3 v3 = Ok (ParsedInvoice.timestamp inv)
         ∧ decode_amount 4 v4 = Ok (ParsedInvoice.invoiceTotal inv)
         ∧ decode_amount 5 v5 = Ok (ParsedInvoice.vatTotal inv)).
Proof.
  split; [|split; [|split]].
  - intros seq Honly Hall. apply mapAndValidate_missing_4.
    + apply find_tag_Some, Hall. in_list.
    + apply find_tag_Some, Hall. in_list.
    + apply find_tag_Some, Hall. in_list.
    + apply find_tag_None. intros r Hr Ht. specialize (Honly r Hr).
      rewrite Ht in Honly.
      do 3 (apply elem_of_cons in Honly as [?|Honly]; [done|]).
      by apply elem_of_nil in Honly.
  - intros seq t Ht Hnone. unfold mapAndValidate.
    rewrite structural_unfold.
    destruct (find_tag 1 seq) eqn:H1;
      [|exists 1%N; refine (conj _ (conj _ (conj _ _))); [tag_cases Ht; lia|in_list|done|done]].
    destruct (find_tag 2 seq) eqn:H2;
      [|exists 2%N; refine (conj _ (conj _ (conj _ _))); [tag_cases Ht; (lia || congruence)|in_list|done|done]].
    destruct (find_tag 3 seq) eqn:H3;
      [|exists 3%N; refine (conj _ (conj _ (conj _ _))); [tag_cases Ht; (lia || congruence)|in_list|done|done]].
    destruct (find_tag 4 seq) eqn:H4;
      [|exists 4%N; refine (conj _ (conj _ (conj _ _))); [tag_cases Ht; (lia || congruence)|in_list|done|done]].
    destruct (find_tag 5 seq) eqn:H5;
      [|exists 5%N; refine (conj _ (conj _ (conj _ _))); [tag_cases Ht; (lia || congruence)|in_list|done|done]].
    tag_cases Ht; congruence.
  - intros seq t v e Hall Ht Hv He. unfold mapAndValidate.
    rewrite structural_unfold.
    destruct (Hall 1%N) as [v1 H1]; [in_list|].
    destruct (Hall 2%N) as [v2 H2]; [in_list|].
    destruct (Hall 3%N) as [v3 H3]; [in_list|].
    destruct (Hall 4%N) as [v4 H4]; [in_list|].
    destruct (Hall 5%N) as [v5 H5]; [in_list|].
    rewrite H1, H2, H3, H4, H5.
    destruct (decode_sellerName v1) as [x1|e1] eqn:D1.
    2:{ exists 1%N, v1, e1. refine (conj _ (conj _ (conj _ _)));
          [tag_cases Ht; lia|done|simpl; by rewrite D1|done]. }
    destruct (decode_text 2 v2) as [x2|e2] eqn:D2.
    2:{ exists 2%N, v2, e2. refine (conj _ (conj _ (conj _ _)));
          [|done|simpl; by rewrite D2|done].
        tag_cases Ht; try lia; earlier_ok Hv He. }
    destruct (decode_text 3 v3) as [x3|e3] eqn:D3.
    2:{ exists 3%N, v3, e3. refine (conj _ (conj _ (conj _ _)));
          [|done|simpl; by rewrite D3|done].
        tag_cases Ht; try lia; earlier_ok Hv He. }
    destruct (decode_amount 4 v4) as [x4|e4] eqn:D4.
    2:{ exists 4%N, v4, e4. refine (conj _ (conj _ (conj _ _)));
          [|done|simpl; by rewrite D4|done].
        tag_cases Ht; try lia; earlier_ok Hv He. }
    destruct (decode_amount 5 v5) as [x5|e5] eqn:D5.
    2:{ exists 5%N, v5, e5. refine (conj _ (conj _ (conj _ _)));
          [|done|simpl; by rewrite D5|done].
        tag_cases Ht; try lia; earlier_ok Hv He. }
    tag_cases Ht; earlier_ok Hv He.
  - intros seq inv. unfold mapAndValidate. rewrite structural_unfold.
    destruct (find_tag 1 seq) as [v1|]; [|done].
    destruct (find_tag 2 seq) as [v2|]; [|done].
    destruct (find_tag 3 seq) as [v3|]; [|done].
    destruct (find_tag 4 seq) as [v4|]; [|done].
    destruct (find_tag 5 seq) as [v5|]; [|done].
    destruct (decode_sellerName v1) as [x1|] eqn:D1; [|done].
    destruct (decode_text 2 v2) as [x2|] eqn:D2; [|done].
    destruct (decode_text 3 v3) as [x3|] eqn:D3; [|done].
    destruct (decode_amount 4 v4) as [x4|] eqn:D4; [|done].
    destruct (decode_amount 5 v5) as [x5|] eqn:D5; [|done].
    intros [= <-]. exists v1, v2, v3, v4, v5. simpl.
    by rewrite D1, D2, D3, D4, D5.
Qed.

Lemma mapAndValidate_rejects_witness :
  mapAndValidate three_tag_records = Invalid (MissingTag 4).
Proof.
  apply (proj1 mapAndValidate_rejects three_tag_records).
  - intros r Hr. unfold three_tag_records in Hr.
    repeat (apply elem_of_cons in Hr as [->|Hr]); [in_list..|].
    by apply elem_of_nil in Hr.
  - intros t Ht. unfold three_tag_records.
    apply elem_of_cons in Ht as [->|Ht];
      [exists (text_record 1 "Acme Corp"); split; [in_list|reflexivity]|].
    apply elem_of_cons in Ht as [->|Ht];
      [exists (text_record 2 "300000000000003"); split; [in_list|reflexivity]|].
    apply elem_of_cons in Ht as [->|Ht];
      [exists (text_record 3 "2023-01-05T13:00:00"); split;
         [in_list|reflexivity]|].
    by apply elem_of_nil in Ht.
Defined.

(** ** Decimal arithmetic *)

Lemma pow10_pos (n : nat) : 0 < 10 ^ Z.of_nat n.
Proof. apply Z.pow_pos_nonneg; lia. Qed.

Lemma pow10_split (s k : nat) :
  (k ≤ s)%nat → 10 ^ Z.of_nat k * 10 ^ Z.of_nat (s - k) = 10 ^ Z.of_nat s.
Proof.
  intros Hk. rewrite <- Z.pow_add_r by lia. f_equal. lia.
Qed.

(** The difference is negative exactly when the first value is the
    smaller one. *)
Lemma dec_sub_negative (a b : Decimal) :
  dec_ltb a b = true ↔ coef (dec_sub a b) < 0.
Proof.
  unfold dec_ltb, dec_sub. cbn [coef scale].
  set (s := Nat.max (scale a) (scale b)).
  pose proof (pow10_split s (scale a) ltac:(lia)) as Ha.
  pose proof (pow10_split s (scale b) ltac:(lia)) as Hb.
  pose proof (pow10_pos (scale a)) as Pa.
  pose proof (pow10_pos (scale b)) as Pb.
  pose proof (pow10_pos (s - scale a)) as Xa.
  pose proof (pow10_pos (s - scale b)) as Xb.
  pose proof (pow10_pos s) as Ps.
  revert Ha Hb Pa Pb Xa Xb Ps.
  generalize (10 ^ Z.of_nat s) (10 ^ Z.of_nat (scale a))
    (10 ^ Z.of_nat (scale b)) (10 ^ Z.of_nat (s - scale a))
    (10 ^ Z.of_nat (s - scale b)).
  intros T P Q X Y Ha Hb Pa Pb Xa Xb Ps. rewrite Z.ltb_lt.
  (* a*Q < b*P  <->  a*X < b*Y, since P*X = Q*Y = T > 0 *)
  assert (HaT : coef a * X * T = coef a * Q * (X * Y)) by (rewrite <- Hb; ring).
  assert (HbT : coef b * Y * T = coef b * P * (X * Y)) by (rewrite <- Ha; ring).
  assert (HXY : 0 < X * Y) by nia.
  split; intros H.
  - assert (coef a * X * T < coef b * Y * T); [|nia].
    rewrite HaT, HbT. by apply Z.mul_lt_mono_pos_r.
  - assert (coef a * X * T < coef b * Y * T) as H' by nia.
    rewrite HaT, HbT in H'. by apply Z.mul_lt_mono_pos_r in H'.
Qed.

(** ** Semantic checks *)

(** C4.  The semantic checks never turn a structurally valid sequence into
    [Invalid]: the outcome is [Valid] with the decoded fields, the subtotal
    [invoiceTotal - vatTotal], and warnings only.  [InconsistentAmounts] is
    among them exactly when [vatTotal > invoiceTotal], and then the subtotal
    is negative; [SuspiciousVatNumber] exactly when the VAT number is not 15
    digits.  With tag 4 = ["10.00"] and tag 5 = ["15.00"] the outcome is
    [Valid] with subtotal [-5.00] and the [InconsistentAmounts] warning. *)
Theorem semantic_checks_only_warn (seq : list TlvRecord) (c : CoreFields) :
  structural seq = Ok c →
  ∃ inv,
    mapAndValidate seq = Valid inv
    ∧ ParsedInvoice.sellerName inv = cf_sellerName c
    ∧ ParsedInvoice.vatNumber inv = cf_vatNumber c
    ∧ ParsedInvoice.timestamp inv = cf_timestamp c
    ∧ ParsedInvoice.invoiceTotal inv = cf_invoiceTotal c
    ∧ ParsedInvoice.vatTotal inv = cf_vatTotal c
    ∧ ParsedInvoice.subtotal inv
      = dec_sub (cf_invoiceTotal c) (cf_vatTotal c)
    ∧ (InconsistentAmounts ∈ ParsedInvoice.warnings inv
       ↔ dec_ltb (cf_invoiceTotal c) (cf_vatTotal c) = true)
    ∧ (dec_ltb (cf_invoiceTotal c) (cf_vatTotal c) = true
       → coef (ParsedInvoice.subtotal inv) < 0)
    ∧ (SuspiciousVatNumber ∈ ParsedInvoice.warnings inv
       ↔ is_vat_number (cf_vatNumber c) = false)
    ∧ (mapAndValidate inconsistent_records
       = Valid (build_invoice
                  (mkCoreFields "Acme Corp" "300000000000003"
                     "2023-01-05T13:00:00" (mkDecimal 1000 2)
                     (mkDecimal 1500 2)) ∅)
       ∧ ParsedInvoice.subtotal
           (build_invoice
              (mkCoreFields "Acme Corp" "300000000000003"
                 "2023-01-05T13:00:00" (mkDecimal 1000 2)
                 (mkDecimal 1500 2)) ∅) = mkDecimal (-500) 2
       ∧ ParsedInvoice.warnings
           (build_invoice
              (mkCoreFields "Acme Corp" "300000000000003"
                 "2023-01-05T13:00:00" (mkDecimal 1000 2)
                 (mkDecimal 1500 2)) ∅) = [InconsistentAmounts]
       ∧ render_decimal (mkDecimal (-500) 2) = "-5.00").
Proof.
  intros Hs. exists (build_invoice c (extended_tags seq)).
  unfold mapAndValidate. rewrite Hs.
  do 7 (split; [reflexivity|]).
  cbn [build_invoice ParsedInvoice.warnings ParsedInvoice.subtotal].
  unfold semantic_warnings.
  split; [|split; [|split]].
  - destruct (is_vat_number _), (dec_ltb _ _); simpl; split; intros H;
      try done; try in_list;
      repeat (apply elem_of_cons in H as [H|H]; [done|]);
      by apply elem_of_nil in H.
  - apply dec_sub_negative.
  - destruct (is_vat_number _), (dec_ltb _ _); simpl; split; intros H;
      try done; try in_list;
      repeat (apply elem_of_cons in H as [H|H]; [done|]);
      by apply elem_of_nil in H.
  - split; [vm_compute; reflexivity|].
    split; [vm_compute; reflexivity|].
    split; vm_compute; reflexivity.
Qed.

Lemma semantic_checks_only_warn_witness :
  ∃ inv, mapAndValidate inconsistent_records = Valid inv
         ∧ coef (ParsedInvoice.subtotal inv) < 0.
Proof.
  destruct (semantic_checks_only_warn inconsistent_records
              (mkCoreFields "Acme Corp" "300000000000003"
                 "2023-01-05T13:00:00" (mkDecimal 1000 2) (mkDecimal 1500 2)))
    as (inv & Hv & _ & _ & _ & _ & _ & _ & _ & Hneg & _).
  - vm_compute. reflexivity.
  - exists inv. split; [exact Hv|]. apply Hneg. vm_compute. reflexivity.
Defined.

(** ** Base64 *)

Section Base64.
Local Open Scope nat_scope.

Lemma list_ind3 {A} (P : list A → Prop) :
  P [] → (∀ x, P [x]) → (∀ x y, P [x; y]) →
  (∀ x y z l, P l → P (x :: y :: z :: l)) →
  ∀ l, P l.
Proof.
  intros H0 H1 H2 H3 l.
  enough (P l ∧ (∀ x, P (x :: l)) ∧ (∀ x y, P (x :: y :: l))) by tauto.
  induction l as [|a l IH]; [by auto|].
  destruct IH as (IH0 & IH1 & IH2).
  split; [apply IH1|]. split; [intros x; apply IH2|].
  intros x y. by apply H3.
Qed.

(** The alphabet: each 6-bit value has a character of its own, which is
    neither the padding character nor white space. *)
Lemma b64_char_props v :
  v < 64 →
  b64_value (b64_char v) = Some v
  ∧ Byte.eqb (b64_char v) "="%byte = false
  ∧ is_space (b64_char v) = false.
Proof.
  intros Hv. do 64 (destruct v as [|v]; [by vm_compute|]). lia.
Qed.

Lemma b64_value_char v : v < 64 → b64_value (b64_char v) = Some v.
Proof. intros Hv. by apply b64_char_props. Qed.

Lemma b64_char_not_pad v : v < 64 → Byte.eqb (b64_char v) "="%byte = false.
Proof. intros Hv. by apply b64_char_props. Qed.

Lemma b64_char_not_space v : v < 64 → is_space (b64_char v) = false.
Proof. intros Hv. by apply b64_char_props. Qed.

Lemma byte_of_nat_eq n b : n = Byte.to_nat b → byte_of_nat n = b.
Proof. intros ->. apply byte_of_to_nat. Qed.

Lemma b64_group_three last x y z :
  let n := Byte.to_nat x in
  let m := Byte.to_nat y in
  let k := Byte.to_nat z in
  b64_group last (b64_char (n / 4)) (b64_char (n mod 4 * 16 + m / 16))
    (b64_char (m mod 16 * 4 + k / 64)) (b64_char (k mod 64))
  = Some [x; y; z].
Proof.
  intros n m k.
  pose proof (Byte.to_nat_bounded x). pose proof (Byte.to_nat_bounded y).
  pose proof (Byte.to_nat_bounded z).
  unfold b64_group.
  rewrite !b64_value_char by (unfold n, m, k; lia). cbn [mbind option_bind].
  rewrite (b64_char_not_pad (k mod 64)) by (unfold k; lia).
  rewrite andb_false_r.
  cbv zeta.
  rewrite (byte_of_nat_eq _ x) by (unfold n, m, k; lia).
  rewrite (byte_of_nat_eq _ y) by (unfold n, m, k; lia).
  rewrite (byte_of_nat_eq _ z) by (unfold n, m, k; lia).
  done.
Qed.

Lemma b64_group_two x y :
  let n := Byte.to_nat x in
  let m := Byte.to_nat y in
  b64_group true (b64_char (n / 4)) (b64_char (n mod 4 * 16 + m / 16))
    (b64_char (m mod 16 * 4)) "="%byte
  = Some [x; y].
Proof.
  intros n m.
  pose proof (Byte.to_nat_bounded x). pose proof (Byte.to_nat_bounded y).
  unfold b64_group.
  rewrite !b64_value_char by (unfold n, m; lia). cbn [mbind option_bind].
  rewrite (b64_char_not_pad (m mod 16 * 4)) by (unfold m; lia).
  cbn [andb Byte.eqb].
  assert (Byte.eqb "=" "=" = true) as -> by done.
  cbn [mbind option_bind]. cbv zeta.
  rewrite (byte_of_nat_eq _ x) by (unfold n, m; lia).
  rewrite (byte_of_nat_eq _ y) by (unfold n, m; lia).
  done.
Qed.

Lemma b64_group_one x :
  let n := Byte.to_nat x in
  b64_group true (b64_char (n / 4)) (b64_char (n mod 4 * 16))
    "="%byte "="%byte
  = Some [x].
Proof.
  intros n. pose proof (Byte.to_nat_bounded x).
  unfold b64_group.
  rewrite !b64_value_char by (unfold n; lia). cbn [mbind option_bind].
  assert (Byte.eqb "=" "=" = true) as -> by done. cbn [andb].
  cbv zeta. rewrite (byte_of_nat_eq _ x) by (unfold n; lia). done.
Qed.

Lemma b64_decode_chars_group a b c d rest :
  b64_decode_chars (a :: b :: c :: d :: rest) =
  match rest with
  | [] => b64_group true a b c d
  | _ =>
      g ← b64_group false a b c d;
      r ← b64_decode_chars rest;
      Some (g ++ r)
  end.
Proof. done. Qed.

(** Decoding inverts encoding. *)
Lemma b64_decode_encode bs :
  b64_decode_chars (b64_encode_bytes bs) = Some bs.
Proof.
  induction bs as [|x|x y|x y z l IH] using list_ind3.
  - done.
  - apply b64_group_one.
  - apply b64_group_two.
  - cbn [b64_encode_bytes]. rewrite b64_decode_chars_group.
    destruct (b64_encode_bytes l) as [|c cs] eqn:Hl.
    + simpl in IH. injection IH as <-. apply b64_group_three.
    + rewrite b64_group_three, IH. done.
Qed.

Lemma b64_encode_no_space bs :
  Forall (λ c, is_space c = false) (b64_encode_bytes bs).
Proof.
  induction bs as [|x|x y|x y z l IH] using list_ind3;
    cbn [b64_encode_bytes];
    repeat match goal with
           | x : byte |- _ =>
               lazymatch goal with
               | H : Byte.to_nat x ≤ 255 |- _ => fail
               | _ => pose proof (Byte.to_nat_bounded x)
               end
           end;
    repeat (constructor; [first [by vm_compute | apply b64_char_not_space; lia]|]);
    done.
Qed.

Lemma b64_encode_length bs :
  3 * length (b64_encode_bytes bs) ≤ 4 * length bs + 8.
Proof.
  induction bs as [|x|x y|x y z l IH] using list_ind3;
    cbn [b64_encode_bytes length] in *; lia.
Qed.

Lemma b64_encode_nonempty bs : bs ≠ [] → b64_encode_bytes bs ≠ [].
Proof. by destruct bs as [|x [|y [|z l]]]. Qed.

Lemma trim_start_id cs :
  Forall (λ c, is_space c = false) cs → trim_start cs = cs.
Proof. destruct 1 as [|c cs Hc _]; [done|]. simpl. by rewrite Hc. Qed.

Lemma trim_id cs : Forall (λ c, is_space c = false) cs → trim cs = cs.
Proof.
  intros H. unfold trim. rewrite (trim_start_id cs H).
  rewrite trim_start_id by (by apply Forall_reverse).
  apply reverse_involutive.
Qed.

Lemma length_string_of_list_byte l :
  String.length (string_of_list_byte l) = length l.
Proof.
  unfold string_of_list_byte.
  induction l as [|b l IH]; simpl; [done|by f_equal].
Qed.

(** The Base64 Decoder inverts the encoder on every non-empty buffer whose
    text fits the size cap. *)
Lemma base64Decode_encode bs :
  bs ≠ [] → 4 * length bs + 8 ≤ 3 * MAX_PAYLOAD_CHARS →
  base64Decode (base64Encode bs) = Ok bs.
Proof.
  intros Hne Hlen. unfold base64Decode, base64Encode.
  rewrite length_string_of_list_byte.
  pose proof (b64_encode_length bs) as Hl.
  destruct (Nat.ltb_spec MAX_PAYLOAD_CHARS (length (b64_encode_bytes bs)));
    [lia|].
  rewrite list_byte_of_string_of_list_byte.
  rewrite trim_id by apply b64_encode_no_space.
  rewrite b64_decode_encode. by destruct bs.
Qed.
End Base64.

(** ** Decimal text *)

Section DecimalText.
Local Open Scope nat_scope.

Lemma append_cons c s t : String c s +:+ t = String c (s +:+ t).
Proof. reflexivity. Qed.

Lemma append_nil s : "" +:+ s = s.
Proof. reflexivity. Qed.

Lemma chars_app a b :
  list_ascii_of_string (a +:+ b)
  = list_ascii_of_string a ++ list_ascii_of_string b.
Proof.
  induction a as [|c a IH]; [done|].
  rewrite append_cons. simpl. by rewrite IH.
Qed.

Lemma length_chars s : length (list_ascii_of_string s) = String.length s.
Proof. induction s as [|c s IH]; simpl; [done|by rewrite IH]. Qed.

Lemma str_app l1 l2 :
  string_of_list_ascii (l1 ++ l2)
  = string_of_list_ascii l1 +:+ string_of_list_ascii l2.
Proof.
  induction l1 as [|c l1 IH]; [done|].
  simpl. by rewrite append_cons, IH.
Qed.

Lemma length_str l : String.length (string_of_list_ascii l) = length l.
Proof. induction l as [|c l IH]; simpl; [done|by rewrite IH]. Qed.

Lemma append_empty_r s : s +:+ "" = s.
Proof.
  induction s as [|c s IH]; [done|]. by rewrite append_cons, IH.
Qed.

Lemma length_append a b :
  String.length (a +:+ b) = String.length a + String.length b.
Proof.
  induction a as [|c a IH]; [done|].
  rewrite append_cons. simpl. by rewrite IH.
Qed.

Lemma digit_string_cons c s :
  digit_string (String c s) ↔ is_digit c = true ∧ digit_string s.
Proof.
  unfold digit_string. simpl.
  apply (Forall_cons (λ c, is_digit c = true)).
Qed.

Lemma digit_string_app a b :
  digit_string (a +:+ b) ↔ digit_string a ∧ digit_string b.
Proof.
  unfold digit_string. rewrite chars_app.
  apply (Forall_app (λ c, is_digit c = true)).
Qed.

Lemma uint_of_char_digit c u :
  is_digit c = true →
  ∃ u', uint_of_char c (Some u) = Some u'
        ∧ Decimal.nb_digits u' = S (Decimal.nb_digits u).
Proof.
  destruct c as [[|] [|] [|] [|] [|] [|] [|] [|]]; intros Hc;
    try discriminate Hc; eexists; split; reflexivity.
Qed.

Lemma uint_of_char_not_digit c o :
  is_digit c = false → uint_of_char c o = None.
Proof.
  destruct o as [u|]; [|done].
  destruct c as [[|] [|] [|] [|] [|] [|] [|] [|]]; intros Hc;
    try discriminate Hc; reflexivity.
Qed.

Lemma uint_of_digit_string s :
  digit_string s →
  ∃ u, NilEmpty.uint_of_string s = Some u
       ∧ Decimal.nb_digits u = String.length s.
Proof.
  induction s as [|c s IH]; intros Hs.
  - by exists Decimal.Nil.
  - apply digit_string_cons in Hs as [Hc Hs].
    destruct (IH Hs) as (u & Hu & Hn). simpl. rewrite Hu.
    destruct (uint_of_char_digit c u Hc) as (u' & Hu' & Hn').
    exists u'. split; [done|]. by rewrite Hn', Hn.
Qed.

Lemma length_string_of_uint u :
  String.length (NilEmpty.string_of_uint u) = Decimal.nb_digits u.
Proof. induction u; simpl; by f_equal. Qed.

Lemma digit_string_of_uint u : digit_string (NilEmpty.string_of_uint u).
Proof.
  induction u; simpl; [by constructor|..];
    (apply digit_string_cons; split; [reflexivity|assumption]).
Qed.

Lemma span_digits_app ds r :
  digit_string ds → no_digit_ahead r → span_digits (ds +:+ r) = (ds, r).
Proof.
  intros Hds Hr. induction ds as [|c ds IH]; simpl.
  - destruct r as [|c r]; simpl in *; [done|by rewrite Hr].
  - apply digit_string_cons in Hds as [-> Hds]. by rewrite IH.
Qed.

Lemma span_digits_spec s ip r :
  span_digits s = (ip, r) →
  s = ip +:+ r ∧ digit_string ip ∧ no_digit_ahead r.
Proof.
  revert ip r. induction s as [|c s IH]; simpl; intros ip r Hsp.
  - injection Hsp as <- <-. split; [done|]. split; [constructor|done].
  - destruct (is_digit c) eqn:Hc.
    + destruct (span_digits s) as [ds rest].
      injection Hsp as <- <-. destruct (IH ds rest eq_refl) as (-> & Hd & Hr).
      split; [done|]. split; [|done]. by apply digit_string_cons.
    + injection Hsp as <- <-. split; [done|]. split; [constructor|done].
Qed.

Lemma digits_value_zeros k s :
  digits_value (string_of_list_ascii (replicate k "0"%char) +:+ s)
  = digits_value s.
Proof.
  induction k as [|k IH]; [done|].
  rewrite <- IH. unfold digits_value. simpl.
  by destruct (NilEmpty.uint_of_string _).
Qed.

Lemma digits_value_string_of_Z n :
  (0 ≤ n)%Z → digits_value (string_of_Z n) = n.
Proof.
  intros Hn. unfold digits_value, string_of_Z.
  rewrite NilEmpty.usu, Unsigned.of_to. lia.
Qed.

Lemma digits_value_nonneg s : (0 ≤ digits_value s)%Z.
Proof. unfold digits_value. destruct (NilEmpty.uint_of_string s); lia. Qed.

Lemma string_of_Z_digits n : digit_string (string_of_Z n).
Proof. apply digit_string_of_uint. Qed.

Lemma nb_digits_to_uint_pos n : 0 < Decimal.nb_digits (N.to_uint n).
Proof.
  destruct (Decimal.nb_digits (N.to_uint n)) eqn:Hn; [|lia].
  assert (N.to_uint n = Decimal.Nil) as Hnil by (by destruct (N.to_uint n)).
  pose proof (Unsigned.to_of (N.to_uint n)) as Hu.
  rewrite Unsigned.of_to, Hnil in Hu. simpl in Hu.
  rewrite Hnil in Hn. rewrite Hu in Hnil. discriminate.
Qed.

Lemma length_string_of_Z_pos n : 0 < String.length (string_of_Z n).
Proof.
  unfold string_of_Z. rewrite length_string_of_uint.
  apply nb_digits_to_uint_pos.
Qed.

(** The digits of a parsed value are no more than the digits read. *)
Lemma length_string_of_Z_value s :
  digit_string s → s ≠ "" →
  String.length (string_of_Z (digits_value s)) ≤ String.length s.
Proof.
  intros Hs Hne. destruct (uint_of_digit_string s Hs) as (u & Hu & Hn).
  unfold digits_value, string_of_Z. rewrite Hu, N2Z.id, Unsigned.to_of.
  rewrite length_string_of_uint, <- Hn. apply nb_digits_unorm.
  intros ->. simpl in Hn. by destruct s.
Qed.

Lemma length_pad_zeros len s :
  String.length (pad_zeros len s) = Nat.max len (String.length s).
Proof.
  unfold pad_zeros. rewrite length_append, length_str, length_replicate. lia.
Qed.

Lemma digit_string_pad_zeros len s :
  digit_string s → digit_string (pad_zeros len s).
Proof.
  intros Hs. unfold pad_zeros. apply digit_string_app. split; [|done].
  unfold digit_string. rewrite list_ascii_of_string_of_list_ascii.
  apply Forall_replicate. reflexivity.
Qed.

Lemma length_with_fraction f n :
  String.length (with_fraction f n)
  = S (Nat.max (S f) (String.length (string_of_Z n))).
Proof.
  unfold with_fraction. cbv zeta. rewrite length_str, length_app.
  cbn [length]. rewrite length_take, length_drop, !length_chars.
  rewrite length_pad_zeros. lia.
Qed.

Lemma string_eqb_empty s : String.eqb s "" = false ↔ s ≠ "".
Proof. apply String.eqb_neq. Qed.

(** Parsing inverts rendering on non-negative values. *)
Lemma parse_render_decimal d :
  (0 ≤ coef d)%Z → parse_decimal_text (render_decimal d) = Some d.
Proof.
  destruct d as [n f]. cbn [coef scale]. intros Hn.
  unfold render_decimal. cbn [coef scale].
  destruct (Z.ltb_spec n 0) as [|_]; [lia|]. rewrite Z.abs_eq by done.
  change ("" +:+ ?s) with s. unfold parse_decimal_text.
  destruct f as [|f].
  - rewrite <- (append_empty_r (string_of_Z n)) at 1.
    rewrite span_digits_app by (apply string_of_Z_digits || done).
    destruct (String.eqb (string_of_Z n) "") eqn:He.
    { apply String.eqb_eq in He. pose proof (length_string_of_Z_pos n).
      rewrite He in *. simpl in *. lia. }
    by rewrite digits_value_string_of_Z.
  - unfold with_fraction. cbv zeta.
    set (m := list_ascii_of_string (pad_zeros (S (S f)) (string_of_Z n))).
    assert (Hm : Forall (λ c, is_digit c = true) m).
    { apply digit_string_pad_zeros, string_of_Z_digits. }
    assert (Hlen : S (S f) ≤ length m).
    { unfold m. rewrite length_chars, length_pad_zeros. lia. }
    set (k := length m - S f).
    replace (length m - S f) with k by done.
    assert (Hip : digit_string (string_of_list_ascii (take k m))).
    { unfold digit_string. rewrite list_ascii_of_string_of_list_ascii.
      by apply Forall_take. }
    assert (Hfp : digit_string (string_of_list_ascii (drop k m))).
    { unfold digit_string. rewrite list_ascii_of_string_of_list_ascii.
      by apply Forall_drop. }
    rewrite str_app. cbn [string_of_list_ascii].
    rewrite span_digits_app by done.
    destruct (String.eqb (string_of_list_ascii (take k m)) "") eqn:He.
    { apply String.eqb_eq in He. apply (f_equal String.length) in He.
      rewrite length_str, length_take in He. simpl in He. lia. }
    rewrite <- (append_empty_r (string_of_list_ascii (drop k m))) at 1.
    rewrite span_digits_app by done.
    destruct (String.eqb (string_of_list_ascii (drop k m)) "") eqn:He'.
    { apply String.eqb_eq in He'. apply (f_equal String.length) in He'.
      rewrite length_str, length_drop in He'. simpl in He'. lia. }
    cbn [orb negb String.eqb]. f_equal. f_equal.
    + rewrite <- str_app, take_drop. unfold m.
      rewrite string_of_list_ascii_of_string. unfold pad_zeros.
      rewrite digits_value_zeros. by apply digits_value_string_of_Z.
    + rewrite length_str, length_drop. lia.
Qed.

(** A parsed value is non-negative and renders in no more characters
    than were read. *)
Lemma render_parsed_decimal s d :
  parse_decimal_text s = Some d →
  (0 ≤ coef d)%Z ∧ String.length (render_decimal d) ≤ String.length s.
Proof.
  unfold parse_decimal_text.
  destruct (span_digits s) as [ip r] eqn:Hsp.
  apply span_digits_spec in Hsp as (-> & Hip & Hr).
  destruct (String.eqb ip "") eqn:He; [done|].
  apply string_eqb_empty in He.
  destruct r as [|c f]; [|destruct (Ascii.eqb_spec c ".") as [->|Hc]].
  - intros [= <-]. cbn [coef scale]. split; [apply digits_value_nonneg|].
    unfold render_decimal. cbn [coef scale].
    destruct (Z.ltb_spec (digits_value ip) 0) as [Hneg|_];
      [pose proof (digits_value_nonneg ip); lia|].
    rewrite Z.abs_eq by apply digits_value_nonneg.
    change ("" +:+ ?s) with s. rewrite append_empty_r.
    by apply length_string_of_Z_value.
  - destruct (span_digits f) as [fp r'] eqn:Hsp'.
    apply span_digits_spec in Hsp' as (-> & Hfp & Hr').
    destruct (String.eqb fp "") eqn:He'; [done|].
    apply string_eqb_empty in He'.
    destruct (String.eqb r' "") eqn:He''; [|done].
    apply String.eqb_eq in He'' as ->. cbn [orb negb].
    intros [= <-]. cbn [coef scale]. split; [apply digits_value_nonneg|].
    unfold render_decimal. cbn [coef scale].
    destruct (Z.ltb_spec (digits_value (ip +:+ fp)) 0) as [Hneg|_];
      [pose proof (digits_value_nonneg (ip +:+ fp)); lia|].
    rewrite Z.abs_eq by apply digits_value_nonneg.
    change ("" +:+ ?s) with s.
    destruct (String.length fp) as [|f'] eqn:Hf; [by destruct fp|].
    rewrite length_with_fraction.
    assert (String.length (string_of_Z (digits_value (ip +:+ fp)))
            ≤ String.length (ip +:+ fp)) as Hl.
    { apply length_string_of_Z_value; [by apply digit_string_app|].
      by destruct ip. }
    rewrite !length_append in *. cbn [String.length].
    rewrite length_append, Hf in *. simpl.
    assert (0 < String.length ip) by (destruct ip; [done|simpl; lia]).
    lia.
  - intros H. exfalso. revert H.
    destruct c as [[|] [|] [|] [|] [|] [|] [|] [|]]; try done.
Qed.
End DecimalText.

(** ** The example scenarios of the specification *)

Example decode_acme_payload :
  base64Encode (serialize acme_records) = acme_payload
  ∧ decode acme_payload
    = Valid {| ParsedInvoice.sellerName := "Acme Corp";
               ParsedInvoice.vatNumber := "300000000000003";
               ParsedInvoice.timestamp := "2023-01-05T13:00:00";
               ParsedInvoice.invoiceTotal := mkDecimal 11500 2;
               ParsedInvoice.vatTotal := mkDecimal 1500 2;
               ParsedInvoice.subtotal := mkDecimal 10000 2;
               ParsedInvoice.extendedTags := ∅;
               ParsedInvoice.warnings := [] |}
  ∧ render_decimal (mkDecimal 10000 2) = "100.00".
Proof. repeat split; vm_compute; reflexivity. Qed.

Example decode_suspicious_vat :
  mapAndValidate
    [text_record 1 "Acme Corp"; text_record 2 "123";
     text_record 3 "2023-01-05T13:00:00"; text_record 4 "115.00";
     text_record 5 "15.00"]
  = Valid (build_invoice
             (mkCoreFields "Acme Corp" "123" "2023-01-05T13:00:00"
                (mkDecimal 11500 2) (mkDecimal 1500 2)) ∅)
  ∧ semantic_warnings
      (mkCoreFields "Acme Corp" "123" "2023-01-05T13:00:00"
         (mkDecimal 11500 2) (mkDecimal 1500 2)) = [SuspiciousVatNumber].
Proof. split; vm_compute; reflexivity. Qed.

(** ** Round trip *)

Section RoundTrip.
Local Open Scope nat_scope.

Lemma length_list_byte_of_string s :
  length (list_byte_of_string s) = String.length s.
Proof.
  rewrite <- (string_of_list_byte_of_string s) at 2.
  by rewrite length_string_of_list_byte.
Qed.

Lemma find_tag_elem t seq v :
  find_tag t seq = Some v → ∃ r, r ∈ seq ∧ tag r = t ∧ value r = v.
Proof.
  induction seq as [|r seq IH]; simpl; [done|].
  destruct (N.eqb_spec (tag r) t) as [Heq|Hne].
  - intros [= <-]. exists r. split; [left|done].
  - intros Hf. destruct (IH Hf) as (r' & Hr' & Ht & Hv).
    exists r'. split; [by right|done].
Qed.

Lemma tokenize_record_wf buffer seq :
  tokenize buffer = Ok seq → Forall record_wf seq.
Proof.
  destruct buffer as [|b buffer]; [done|]. intros H.
  by apply tokenize_from_ok in H as [_ ?].
Qed.

Lemma decode_text_Ok t v s :
  decode_text t v = Ok s →
  utf8_valid v = true ∧ s = string_of_list_byte v.
Proof.
  unfold decode_text. destruct (utf8_valid v); [|done].
  by intros [= <-].
Qed.

Lemma decode_sellerName_Ok v s :
  decode_sellerName v = Ok s →
  utf8_valid v = true ∧ s = string_of_list_byte v ∧ s ≠ "".
Proof.
  unfold decode_sellerName. destruct (decode_text 1 v) as [s'|] eqn:Hd; [|done].
  apply decode_text_Ok in Hd as [Hu ->]. cbn [mbind result_bind].
  destruct (String.eqb_spec (string_of_list_byte v) ""); [done|].
  by intros [= <-].
Qed.

Lemma decode_amount_Ok t v d :
  decode_amount t v = Ok d → parse_decimal v = Some d.
Proof.
  unfold decode_amount. destruct (parse_decimal v); [|done].
  by intros [= <-].
Qed.

Lemma text_wf_decoded v :
  utf8_valid v = true → length v ≤ 255 → text_wf (string_of_list_byte v).
Proof.
  intros Hu Hl. split.
  - by rewrite list_byte_of_string_of_list_byte.
  - by rewrite length_string_of_list_byte.
Qed.

Lemma amount_wf_parsed v d :
  parse_decimal v = Some d → length v ≤ 255 → amount_wf d.
Proof.
  intros Hp Hl. apply render_parsed_decimal in Hp as [Hc Hr].
  rewrite length_string_of_list_byte in Hr. split; [done|lia].
Qed.

(** The fields of a structurally valid sequence of tokenized records are
    well formed. *)
Lemma structural_core_wf seq c :
  Forall record_wf seq → structural seq = Ok c → core_wf c.
Proof.
  intros Hwf. rewrite structural_unfold.
  destruct (find_tag 1 seq) as [v1|] eqn:H1; [|done].
  destruct (find_tag 2 seq) as [v2|] eqn:H2; [|done].
  destruct (find_tag 3 seq) as [v3|] eqn:H3; [|done].
  destruct (find_tag 4 seq) as [v4|] eqn:H4; [|done].
  destruct (find_tag 5 seq) as [v5|] eqn:H5; [|done].
  destruct (decode_sellerName v1) as [x1|] eqn:D1; [|done].
  destruct (decode_text 2 v2) as [x2|] eqn:D2; [|done].
  destruct (decode_text 3 v3) as [x3|] eqn:D3; [|done].
  destruct (decode_amount 4 v4) as [x4|] eqn:D4; [|done].
  destruct (decode_amount 5 v5) as [x5|] eqn:D5; [|done].
  intros [= <-]. unfold core_wf. cbn.
  assert (Hlen : ∀ t v, find_tag t seq = Some v → length v ≤ 255).
  { intros t v Hf. apply find_tag_elem in Hf as (r & Hr & _ & <-).
    rewrite Forall_forall in Hwf. by apply Hwf. }
  apply decode_sellerName_Ok in D1 as (U1 & -> & N1).
  apply decode_text_Ok in D2 as (U2 & ->).
  apply decode_text_Ok in D3 as (U3 & ->).
  apply decode_amount_Ok in D4. apply decode_amount_Ok in D5.
  split; [done|].
  split; [apply text_wf_decoded; eauto|].
  split; [apply text_wf_decoded; eauto|].
  split; [apply text_wf_decoded; eauto|].
  split; eapply amount_wf_parsed; eauto.
Qed.

Lemma decode_Valid input inv :
  decode input = Valid inv →
  ∃ buffer seq c,
    base64Decode input = Ok buffer ∧ tokenize buffer = Ok seq
    ∧ structural seq = Ok c ∧ inv = build_invoice c (extended_tags seq).
Proof.
  unfold decode, mapAndValidate.
  destruct (base64Decode input) as [buffer|] eqn:Hb; [|done].
  destruct (tokenize buffer) as [seq|] eqn:Ht; [|done].
  destruct (structural seq) as [c|] eqn:Hs; [|done].
  intros [= <-]. by exists buffer, seq, c.
Qed.

Lemma encode_record_Some t s :
  String.length s ≤ 255 →
  encode_record t (list_byte_of_string s)
  = Some (serialize_record (text_record t s)).
Proof.
  intros Hl. unfold encode_record. rewrite length_list_byte_of_string.
  by destruct (Nat.leb_spec (String.length s) 255); [|lia].
Qed.

Lemma decode_text_bytes t s :
  text_wf s → decode_text t (list_byte_of_string s) = Ok s.
Proof.
  intros [Hu _]. unfold decode_text.
  by rewrite Hu, string_of_list_byte_of_string.
Qed.

Lemma decode_amount_bytes t d :
  amount_wf d →
  decode_amount t (list_byte_of_string (render_decimal d)) = Ok d.
Proof.
  intros [Hc _]. unfold decode_amount, parse_decimal.
  by rewrite string_of_list_byte_of_string, parse_render_decimal.
Qed.

Lemma text_record_wf t s :
  (t < 256)%N → String.length s ≤ 255 → record_wf (text_record t s).
Proof.
  intros Ht Hs. split; [done|]. simpl. by rewrite length_list_byte_of_string.
Qed.

Lemma core_records_wf c : core_wf c → Forall record_wf (core_records c).
Proof.
  intros (_ & [_ H1] & [_ H2] & [_ H3] & [_ H4] & [_ H5]).
  repeat (constructor; [by apply text_record_wf|]). constructor.
Qed.

Lemma encodeInvoice_core c ext :
  core_wf c →
  encodeInvoice (build_invoice c ext)
  = Some (base64Encode (serialize (core_records c))).
Proof.
  intros (_ & [_ H1] & [_ H2] & [_ H3] & [_ H4] & [_ H5]).
  unfold encodeInvoice. cbn [build_invoice ParsedInvoice.sellerName
    ParsedInvoice.vatNumber ParsedInvoice.timestamp
    ParsedInvoice.invoiceTotal ParsedInvoice.vatTotal].
  rewrite !encode_record_Some by done. cbn [mbind option_bind].
  unfold core_records, serialize. cbn [fmap list_fmap concat].
  by rewrite app_nil_r.
Qed.

Lemma structural_core_records c :
  core_wf c → structural (core_records c) = Ok c.
Proof.
  intros (Hne & T1 & T2 & T3 & A4 & A5). rewrite structural_unfold.
  cbn [core_records find_tag text_record tag value N.eqb Pos.eqb].
  unfold decode_sellerName. rewrite !decode_text_bytes by done.
  cbn [mbind result_bind].
  destruct (String.eqb_spec (cf_sellerName c) ""); [done|].
  rewrite !decode_amount_bytes by done. by destruct c.
Qed.

(** Encoding the five core fields and decoding the text gives back the
    same fields. *)
Lemma round_trip_core c ext :
  core_wf c →
  ∃ payload,
    encodeInvoice (build_invoice c ext) = Some payload
    ∧ decode payload = Valid (build_invoice c ∅).
Proof.
  intros Hwf. exists (base64Encode (serialize (core_records c))).
  split; [by apply encodeInvoice_core|].
  pose proof (core_records_wf c Hwf) as Hrec.
  assert (Hlen : length (serialize (core_records c)) ≤ 5 * 257).
  { rewrite length_serialize. unfold core_records.
    cbn [fmap list_fmap sum_list sum_list_with value text_record].
    rewrite !length_list_byte_of_string.
    destruct Hwf as (_ & [_ L1] & [_ L2] & [_ L3] & [_ L4] & [_ L5]).
    unfold Datatypes.id. lia. }
  unfold decode. rewrite base64Decode_encode.
  - rewrite tokenize_nonempty by done.
    rewrite <- (app_nil_r (serialize _)), tokenize_from_app by done.
    rewrite tokenize_from_equation, app_nil_r.
    unfold mapAndValidate. by rewrite structural_core_records.
  - done.
  - unfold MAX_PAYLOAD_CHARS. lia.
Qed.
End RoundTrip.

(** C6.  Round trip: for the invoice of any successful decode, encoding its
    five core fields as TLV records in base64 succeeds, and decoding that
    text gives an invoice with the same seller name, VAT number and
    timestamp, and the same invoice total and VAT total (hence the same
    subtotal and warnings). *)
Theorem encode_decode_round_trip (input : string) (inv : ParsedInvoice.t) :
  decode input = Valid inv →
  ∃ payload inv',
    encodeInvoice inv = Some payload
    ∧ decode payload = Valid inv'
    ∧ ParsedInvoice.sellerName inv' = ParsedInvoice.sellerName inv
    ∧ ParsedInvoice.vatNumber inv' = ParsedInvoice.vatNumber inv
    ∧ ParsedInvoice.timestamp inv' = ParsedInvoice.timestamp inv
    ∧ ParsedInvoice.invoiceTotal inv' = ParsedInvoice.invoiceTotal inv
    ∧ ParsedInvoice.vatTotal inv' = ParsedInvoice.vatTotal inv
    ∧ dec_eqb (ParsedInvoice.invoiceTotal inv')
        (ParsedInvoice.invoiceTotal inv) = true
    ∧ dec_eqb (ParsedInvoice.vatTotal inv') (ParsedInvoice.vatTotal inv) = true
    ∧ ParsedInvoice.subtotal inv' = ParsedInvoice.subtotal inv
    ∧ ParsedInvoice.warnings inv' = ParsedInvoice.warnings inv.
Proof.
  intros Hd. apply decode_Valid in Hd as (buffer & seq & c & _ & Ht & Hs & ->).
  apply tokenize_record_wf in Ht.
  pose proof (structural_core_wf seq c Ht Hs) as Hwf.
  destruct (round_trip_core c (extended_tags seq) Hwf) as (payload & He & Hd).
  exists payload, (build_invoice c ∅).
  do 7 (split; [done|]).
  split; [apply Z.eqb_refl|]. split; [apply Z.eqb_refl|]. by split.
Qed.

Lemma encode_decode_round_trip_witness :
  ∃ payload inv',
    encodeInvoice (build_invoice
                     (mkCoreFields "Acme Corp" "300000000000003"
                        "2023-01-05T13:00:00" (mkDecimal 11500 2)
                        (mkDecimal 1500 2)) ∅) = Some payload
    ∧ decode payload = Valid inv'
    ∧ ParsedInvoice.invoiceTotal inv' = mkDecimal 11500 2.
Proof.
  destruct (encode_decode_round_trip acme_payload
              (build_invoice
                 (mkCoreFields "Acme Corp" "300000000000003"
                    "2023-01-05T13:00:00" (mkDecimal 11500 2)
                    (mkDecimal 1500 2)) ∅))
    as (payload & inv' & He & Hd & _ & _ & _ & Ht & _).
  - vm_compute. reflexivity.
  - exists payload, inv'. split; [exact He|]. split; [exact Hd|exact Ht].
Defined.

(** ** Amounts: decimal text read as binary64 *)

Section Amounts.
Local Open Scope nat_scope.

(** The text of a non-negative decimal: digits, and for a positive scale
    a point and [scale] more digits. *)
Lemma render_decimal_shape d :
  (0 ≤ coef d)%Z →
  ∃ ip fp,
    digit_string ip ∧ ip ≠ "" ∧ digit_string fp
    ∧ String.length fp = scale d
    ∧ digits_value (ip +:+ fp) = coef d
    ∧ render_decimal d
      = match scale d with O => ip | S _ => ip +:+ String "." fp end.
Proof.
  destruct d as [n f]. cbn [coef scale]. intros Hn.
  unfold render_decimal. cbn [coef scale].
  destruct (Z.ltb_spec n 0) as [|_]; [lia|]. rewrite Z.abs_eq by done.
  change ("" +:+ ?s) with s. destruct f as [|f].
  - exists (string_of_Z n), "". split; [apply string_of_Z_digits|].
    split.
    { intros He. pose proof (length_string_of_Z_pos n) as Hl.
      rewrite He in Hl. simpl in Hl. lia. }
    split; [constructor|]. split; [done|].
    rewrite append_empty_r. split; [|done].
    by apply digits_value_string_of_Z.
  - unfold with_fraction. cbv zeta.
    set (m := list_ascii_of_string (pad_zeros (S (S f)) (string_of_Z n))).
    assert (Hm : Forall (λ c, is_digit c = true) m).
    { apply digit_string_pad_zeros, string_of_Z_digits. }
    assert (Hlen : S (S f) ≤ length m).
    { unfold m. rewrite length_chars, length_pad_zeros. lia. }
    set (k := length m - S f).
    exists (string_of_list_ascii (take k m)),
           (string_of_list_ascii (drop k m)).
    split.
    { unfold digit_string. rewrite list_ascii_of_string_of_list_ascii.
      by apply Forall_take. }
    split.
    { intros He. apply (f_equal String.length) in He.
      rewrite length_str, length_take in He. simpl in He. lia. }
    split.
    { unfold digit_string. rewrite list_ascii_of_string_of_list_ascii.
      by apply Forall_drop. }
    split; [rewrite length_str, length_drop; lia|].
    split.
    + rewrite <- str_app, take_drop. unfold m.
      rewrite string_of_list_ascii_of_string. unfold pad_zeros.
      rewrite digits_value_zeros. by apply digits_value_string_of_Z.
    + by rewrite str_app.
Qed.

(** A digit opens no sign, no [Infinity] and no white space. *)
Lemma digit_head c r :
  is_digit c = true →
  skip_white_space (String c r) = String c r
  ∧ split_sign (String c r) = (false, String c r)
  ∧ String.prefix "Infinity" (String c r) = false.
Proof.
  destruct c as [[|] [|] [|] [|] [|] [|] [|] [|]]; intros Hc;
    try discriminate Hc; by repeat split.
Qed.

Lemma parseFloat_digits ip r :
  digit_string ip → ip ≠ "" →
  parseFloat (ip +:+ r) =
  let '(neg, s1) := (false, ip +:+ r) in
  let '(ip', s2) := span_digits s1 in
  let '(fp, s3) :=
    match s2 with
    | String "." r => span_digits r
    | _ => (EmptyString, s2)
    end in
  if String.eqb (ip' +:+ fp) "" then S754_nan
  else
    decimal_to_number neg (digits_value (ip' +:+ fp))
      (exponent_part s3 - Z.of_nat (String.length fp)).
Proof.
  intros Hip Hne. destruct ip as [|c ip]; [done|].
  apply digit_string_cons in Hip as [Hc _]. rewrite append_cons.
  unfold parseFloat.
  destruct (digit_head c (ip +:+ r) Hc) as (-> & -> & ->). done.
Qed.

(** [parseFloat] of a decimal literal is the binary64 number nearest to its
    value. *)
Lemma parseFloat_decimal_text ip fp :
  digit_string ip → ip ≠ "" → digit_string fp →
  parseFloat (decimal_text ip fp)
  = decimal_to_number false (digits_value (ip +:+ fp))
      (- Z.of_nat (String.length fp)).
Proof.
  intros Hip Hne Hfp.
  assert (Hnz : ∀ s, String.eqb (ip +:+ s) "" = false).
  { intros s. apply String.eqb_neq. destruct ip; [done|].
    by rewrite append_cons. }
  destruct fp as [|c fp]; unfold decimal_text.
  - rewrite <- (append_empty_r ip) at 1. rewrite parseFloat_digits by done.
    cbv zeta. rewrite span_digits_app by done. by rewrite Hnz.
  - rewrite parseFloat_digits by done. cbv zeta.
    rewrite span_digits_app by done.
    rewrite <- (append_empty_r (String c fp)) at 1.
    rewrite span_digits_app by done.
    rewrite Hnz. cbn [exponent_part]. f_equal.
Qed.

Lemma decimal_text_nonempty ip fp : ip ≠ "" → decimal_text ip fp ≠ "".
Proof.
  intros Hne. destruct ip; [done|]. destruct fp; [done|].
  unfold decimal_text. by rewrite append_cons.
Qed.

(** [parseFloat] of the text of a non-negative decimal is the binary64
    number nearest to its value. *)
Lemma parseFloat_render_decimal d :
  (0 ≤ coef d)%Z →
  parseFloat (render_decimal d)
  = decimal_to_number false (coef d) (- Z.of_nat (scale d)).
Proof.
  intros Hd.
  destruct (render_decimal_shape d Hd)
    as (ip & fp & Hip & Hne & Hfp & Hlen & Hval & ->).
  assert (Hnz : ∀ s, String.eqb (ip +:+ s) "" = false).
  { intros s. apply String.eqb_neq. destruct ip; [done|].
    by rewrite append_cons. }
  destruct (scale d) as [|f] eqn:Hs.
  - rewrite <- (append_empty_r ip) at 1. rewrite parseFloat_digits by done.
    cbv zeta. rewrite span_digits_app by done.
    destruct fp; [|done]. rewrite Hnz, Hval. done.
  - rewrite parseFloat_digits by done. cbv zeta.
    rewrite span_digits_app by done.
    rewrite <- (append_empty_r fp) at 1.
    rewrite span_digits_app by done.
    rewrite Hnz, Hval, Hlen. cbn [exponent_part]. f_equal.
Qed.

Lemma map_get_fresh {V} (m : jsmap V) k v :
  (∀ k', k' ∈ m.*1 → k' ≠ k) → map_get k (m ++ [(k, v)]) = Some v.
Proof.
  intros Hfresh. unfold map_get.
  induction m as [|e m IH]; simpl.
  - by rewrite decide_True.
  - rewrite decide_False by (apply Hfresh; left).
    destruct (list_find _ (m ++ _)) as [[i e']|] eqn:Hf.
    + simpl in *. apply IH. intros k' Hk'. apply Hfresh. by right.
    + simpl in *. exfalso.
      assert (Some v = None); [|done]. rewrite <- IH; [done|].
      intros k' Hk'. apply Hfresh. by right.
Qed.
End Amounts.

(** Binary floating point shows in the statistics: the stored amounts 0.1
    and 0.2 add up to a number that is neither the decimal 0.3 nor the
    number [parseFloat] reads from ["0.3"]; and two different stored amounts
    are read as one and the same number. *)
Lemma float_sum_not_decimal :
  Stats.totalAmount (getSessionStats "s" drift_store)
    = S754_finite false 5404319552844596 (-54)
  ∧ parseFloat "0.3" = S754_finite false 5404319552844595 (-54)
  ∧ number_is_fraction (Stats.totalAmount (getSessionStats "s" drift_store))
      3 1 = false
  ∧ parseFloat "9007199254740993" = parseFloat "9007199254740992".
Proof. repeat split; vm_compute; reflexivity. Qed.

(** The export renders through binary64 as well: the stored amount
    9007199254740993 is written as 9007199254740992.00. *)
Lemma export_rounds_amount (Number_toString : number → string) :
  amount_cell Number_toString (Some "9007199254740993")
  = "9007199254740992.00".
Proof. vm_compute. reflexivity. Qed.

Lemma render_decimal_nonempty d : (0 ≤ coef d)%Z → render_decimal d ≠ "".
Proof.
  intros Hd.
  destruct (render_decimal_shape d Hd) as (ip & fp & _ & Hne & _ & _ & _ & ->).
  destruct (scale d); [done|]. destruct ip; [done|]. by rewrite append_cons.
Qed.

Lemma or_null_nonempty s : s ≠ "" → or_null (Some s) = Some s.
Proof. intros Hs. simpl. by destruct (String.eqb_spec s ""). Qed.

(** C5 (as amended).  Amounts are kept as decimal text and read as binary64
    numbers: the store keeps the three amount texts of a record unchanged and
    hands them back with the record; [parseFloat] reads a decimal literal as
    the binary64 number nearest to its value, and it is that number which
    the export prints with [toFixed(2)] and which the statistics add up. *)
Theorem amounts_text_read_as_binary64 :
  (∀ now ins st,
     store_wf st →
     let qr := (addScannedQR now ins st).1 in
     let st' := (addScannedQR now ins st).2 in
     subtotal qr = iq_subtotal ins
     ∧ vatAmount qr = iq_vatAmount ins
     ∧ totalAmount qr = iq_totalAmount ins
     ∧ map_get (id qr) (qrs st') = Some qr
     ∧ qr ∈ getScannedQRs (iq_sessionId ins) st')
  ∧ (∀ ip fp, digit_string ip → ip ≠ "" → digit_string fp →
       parseFloat (decimal_text ip fp)
       = decimal_to_number false (digits_value (ip +:+ fp))
           (- Z.of_nat (String.length fp)))
  ∧ (∀ Number_toString ip fp,
       digit_string ip → ip ≠ "" → digit_string fp →
       amount_cell Number_toString (Some (decimal_text ip fp))
       = toFixed2 Number_toString
           (decimal_to_number false (digits_value (ip +:+ fp))
              (- Z.of_nat (String.length fp))))
  ∧ (∀ qr ip fp,
       totalAmount qr = Some (decimal_text ip fp) →
       digit_string ip → ip ≠ "" → digit_string fp →
       amount_of qr
       = decimal_to_number false (digits_value (ip +:+ fp))
           (- Z.of_nat (String.length fp))).
Proof.
  split; [|split; [|split]].
  - intros now ins st [Hnd Hlt] qr st'.
    do 3 (split; [reflexivity|]).
    assert (Hq : qrs st' = qrs st ++ [(currentQRId st, qr)]).
    { unfold st', addScannedQR, map_set, map_has. cbn [snd qrs].
      rewrite bool_decide_eq_false_2; [done|].
      intros Hin. apply Hlt in Hin. lia. }
    split.
    + rewrite Hq. apply map_get_fresh. intros k Hk. apply Hlt in Hk.
      change (id qr) with (currentQRId st). lia.
    + rewrite getScannedQRs_perm. apply list_elem_of_filter. split; [done|].
      unfold map_values. rewrite Hq, fmap_app. apply elem_of_app. right.
      simpl. left.
  - apply parseFloat_decimal_text.
  - intros nts ip fp Hip Hne Hfp. unfold amount_cell.
    rewrite or_null_nonempty by (by apply decimal_text_nonempty).
    by rewrite parseFloat_decimal_text.
  - intros qr ip fp Hq Hip Hne Hfp. unfold amount_of. rewrite Hq.
    rewrite or_null_nonempty by (by apply decimal_text_nonempty).
    by apply parseFloat_decimal_text.
Qed.

Lemma amounts_text_read_as_binary64_witness :
  parseFloat "115.00" = decimal_to_number false 11500 (-2)
  ∧ totalAmount (addScannedQR 40 (scan "s" "valid" (Some "0.30")) drift_store).1
    = Some "0.30".
Proof.
  split.
  - apply (proj1 (proj2 amounts_text_read_as_binary64) "115" "00").
    + repeat constructor.
    + discriminate.
    + repeat constructor.
  - apply (proj1 amounts_text_read_as_binary64 40
             (scan "s" "valid" (Some "0.30")) drift_store).
    split.
    + apply (bool_decide_unpack _). vm_compute. exact I.
    + intros k Hk. vm_compute in Hk.
      repeat (apply elem_of_cons in Hk as [->|Hk]; [done|]).
      by apply elem_of_nil in Hk.
Defined.

(** ** The scanner pipeline *)

(** A parser result with an empty VAT number is stored with status
    ['valid'] and a null [vatNumber]: not all five fields are populated. *)
Lemma valid_record_with_null_field :
  let record := qrRecord integer_toString "s" "qr" (Some empty_vat_data) in
  let stored := (addScannedQR 10 record newMemStorage).1 in
  status stored = "valid"
  ∧ vatNumber stored = None
  ∧ ¬ core_populated stored.
Proof.
  split; [reflexivity|]. split; [reflexivity|].
  intros (_ & [v Hv] & _). discriminate Hv.
Qed.

(** The modelled decoder gives such a result: tag 2 may be empty. *)
Lemma decoder_accepts_empty_vat :
  pd_vatNumber <$> toParsedData (mapAndValidate empty_vat_records)
  = Some (Some "").
Proof. vm_compute. reflexivity. Qed.

Lemma stored_as_or_null o : stored_as o (or_null o).
Proof.
  destruct o as [s|]; simpl; [|done].
  destruct (String.eqb_spec s ""), (decide (s = "")); done.
Qed.

(** C3 (as amended).  One run of [processQRCode] (when no other run is in
    progress) reads the parser's result, which is either nothing or a parsed
    object, and submits one record; stored, that record has one of the two
    statuses, ['valid'] exactly when the parser returned an object.  It has
    status ['invalid'] and every invoice field null when the parser returned
    nothing, and status ['valid'] when it returned an object, each invoice
    field then holding the parser's value if that is a non-empty string and
    null otherwise. *)
Theorem processQRCode_record {Amount : Type}
    (Amount_toString : Amount → string)
    (parseZATCAQR : string → option (ParsedData Amount))
    (sid qrData : string) (saved : bool) (st : ScannerState)
    (now : Z) (store : MemStorage) :
  isProcessing st = false →
  ∃ record,
    (processQRCode Amount_toString parseZATCAQR sid qrData saved st).1
      = Some record
    ∧ let stored := (addScannedQR now record store).1 in
      sessionId stored = sid ∧ rawData stored = qrData
      ∧ (status stored = "valid" ∨ status stored = "invalid")
      ∧ (status stored = "valid" ↔ is_Some (parseZATCAQR qrData))
      ∧ (parseZATCAQR qrData = None →
           status stored = "invalid"
           ∧ sellerName stored = None ∧ vatNumber stored = None
           ∧ invoiceNumber stored = None ∧ invoiceDate stored = None
           ∧ subtotal stored = None ∧ vatAmount stored = None
           ∧ totalAmount stored = None)
      ∧ (∀ pd, parseZATCAQR qrData = Some pd →
           status stored = "valid"
           ∧ stored_as (pd_sellerName pd) (sellerName stored)
           ∧ stored_as (pd_vatNumber pd) (vatNumber stored)
           ∧ stored_as (pd_invoiceNumber pd) (invoiceNumber stored)
           ∧ stored_as (pd_invoiceDate pd) (invoiceDate stored)
           ∧ stored_as (Amount_toString <$> pd_subtotal pd) (subtotal stored)
           ∧ stored_as (Amount_toString <$> pd_vatAmount pd)
               (vatAmount stored)
           ∧ stored_as (Amount_toString <$> pd_totalAmount pd)
               (totalAmount stored)).
Proof.
  intros Hidle. unfold processQRCode. rewrite Hidle.
  eexists. split; [reflexivity|]. cbv zeta.
  split; [reflexivity|]. split; [reflexivity|].
  split; [by destruct (parseZATCAQR qrData); [left|right]|].
  split.
  { destruct (parseZATCAQR qrData) as [pd|]; simpl; split;
      first [done | by eauto | by intros [? ?]]. }
  split.
  - intros ->. by repeat split.
  - intros pd ->. split; [reflexivity|].
    repeat split; apply stored_as_or_null.
Qed.

Lemma processQRCode_record_witness :
  ∃ record,
    (processQRCode integer_toString (λ _, Some empty_vat_data) "s" "qr" true
       (mkScannerState false "" None)).1 = Some record
    ∧ iq_status record = "valid".
Proof.
  destruct (processQRCode_record integer_toString (λ _, Some empty_vat_data)
              "s" "qr" true (mkScannerState false "" None) 10 newMemStorage)
    as (record & Hr & _ & _ & _ & _ & _ & Hv).
  - reflexivity.
  - exists record. split; [exact Hr|].
    exact (proj1 (Hv empty_vat_data eq_refl)).
Defined.

(** With the modelled decoder as the parser: a successful decode is stored
    with its seller name and its three amounts; the VAT number and the date
    are null when their text is empty. *)
Lemma pipeline_with_decoder (sid qrData : string) :
  let record :=
    qrRecord render_decimal sid qrData (toParsedData (decode qrData)) in
  match decode qrData with
  | Invalid _ =>
      iq_status record = "invalid"
      ∧ iq_sellerName record = None ∧ iq_vatNumber record = None
      ∧ iq_invoiceDate record = None ∧ iq_totalAmount record = None
      ∧ iq_vatAmount record = None
  | Valid inv =>
      iq_status record = "valid"
      ∧ iq_sellerName record = Some (ParsedInvoice.sellerName inv)
      ∧ iq_vatNumber record = or_null (Some (ParsedInvoice.vatNumber inv))
      ∧ iq_invoiceDate record = or_null (Some (ParsedInvoice.timestamp inv))
  end.
Proof.
  intros record. destruct (decode qrData) as [inv|e] eqn:Hd.
  - split; [reflexivity|]. split; [|split; reflexivity].
    apply decode_Valid in Hd as (buffer & seq & c & _ & Ht & Hs & ->).
    apply tokenize_record_wf in Ht.
    destruct (structural_core_wf seq c Ht Hs) as (Hne & _).
    change (or_null (Some (cf_sellerName c)) = Some (cf_sellerName c)).
    by apply or_null_nonempty.
  - by repeat split.
Qed.

(** ** The theorems on the example store *)

Lemma example_store_wf : store_wf example_store.
Proof.
  unfold example_store.
  do 3 apply store_wf_addScannedQR. apply store_wf_new.
Qed.

Lemma clearSessionQRs_frame_witness :
  store_wf example_store
  ∧ (clearSessionQRs "s" example_store).1 = true
  ∧ qrs (clearSessionQRs "s" example_store).2
    = filter (λ e, sessionId e.2 ≠ "s") (qrs example_store).
Proof.
  pose proof example_store_wf as Hwf. split; [exact Hwf|].
  destruct (clearSessionQRs_frame "s" example_store Hwf)
    as (Htrue & _ & Hq & _).
  split; [exact Htrue|exact Hq].
Defined.

Lemma getSessionStats_spec_witness :
  Stats.totalScans (getSessionStats "s" example_store)
  = (Stats.validScans (getSessionStats "s" example_store)
     + Stats.errors (getSessionStats "s" example_store))%nat.
Proof.
  destruct (getSessionStats_spec "s" example_store) as (_ & _ & _ & Hsum & _).
  apply Hsum. apply Forall_forall. vm_compute.
  repeat (constructor; [first [by left | by right]|]). constructor.
Defined.

(** ** The store under sequences of calls *)

Lemma map_get_nil {V} k : map_get k ([] : jsmap V) = None.
Proof. done. Qed.

Lemma map_get_cons {V} k k' (v : V) m :
  map_get k ((k', v) :: m) = if decide (k' = k) then Some v else map_get k m.
Proof.
  unfold map_get. cbn [list_find]. simpl.
  destruct (decide (k' = k)); [done|].
  by destruct (list_find _ m) as [[i e]|].
Qed.

Lemma map_get_Some_elem {V} k (v : V) m :
  map_get k m = Some v → (k, v) ∈ m.
Proof.
  induction m as [|[k' v'] m IH]; [done|].
  rewrite map_get_cons. destruct (decide (k' = k)) as [->|].
  - intros [= ->]. left.
  - intros H. right. by apply IH.
Qed.

Lemma map_get_None {V} k (m : jsmap V) :
  map_get k m = None ↔ k ∉ m.*1.
Proof.
  induction m as [|[k' v'] m IH]; simpl.
  - split; [intros _; apply not_elem_of_nil|done].
  - rewrite map_get_cons, not_elem_of_cons.
    destruct (decide (k' = k)) as [->|Hne].
    + split; [done|]. by intros [? _].
    + rewrite IH. split; [|tauto]. intros Hk. split; [|done]. congruence.
Qed.

Lemma map_has_get {V} k (m : jsmap V) :
  map_has k m = true ↔ is_Some (map_get k m).
Proof.
  unfold map_has. rewrite bool_decide_eq_true.
  rewrite <- not_eq_None_Some, map_get_None.
  destruct (decide (k ∈ m.*1)); tauto.
Qed.

Lemma map_get_elem_NoDup {V} k (v : V) m :
  NoDup m.*1 → (k, v) ∈ m → map_get k m = Some v.
Proof.
  induction m as [|[k' v'] m IH]; simpl; intros Hnd Hin.
  - by apply elem_of_nil in Hin.
  - apply NoDup_cons in Hnd as [Hk' Hnd]. rewrite map_get_cons.
    apply elem_of_cons in Hin as [[= <- <-]|Hin].
    + by rewrite decide_True.
    + rewrite decide_False; [by apply IH|].
      intros ->. apply Hk'. apply list_elem_of_fmap. by exists (k, v).
Qed.

Lemma map_get_set {V} k k' (v : V) m :
  map_get k' (map_set k v m) = if decide (k = k') then Some v else map_get k' m.
Proof.
  unfold map_set. destruct (map_has k m) eqn:Hhas.
  - apply map_has_get in Hhas. clear -Hhas.
    induction m as [|[k0 v0] m IH].
    { by destruct Hhas. }
    rewrite fmap_cons. cbn [fst]. rewrite map_get_cons in Hhas.
    case_bool_decide as Hk0; rewrite !map_get_cons.
    + subst k0. destruct (decide (k = k')); [done|].
      destruct (decide (k ∈ m.*1)) as [Hin|Hnin].
      * apply IH. rewrite <- not_eq_None_Some, map_get_None. tauto.
      * clear IH Hhas. induction m as [|[k1 v1] m IH]; [done|].
        rewrite fmap_cons. cbn [fst]. simpl in Hnin.
        apply not_elem_of_cons in Hnin as [Hne Hnin].
        rewrite bool_decide_eq_false_2 by done.
        rewrite !map_get_cons. destruct (decide (k1 = k')); [done|].
        by apply IH.
    + rewrite decide_False in Hhas by done.
      destruct (decide (k0 = k')) as [->|].
      * by rewrite decide_False by done.
      * by apply IH.
  - apply not_true_iff_false in Hhas. rewrite map_has_get in Hhas.
    rewrite <- not_eq_None_Some in Hhas.
    assert (Hnone : k ∉ m.*1).
    { apply map_get_None. destruct (map_get k m); [|done].
      exfalso. by apply Hhas. }
    clear Hhas. induction m as [|[k0 v0] m IH]; simpl.
    + rewrite map_get_cons. by destruct (decide (k = k')).
    + simpl in Hnone. apply not_elem_of_cons in Hnone as [Hne Hnone].
      rewrite !map_get_cons. destruct (decide (k0 = k')) as [->|].
      * by rewrite decide_False.
      * by apply IH.
Qed.

Lemma map_get_delete {V} k k' (m : jsmap V) :
  map_get k' (map_delete k m).2 = if decide (k = k') then None else map_get k' m.
Proof.
  unfold map_delete. cbn [snd].
  induction m as [|[k0 v0] m IH].
  - by destruct (decide (k = k')).
  - rewrite filter_cons. cbn [fst]. rewrite map_get_cons.
    destruct (decide (k0 ≠ k)) as [Hne|Heq].
    + rewrite map_get_cons. destruct (decide (k0 = k')) as [->|]; [|done].
      by rewrite decide_False.
    + apply dec_stable in Heq as ->. rewrite IH.
      by destruct (decide (k = k')).
Qed.

(** *** The record map after a call, and the stable sort *)

Lemma filter_fmap_list {A B} (f : A → B) (P : B → Prop)
    `{!∀ x, Decision (P x)} (l : list A) :
  filter P (f <$> l) = f <$> filter (λ x, P (f x)) l.
Proof.
  induction l as [|x l IH]; [done|].
  rewrite fmap_cons, !filter_cons. destruct (decide (P (f x))); simpl.
  - by rewrite IH.
  - done.
Qed.

Lemma qrs_addScannedQR now ins st :
  store_wf st →
  qrs (addScannedQR now ins st).2
  = qrs st ++ [(currentQRId st, (addScannedQR now ins st).1)].
Proof.
  intros [Hnd Hlt]. unfold addScannedQR. cbn [snd fst qrs].
  unfold map_set, map_has. rewrite bool_decide_eq_false_2; [done|].
  intros Hin. apply Hlt in Hin. lia.
Qed.

Lemma qrs_clearSessionQRs sid st :
  store_wf st →
  qrs (clearSessionQRs sid st).2 = filter (λ e, sessionId e.2 ≠ sid) (qrs st).
Proof.
  intros [Hnd _]. unfold clearSessionQRs. cbn [snd qrs].
  by apply clear_keeps_other_sessions.
Qed.

(** The sort and a filter commute: the sort is stable. *)
Lemma filter_insert_by_scannedAt (P : ScannedQR → Prop)
    `{!∀ x, Decision (P x)} x l :
  later_first l →
  filter P (insert_by_scannedAt x l)
  = if decide (P x) then insert_by_scannedAt x (filter P l) else filter P l.
Proof.
  induction l as [|y l IH]; intros Hl.
  - simpl. rewrite filter_cons. by destruct (decide (P x)).
  - apply later_first_cons in Hl as [Hhd Htl]. specialize (IH Htl).
    cbn [insert_by_scannedAt]. case_bool_decide as Hxy.
    + rewrite !filter_cons, IH.
      destruct (decide (P x)), (decide (P y)); try done.
      cbn [insert_by_scannedAt]. by rewrite bool_decide_eq_true_2.
    + rewrite !filter_cons.
      destruct (decide (P x)) as [Hx|Hx]; [|done].
      destruct (decide (P y)) as [Hy|Hy].
      * cbn [insert_by_scannedAt]. by rewrite bool_decide_eq_false_2.
      * assert (Hfirst : ∀ l', (∀ z, z ∈ l' → scannedAt z ≤ scannedAt x) →
                  insert_by_scannedAt x l' = x :: l').
        { intros [|z l'] Hz; [done|]. cbn [insert_by_scannedAt].
          rewrite bool_decide_eq_false_2; [done|].
          specialize (Hz z (list_elem_of_here _ _)). lia. }
        rewrite Hfirst; [done|]. intros z Hz.
        apply list_elem_of_filter in Hz as [_ Hz]. specialize (Hhd z Hz). lia.
Qed.

Lemma filter_sort_by_scannedAt_desc (P : ScannedQR → Prop)
    `{!∀ x, Decision (P x)} l :
  filter P (sort_by_scannedAt_desc l) = sort_by_scannedAt_desc (filter P l).
Proof.
  induction l as [|x l IH]; [done|].
  cbn [sort_by_scannedAt_desc foldr].
  rewrite filter_insert_by_scannedAt by apply sort_by_scannedAt_desc_sorted.
  fold (sort_by_scannedAt_desc l). rewrite IH, filter_cons.
  by destruct (decide (P x)).
Qed.

Lemma sort_by_scannedAt_desc_same_time t l :
  (∀ x, x ∈ l → scannedAt x = t) → sort_by_scannedAt_desc l = l.
Proof.
  induction l as [|x l IH]; intros Ht; [done|].
  cbn [sort_by_scannedAt_desc foldr]. fold (sort_by_scannedAt_desc l).
  rewrite IH by (intros y Hy; apply Ht; by right).
  destruct l as [|y l]; [done|]. cbn [insert_by_scannedAt].
  rewrite bool_decide_eq_false_2; [done|].
  rewrite (Ht x), (Ht y); [lia|right; left|left].
Qed.

Lemma sort_by_scannedAt_desc_snoc_latest l x :
  (∀ y, y ∈ l → scannedAt y < scannedAt x) →
  sort_by_scannedAt_desc (l ++ [x]) = x :: sort_by_scannedAt_desc l.
Proof.
  induction l as [|y l IH]; intros Hlt; [done|].
  cbn [app sort_by_scannedAt_desc foldr].
  fold (sort_by_scannedAt_desc (l ++ [x])). fold (sort_by_scannedAt_desc l).
  rewrite IH by (intros z Hz; apply Hlt; by right).
  cbn [insert_by_scannedAt]. rewrite bool_decide_eq_true_2; [done|].
  apply Hlt. left.
Qed.

Lemma getScannedQRs_ext sid st st' :
  filter (λ qr, sessionId qr = sid) (map_values (qrs st'))
  = filter (λ qr, sessionId qr = sid) (map_values (qrs st)) →
  getScannedQRs sid st' = getScannedQRs sid st
  ∧ getSessionStats sid st' = getSessionStats sid st.
Proof.
  intros H. unfold getSessionStats, getScannedQRs. by rewrite H.
Qed.

(** *** The invariant of the store *)

Lemma storage_inv_store_wf st : storage_inv st → store_wf st.
Proof.
  intros (Hnd & Hkey & _). split; [done|].
  intros k Hk. apply list_elem_of_fmap in Hk as ([k' qr] & -> & Hin).
  apply Hkey in Hin. simpl. lia.
Qed.

Lemma storage_inv_keyed st : storage_inv st → keyed_by_id st.
Proof. intros (_ & Hkey & _) k qr Hin. by apply Hkey. Qed.

Lemma storage_inv_new : storage_inv newMemStorage.
Proof.
  split; [constructor|]. split.
  { intros k qr Hin. by apply elem_of_nil in Hin. }
  split; [done|]. split; [done|]. unfold getSession. simpl. split.
  - intros sid s Hs. by rewrite lookup_empty in Hs.
  - intros sid1 sid2 s1 s2 Hs. by rewrite lookup_empty in Hs.
Qed.

Lemma storage_inv_filter (P : Z * ScannedQR → Prop) `{!∀ e, Decision (P e)}
    st st' :
  storage_inv st →
  qrs st' = filter P (qrs st) → sessions st' = sessions st →
  currentSessionId st' = currentSessionId st →
  currentQRId st' = currentQRId st →
  storage_inv st'.
Proof.
  intros (Hnd & Hkey & Hq & Hs & Hs1 & Hs2) Hqrs Hsess Hcs Hcq.
  unfold storage_inv, getSession. rewrite Hqrs, Hsess, Hcs, Hcq.
  split.
  { eapply sublist_NoDup; [exact Hnd|]. apply fmap_sublist, sublist_filter. }
  split; [|done].
  intros k qr Hin. apply list_elem_of_filter in Hin as [_ Hin]. by apply Hkey.
Qed.

Lemma storage_inv_call st c : storage_inv st → storage_inv (call st c).
Proof.
  intros Hinv. destruct c as [now ins|now ins|k|sid]; cbn [call].
  - destruct Hinv as (Hnd & Hkey & Hq & Hs & Hs1 & Hs2).
    split; [done|]. split; [done|]. split; [done|].
    unfold getSession, createSession. cbn [snd sessions currentSessionId].
    split; [lia|]. split.
    + intros sid s. destruct (decide (iss_sessionId ins = sid)) as [<-|Hne].
      * rewrite lookup_insert_eq. intros [= <-]. cbn. split; [done|lia].
      * rewrite lookup_insert_ne by done. intros Hsid.
        destruct (Hs1 sid s Hsid) as [? ?]. split; [done|lia].
    + intros sid1 sid2 s1 s2.
      destruct (decide (iss_sessionId ins = sid1)) as [<-|Hne1],
               (decide (iss_sessionId ins = sid2)) as [<-|Hne2];
        rewrite ?lookup_insert_eq, ?lookup_insert_ne by done; try done.
      * intros [= <-] H2 Heq. cbn in Heq. apply Hs1 in H2. lia.
      * intros H1 [= <-] Heq. cbn in Heq. apply Hs1 in H1. lia.
      * apply Hs2.
  - pose proof (storage_inv_store_wf st Hinv) as Hwf.
    pose proof (qrs_addScannedQR now ins st Hwf) as Hqrs.
    destruct Hinv as (Hnd & Hkey & Hq & Hs & Hs1 & Hs2).
    unfold storage_inv. rewrite Hqrs.
    unfold getSession, addScannedQR. cbn [snd fst sessions currentSessionId currentQRId].
    split.
    { rewrite fmap_app. apply NoDup_app. split; [done|].
      split; [|apply NoDup_singleton].
      intros k Hk Hk'. apply list_elem_of_singleton in Hk'. cbn in Hk'. subst k.
      apply list_elem_of_fmap in Hk as ([k' qr] & Hk & Hin).
      apply Hkey in Hin. simpl in Hk. lia. }
    split.
    { intros k qr Hin. apply elem_of_app in Hin as [Hin|Hin].
      - apply Hkey in Hin. lia.
      - apply list_elem_of_singleton in Hin as [= -> ->]. cbn. lia. }
    split; [lia|]. done.
  - eapply (storage_inv_filter (λ e, e.1 ≠ k)); by try done.
  - eapply (storage_inv_filter (λ e, sessionId e.2 ≠ sid)); try done.
    by apply qrs_clearSessionQRs, storage_inv_store_wf.
Qed.

Lemma storage_inv_after cs : storage_inv (storage_after cs).
Proof.
  unfold storage_after. induction cs as [|c cs IH] using rev_ind.
  - apply storage_inv_new.
  - rewrite foldl_snoc. by apply storage_inv_call.
Qed.

(** X1.  Whatever calls were made on the store, the record keys are
    pairwise distinct, every record is stored under its own id, which is
    positive and below [currentQRId], every session is stored under its own
    [sessionId] with a positive id below [currentSessionId], no two stored
    sessions share an id, and the stored records have pairwise distinct
    ids. *)
Theorem storage_invariant (cs : list StorageCall) :
  let st := storage_after cs in
  NoDup (qrs st).*1
  ∧ (∀ k qr, (k, qr) ∈ qrs st → id qr = k ∧ 1 ≤ k < currentQRId st)
  ∧ (∀ sid s, getSession sid st = Some s →
       ss_sessionId s = sid ∧ 1 ≤ ss_id s < currentSessionId st)
  ∧ (∀ sid1 sid2 s1 s2,
       getSession sid1 st = Some s1 → getSession sid2 st = Some s2 →
       ss_id s1 = ss_id s2 → sid1 = sid2)
  ∧ NoDup (id <$> map_values (qrs st)).
Proof.
  intros st. destruct (storage_inv_after cs) as (Hnd & Hkey & _ & _ & Hs1 & Hs2).
  fold st in Hnd, Hkey, Hs1, Hs2.
  split; [done|]. split; [done|]. split; [done|]. split; [done|].
  unfold map_values. rewrite <- list_fmap_compose.
  erewrite list_fmap_ext; [exact Hnd|].
  intros i [k qr] Hi. apply list_elem_of_lookup_2 in Hi. cbn.
  by apply Hkey.
Qed.

Lemma currentQRId_call st c : currentQRId st ≤ currentQRId (call st c).
Proof. destruct c; cbn; lia. Qed.

Lemma currentQRId_calls st cs : currentQRId st ≤ currentQRId (foldl call st cs).
Proof.
  revert st. induction cs as [|c cs IH]; intros st; [done|].
  cbn [foldl]. etrans; [apply (currentQRId_call st c)|apply IH].
Qed.

(** X2.  The ids handed out by [addScannedQR] grow strictly with the calls,
    whatever was deleted or cleared in between: a later call returns an id
    above that of an earlier call and above every key stored at that time,
    so no id is handed out twice. *)
Theorem addScannedQR_ids_increase (cs cs' : list StorageCall)
    (now now' : Z) (insertQR insertQR' : InsertScannedQR) :
  let first := (addScannedQR now insertQR (storage_after cs)).1 in
  let later :=
    (addScannedQR now' insertQR'
       (storage_after (cs ++ AddScannedQR now insertQR :: cs'))).1 in
  id first < id later
  ∧ ∀ k qr, (k, qr) ∈ qrs (storage_after (cs ++ AddScannedQR now insertQR :: cs'))
      → k < id later.
Proof.
  intros first later. unfold first, later, storage_after.
  rewrite foldl_app. cbn [foldl call].
  set (st := foldl call newMemStorage cs).
  split.
  - cbn [addScannedQR fst id].
    pose proof (currentQRId_calls (addScannedQR now insertQR st).2 cs') as H.
    cbn in H. cbn. lia.
  - intros k qr Hin.
    pose proof (storage_inv_after (cs ++ AddScannedQR now insertQR :: cs'))
      as (_ & Hkey & _).
    unfold storage_after in Hkey. rewrite foldl_app in Hkey.
    cbn [foldl call] in Hkey. fold st in Hkey.
    apply Hkey in Hin. cbn [addScannedQR fst id]. lia.
Qed.

Lemma filter_session_snoc sid (m : jsmap ScannedQR) k qr :
  filter (λ qr, sessionId qr = sid) (map_values (m ++ [(k, qr)]))
  = filter (λ qr, sessionId qr = sid) (map_values m)
    ++ (if decide (sessionId qr = sid) then [qr] else []).
Proof.
  unfold map_values. rewrite fmap_app, filter_app. f_equal.
Qed.

(** X3.  In a store whose keys are distinct and below the counter,
    [addScannedQR] returns a record with the next id and the given time; the
    id was not in use, a lookup of it now finds the record, every other key
    is looked up as before; the listing of the record's session gains
    exactly this record, in front when its time is later than that of all
    the others; the listings and statistics of the other sessions and the
    sessions themselves do not change; [totalScans] of the session grows by
    one. *)
Theorem addScannedQR_then_queries (now : Z) (insertQR : InsertScannedQR)
    (st : MemStorage) :
  store_wf st →
  let qr := (addScannedQR now insertQR st).1 in
  let st' := (addScannedQR now insertQR st).2 in
  let sid := iq_sessionId insertQR in
  id qr = currentQRId st ∧ scannedAt qr = now
  ∧ map_get (id qr) (qrs st) = None
  ∧ map_get (id qr) (qrs st') = Some qr
  ∧ (∀ k, k ≠ id qr → map_get k (qrs st') = map_get k (qrs st))
  ∧ getScannedQRs sid st' ≡ₚ qr :: getScannedQRs sid st
  ∧ ((∀ old, old ∈ getScannedQRs sid st → scannedAt old < now) →
     getScannedQRs sid st' = qr :: getScannedQRs sid st)
  ∧ (∀ sid', sid' ≠ sid →
       getScannedQRs sid' st' = getScannedQRs sid' st
       ∧ getSessionStats sid' st' = getSessionStats sid' st)
  ∧ Stats.totalScans (getSessionStats sid st')
    = S (Stats.totalScans (getSessionStats sid st))
  ∧ ∀ sid', getSession sid' st' = getSession sid' st.
Proof.
  intros Hwf qr st' sid.
  pose proof (qrs_addScannedQR now insertQR st Hwf) as Hqrs.
  fold qr st' in Hqrs.
  assert (Hsession : sessionId qr = sid) by done.
  assert (Hfilter :
    filter (λ qr, sessionId qr = sid) (map_values (qrs st'))
    = filter (λ qr, sessionId qr = sid) (map_values (qrs st)) ++ [qr]).
  { rewrite Hqrs, filter_session_snoc. by rewrite decide_True. }
  assert (Hperm : getScannedQRs sid st' ≡ₚ qr :: getScannedQRs sid st).
  { rewrite !getScannedQRs_perm, Hfilter.
    by rewrite <- Permutation_cons_append. }
  split; [done|]. split; [done|]. split.
  { apply map_get_None. intros Hin. destruct Hwf as [_ Hlt].
    apply Hlt in Hin. change (id qr) with (currentQRId st) in Hin. lia. }
  split.
  { unfold st', addScannedQR. cbn [snd qrs]. rewrite map_get_set.
    by rewrite decide_True. }
  split.
  { intros k Hk. unfold st', addScannedQR. cbn [snd qrs].
    rewrite map_get_set. by rewrite decide_False. }
  split; [done|]. split.
  { intros Hlater. unfold getScannedQRs. rewrite Hfilter.
    apply sort_by_scannedAt_desc_snoc_latest. intros old Hold.
    change (scannedAt qr) with now. apply Hlater.
    unfold getScannedQRs. by rewrite sort_by_scannedAt_desc_perm. }
  split.
  { intros sid' Hne. apply getScannedQRs_ext.
    rewrite Hqrs, filter_session_snoc. rewrite decide_False by congruence.
    by rewrite app_nil_r. }
  split; [|done].
  unfold getSessionStats. cbn [Stats.totalScans]. by rewrite Hperm.
Qed.

Lemma filter_keys_id {V} k (m : jsmap V) :
  k ∉ m.*1 → filter (λ e, e.1 ≠ k) m = m.
Proof.
  induction m as [|[k0 v0] m IH]; [done|]. simpl. intros Hk.
  apply not_elem_of_cons in Hk as [Hne Hk].
  rewrite filter_cons, decide_True by (simpl; congruence).
  by rewrite IH.
Qed.

Lemma qrs_deleteScannedQR k st :
  qrs (deleteScannedQR k st).2 = (map_delete k (qrs st)).2.
Proof. done. Qed.

(** X4.  [deleteScannedQR] returns [true] exactly when a record was stored
    under the id; afterwards the id is not found and every other key is
    looked up as before; when it returns [false] the store is unchanged; a
    second deletion of the same id returns [false]; sessions and counters
    are untouched. *)
Theorem deleteScannedQR_spec (k : Z) (st : MemStorage) :
  let found := (deleteScannedQR k st).1 in
  let st' := (deleteScannedQR k st).2 in
  (found = true ↔ is_Some (map_get k (qrs st)))
  ∧ map_get k (qrs st') = None
  ∧ (∀ k', k' ≠ k → map_get k' (qrs st') = map_get k' (qrs st))
  ∧ (found = false → st' = st)
  ∧ (deleteScannedQR k st').1 = false
  ∧ sessions st' = sessions st
  ∧ currentSessionId st' = currentSessionId st
  ∧ currentQRId st' = currentQRId st.
Proof.
  intros found st'.
  assert (Hgone : map_get k (qrs st') = None).
  { unfold st'. rewrite qrs_deleteScannedQR, map_get_delete.
    by rewrite decide_True. }
  split; [apply map_has_get|]. split; [done|]. split.
  { intros k' Hne. unfold st'. rewrite qrs_deleteScannedQR, map_get_delete.
    by rewrite decide_False. }
  split.
  { unfold found, st', deleteScannedQR. cbn [fst snd map_delete].
    intros Hnot. apply not_true_iff_false in Hnot.
    unfold map_has in Hnot. rewrite bool_decide_eq_true in Hnot.
    rewrite filter_keys_id by done. by destruct st. }
  split; [|done].
  apply not_true_iff_false. intros Hfound.
  apply (map_has_get k (qrs st')) in Hfound. rewrite Hgone in Hfound.
  by destruct Hfound.
Qed.

Lemma filter_values_keyed (m : jsmap ScannedQR) k :
  (∀ k' qr, (k', qr) ∈ m → id qr = k') →
  map_values (filter (λ e, e.1 ≠ k) m)
  = filter (λ qr, id qr ≠ k) (map_values m).
Proof.
  intros Hkey. unfold map_values. rewrite filter_fmap_list. f_equal.
  apply filter_ext_in. intros [k' qr] Hin. cbn. by rewrite (Hkey k' qr Hin).
Qed.

(** X5.  When every record is stored under its own id, the listing of a
    session after [deleteScannedQR] is the listing before without the
    record of that id, the others in their order. *)
Theorem deleteScannedQR_listing (k : Z) (sid : string) (st : MemStorage) :
  keyed_by_id st →
  getScannedQRs sid (deleteScannedQR k st).2
  = filter (λ qr, id qr ≠ k) (getScannedQRs sid st).
Proof.
  intros Hkey. unfold getScannedQRs, deleteScannedQR. cbn [snd qrs map_delete].
  rewrite filter_values_keyed by done.
  rewrite filter_sort_by_scannedAt_desc. f_equal.
  rewrite !list_filter_filter. apply list_filter_iff. intros qr. tauto.
Qed.

(** X6.  Deleting the record [addScannedQR] has just returned succeeds
    and restores the record map, but not the counter: the next record gets
    the following id, not the deleted one. *)
Theorem add_then_delete (now now' : Z) (insertQR insertQR' : InsertScannedQR)
    (st : MemStorage) :
  store_wf st →
  let qr := (addScannedQR now insertQR st).1 in
  let st' := (deleteScannedQR (id qr) (addScannedQR now insertQR st).2).2 in
  (deleteScannedQR (id qr) (addScannedQR now insertQR st).2).1 = true
  ∧ qrs st' = qrs st ∧ sessions st' = sessions st
  ∧ currentQRId st' = currentQRId st + 1
  ∧ id (addScannedQR now' insertQR' st').1 = id qr + 1.
Proof.
  intros Hwf qr st'.
  pose proof (qrs_addScannedQR now insertQR st Hwf) as Hqrs.
  destruct Hwf as [Hnd Hlt].
  assert (Hfresh : currentQRId st ∉ (qrs st).*1).
  { intros Hin. apply Hlt in Hin. lia. }
  split.
  { unfold deleteScannedQR. cbn [fst map_delete]. rewrite Hqrs.
    unfold map_has. apply bool_decide_eq_true. rewrite fmap_app.
    apply elem_of_app. right. left. }
  split; [|done].
  unfold st', deleteScannedQR. cbn [snd qrs map_delete]. rewrite Hqrs.
  rewrite filter_app, filter_keys_id by done.
  rewrite filter_cons, decide_False; [by rewrite app_nil_r|].
  cbn. intros H. by apply H.
Qed.

(** X7.  After [clearSessionQRs] the listing of the session is empty and
    its statistics are all zero, the listings and statistics of every other
    session and all sessions are as before, and clearing again changes
    nothing. *)
Theorem clearSessionQRs_then_queries (sid : string) (st : MemStorage) :
  store_wf st →
  let st' := (clearSessionQRs sid st).2 in
  getScannedQRs sid st' = []
  ∧ getSessionStats sid st' = Stats.mk 0 0 num_zero 0
  ∧ (∀ sid', sid' ≠ sid →
       getScannedQRs sid' st' = getScannedQRs sid' st
       ∧ getSessionStats sid' st' = getSessionStats sid' st)
  ∧ (∀ sid', getSession sid' st' = getSession sid' st)
  ∧ (clearSessionQRs sid st').2 = st'.
Proof.
  intros Hwf st'.
  pose proof (qrs_clearSessionQRs sid st Hwf) as Hqrs. fold st' in Hqrs.
  assert (Hnone : filter (λ qr, sessionId qr = sid) (map_values (qrs st')) = []).
  { rewrite Hqrs. unfold map_values. rewrite filter_fmap_list.
    rewrite list_filter_filter. clear Hqrs.
    induction (qrs st) as [|e m IH]; [done|].
    rewrite filter_cons. destruct (decide _) as [[? ?]|]; [done|exact IH]. }
  assert (Hlist : getScannedQRs sid st' = []).
  { unfold getScannedQRs. by rewrite Hnone. }
  split; [done|]. split.
  { unfold getSessionStats. by rewrite Hlist. }
  split.
  { intros sid' Hne. apply getScannedQRs_ext. rewrite Hqrs.
    unfold map_values. rewrite !filter_fmap_list. f_equal.
    rewrite list_filter_filter. apply list_filter_iff. intros e.
    split; [tauto|]. intros He. split; [done|congruence]. }
  split; [done|].
  assert (Hwf' : store_wf st') by by apply store_wf_clearSessionQRs.
  pose proof (qrs_clearSessionQRs sid st' Hwf') as Hqrs'.
  assert (Hsame : qrs (clearSessionQRs sid st').2 = qrs st').
  { rewrite Hqrs', Hqrs, list_filter_filter. apply list_filter_iff.
    intros e. tauto. }
  revert Hsame. unfold clearSessionQRs at 1 2. cbn [snd qrs].
  intros ->. unfold st', clearSessionQRs. done.
Qed.

(** X8.  [getScannedQRs] lists exactly the stored records of the session;
    records scanned at the same time keep the order in which they were
    stored (the sort is stable); and filtering the listing is the same as
    listing the filtered records. *)
Theorem getScannedQRs_order (sid : string) (st : MemStorage) :
  (∀ qr, qr ∈ getScannedQRs sid st
         ↔ sessionId qr = sid ∧ ∃ k, (k, qr) ∈ qrs st)
  ∧ (∀ t, filter (λ qr, scannedAt qr = t) (getScannedQRs sid st)
          = filter (λ qr, scannedAt qr = t)
              (filter (λ qr, sessionId qr = sid) (map_values (qrs st))))
  ∧ ∀ (P : ScannedQR → Prop) `{!∀ qr, Decision (P qr)},
      filter P (getScannedQRs sid st)
      = sort_by_scannedAt_desc
          (filter P (filter (λ qr, sessionId qr = sid) (map_values (qrs st)))).
Proof.
  split; [|split].
  - intros qr. rewrite getScannedQRs_perm, list_elem_of_filter.
    unfold map_values. rewrite list_elem_of_fmap. split.
    + intros [Hs ([k qr'] & -> & Hin)]. split; [done|]. by exists k.
    + intros [Hs [k Hin]]. split; [done|]. by exists (k, qr).
  - intros t. unfold getScannedQRs. rewrite filter_sort_by_scannedAt_desc.
    apply (sort_by_scannedAt_desc_same_time t). intros x Hx.
    by apply list_elem_of_filter in Hx as [? _].
  - intros P HP. unfold getScannedQRs. apply filter_sort_by_scannedAt_desc.
Qed.

(** X9.  [createSession] returns a session with the given [sessionId], the
    next session id and the given time, and stores it: [getSession] of that
    [sessionId] finds it, other sessions are found as before, and no
    listing or statistic changes.  Creating a session again under the same
    [sessionId] replaces the stored one by a session with the following
    id. *)
Theorem createSession_getSession (now now' : Z) (insertSession : InsertScanSession)
    (st : MemStorage) :
  let s := (createSession now insertSession st).1 in
  let st' := (createSession now insertSession st).2 in
  getSession (iss_sessionId insertSession) st' = Some s
  ∧ ss_sessionId s = iss_sessionId insertSession
  ∧ ss_id s = currentSessionId st ∧ ss_createdAt s = now
  ∧ (∀ sid, sid ≠ iss_sessionId insertSession →
       getSession sid st' = getSession sid st)
  ∧ (∀ sid, getScannedQRs sid st' = getScannedQRs sid st
            ∧ getSessionStats sid st' = getSessionStats sid st)
  ∧ let again := createSession now' insertSession st' in
    ss_id again.1 = ss_id s + 1
    ∧ getSession (iss_sessionId insertSession) again.2 = Some again.1.
Proof.
  intros s st'. unfold getSession, st', createSession. cbn [snd fst sessions].
  split; [by rewrite lookup_insert_eq|]. split; [done|]. split; [done|].
  split; [done|]. split.
  { intros sid Hne. by rewrite lookup_insert_ne. }
  split; [done|]. cbn. split; [done|]. by rewrite lookup_insert_eq.
Qed.

Lemma getSession_call sid st c :
  is_Some (getSession sid (call st c))
  ↔ is_Some (getSession sid st)
    ∨ ∃ now ins, c = CreateSession now ins ∧ iss_sessionId ins = sid.
Proof.
  destruct c as [now ins|now ins|k|sid0]; cbn [call].
  - unfold getSession, createSession. cbn [snd sessions ss_sessionId].
    destruct (decide (iss_sessionId ins = sid)) as [<-|Hne].
    + rewrite lookup_insert_eq. split; [|by eauto].
      intros _. right. by exists now, ins.
    + rewrite lookup_insert_ne by done. split; [by left|].
      intros [?|(? & ? & [= <- <-] & ?)]; done.
  - split; [by left|]. by intros [?|(? & ? & ? & ?)].
  - split; [by left|]. by intros [?|(? & ? & ? & ?)].
  - split; [by left|]. by intros [?|(? & ? & ? & ?)].
Qed.

(** X10.  [getSession] finds a session exactly for the [sessionId]s
    [createSession] was called with: no other call adds a session, and none
    removes one (clearing a session's records keeps the session). *)
Theorem getSession_after_calls (cs : list StorageCall) (sid : string) :
  is_Some (getSession sid (storage_after cs))
  ↔ ∃ now ins, CreateSession now ins ∈ cs ∧ iss_sessionId ins = sid.
Proof.
  unfold storage_after. induction cs as [|c cs IH] using rev_ind.
  - unfold getSession. simpl. rewrite lookup_empty. split.
    + by intros [? ?].
    + intros (? & ? & Hin & _). by apply elem_of_nil in Hin.
  - rewrite foldl_snoc, getSession_call, IH. split.
    + intros [(now & ins & Hin & Hs)|(now & ins & -> & Hs)];
        exists now, ins; (split; [|done]); apply elem_of_app; [by left|].
      right. left.
    + intros (now & ins & Hin & Hs). apply elem_of_app in Hin as [Hin|Hin].
      * left. by exists now, ins.
      * apply list_elem_of_singleton in Hin as <-. right. by exists now, ins.
Qed.

Lemma qrRecord_status {Amount} (Amount_toString : Amount → string) sid qrData pd :
  iq_status (qrRecord Amount_toString sid qrData pd) = "valid"
  ∨ iq_status (qrRecord Amount_toString sid qrData pd) = "invalid".
Proof. destruct pd; [by left|by right]. Qed.

Lemma statuses_after_calls (cs : list StorageCall) :
  (∀ now q, AddScannedQR now q ∈ cs →
     iq_status q = "valid" ∨ iq_status q = "invalid") →
  ∀ e, e ∈ qrs (storage_after cs) →
    status e.2 = "valid" ∨ status e.2 = "invalid".
Proof.
  induction cs as [|c cs IH] using rev_ind; intros Hcs e.
  - intros He. by apply elem_of_nil in He.
  - assert (IH' : ∀ e, e ∈ qrs (storage_after cs) →
              status e.2 = "valid" ∨ status e.2 = "invalid").
    { apply IH. intros now q Hin. apply (Hcs now q), elem_of_app. by left. }
    pose proof (storage_inv_store_wf _ (storage_inv_after cs)) as Hwf.
    unfold storage_after in *. rewrite foldl_snoc.
    set (st := foldl call newMemStorage cs) in *.
    destruct c as [now ins|now ins|k|sid]; cbn [call].
    + apply IH'.
    + rewrite qrs_addScannedQR by done. intros He.
      apply elem_of_app in He as [He|He]; [by apply IH'|].
      apply list_elem_of_singleton in He as ->. cbn.
      apply (Hcs now ins), elem_of_app. right. left.
    + rewrite qrs_deleteScannedQR. cbn [map_delete snd]. intros He.
      apply list_elem_of_filter in He as [_ He]. by apply IH'.
    + rewrite qrs_clearSessionQRs by done. intros He.
      apply list_elem_of_filter in He as [_ He]. by apply IH'.
Qed.

Section ScannedRecords.
Context {Amount : Type}.
Variable Amount_toString : Amount → string.

(** X11.  When every record added to the store was built by the scanner
    ([qrRecord]), the scans of a session are its valid scans and its
    errors: [totalScans = validScans + errors] for every session, after any
    sequence of calls. *)
Theorem stats_of_scanned_records (cs : list StorageCall) (sid : string) :
  (∀ now q, AddScannedQR now q ∈ cs →
     ∃ s qrData parsedData, q = qrRecord Amount_toString s qrData parsedData) →
  let stats := getSessionStats sid (storage_after cs) in
  Stats.totalScans stats = (Stats.validScans stats + Stats.errors stats)%nat.
Proof.
  intros Hcs stats. unfold stats, getSessionStats.
  cbn [Stats.totalScans Stats.validScans Stats.errors].
  apply length_filter_two_statuses. intros qr Hqr.
  rewrite getScannedQRs_perm in Hqr.
  apply list_elem_of_filter in Hqr as [_ Hqr]. unfold map_values in Hqr.
  apply list_elem_of_fmap in Hqr as (e & -> & He).
  apply (statuses_after_calls cs); [|done].
  intros now q Hin. destruct (Hcs now q Hin) as (s & qrData & pd & ->).
  apply qrRecord_status.
Qed.
End ScannedRecords.

(** ** The exported workbook *)

Section StringSuffix.
Local Open Scope nat_scope.

Lemma substring_all s : substring 0 (String.length s) s = s.
Proof. induction s as [|c s IH]; [done|]. simpl. by rewrite IH. Qed.

Lemma substring_append_r p s :
  substring (String.length p) (String.length s) (p +:+ s) = s.
Proof.
  induction p as [|c p IH]; [apply substring_all|].
  rewrite append_cons. exact IH.
Qed.

Lemma substring_split a s :
  a ≤ String.length s →
  substring 0 a s +:+ substring a (String.length s - a) s = s.
Proof.
  revert s. induction a as [|a IH]; intros s Ha.
  - rewrite Nat.sub_0_r, substring_all. by destruct s.
  - destruct s as [|c s]; simpl in Ha; [lia|].
    simpl. rewrite append_cons. f_equal. apply IH. lia.
Qed.

Lemma endsWith_spec s suffix :
  endsWith s suffix = true ↔ ∃ base, s = base +:+ suffix.
Proof.
  unfold endsWith. rewrite andb_true_iff, Nat.leb_le, String.eqb_eq. split.
  - intros [Hle Hsub].
    exists (substring 0 (String.length s - String.length suffix) s).
    pose proof (substring_split (String.length s - String.length suffix) s)
      as Hsplit.
    replace (String.length s - (String.length s - String.length suffix))
      with (String.length suffix) in Hsplit by lia.
    rewrite Hsub in Hsplit. symmetry. apply Hsplit. lia.
  - intros [base ->]. rewrite length_append. split; [lia|].
    replace (String.length base + String.length suffix - String.length suffix)
      with (String.length base) by lia.
    apply substring_append_r.
Qed.
End StringSuffix.

Section ExportProperties.
Variable Number_toString : number → string.
Variable Date_toLocaleString : Z → string.
Variable Date_toISODate : Z → string.


(** X12.  The name of the exported file always ends in [.xlsx]: a given
    name that ends in [.xlsx] is used as it is, any other non-empty name
    gets the extension appended, and an empty name is replaced by
    [zatca_qr_export_] and the date, followed by the extension or by
    nothing. *)
Theorem exportToExcel_filename (now : Z) (qrCodes : list ScannedQR)
    (options : ExportOptions) :
  let final :=
    wb_filename
      (exportToExcel Number_toString Date_toLocaleString Date_toISODate
         now qrCodes options) in
  (∃ base, final = base +:+ ".xlsx")
  ∧ (∀ base, filename options = base +:+ ".xlsx" → final = filename options)
  ∧ (filename options ≠ "" →
     (∀ base, filename options ≠ base +:+ ".xlsx") →
     final = filename options +:+ ".xlsx")
  ∧ (filename options = "" →
     ∃ rest, final = ("zatca_qr_export_" +:+ Date_toISODate now) +:+ rest
             ∧ (rest = "" ∨ rest = ".xlsx")).
Proof.
  intros final. unfold final, exportToExcel. cbn [wb_filename].
  split; [|split; [|split]].
  - destruct (endsWith _ ".xlsx") eqn:He.
    + by apply endsWith_spec.
    + by eexists.
  - intros base Hname.
    assert (Hne : String.eqb (filename options) "" = false).
    { rewrite Hname. apply String.eqb_neq. by destruct base. }
    rewrite Hne.
    assert (He : endsWith (filename options) ".xlsx" = true).
    { apply endsWith_spec. by exists base. }
    by rewrite He.
  - intros Hne Hnot. apply String.eqb_neq in Hne. rewrite Hne.
    destruct (endsWith (filename options) ".xlsx") eqn:He; [|done].
    apply endsWith_spec in He as [base Hbase]. by destruct (Hnot base).
  - intros ->. cbn [String.eqb].
    destruct (endsWith _ ".xlsx") eqn:He.
    + exists "". rewrite append_empty_r. by split; [|left].
    + exists ".xlsx". by split; [|right].
Qed.

Lemma or_default_cases o d :
  (or_null o = None ∧ or_default o d = d)
  ∨ (∃ s, or_null o = Some s ∧ s ≠ "" ∧ or_default o d = s).
Proof.
  destruct o as [s|]; simpl; [|by left].
  destruct (String.eqb_spec s ""); [by left|right; by exists s].
Qed.

Lemma length_filter_imap {A B} (f : nat → A → B) (P : B → Prop) (Q : A → Prop)
    `{!∀ y, Decision (P y)} `{!∀ x, Decision (Q x)} (l : list A) :
  (∀ i x, P (f i x) ↔ Q x) →
  length (filter P (imap f l)) = length (filter Q l).
Proof.
  revert f. induction l as [|x l IH]; intros f Hf; [done|].
  rewrite imap_cons, !filter_cons.
  specialize (IH (f ∘ S) (λ i y, Hf (S i) y)).
  destruct (decide (P (f 0%nat x))) as [HP|HP], (decide (Q x)) as [HQ|HQ];
    simpl; rewrite ?IH; try done.
  - by apply Hf in HP.
  - by apply (Hf 0%nat) in HQ.
Qed.

(** X13.  [exportToExcel] writes one row per exported record, in their
    order, numbered 1, 2, ... whatever the record ids; the status cell is
    [Valid] exactly for status ['valid'] and [Invalid] for every other
    status; no text cell is empty, and a field that is null or empty is
    written as ["-"], amounts included. *)
Theorem exportToExcel_rows (now : Z) (qrCodes : list ScannedQR)
    (options : ExportOptions) :
  let data := dataToExport qrCodes options in
  let rows :=
    wb_rows
      (exportToExcel Number_toString Date_toLocaleString Date_toISODate
         now qrCodes options) in
  length rows = length data
  ∧ col_Row <$> rows
    = (λ i, CellNumber (Z.of_nat i + 1)) <$> seq 0 (length data)
  ∧ ∀ i qr, data !! i = Some qr →
      ∃ row, rows !! i = Some row
        ∧ col_Row row = CellNumber (Z.of_nat i + 1)
        ∧ (col_Status row = "Valid" ↔ status qr = "valid")
        ∧ (col_Status row = "Invalid" ↔ status qr ≠ "valid")
        ∧ col_SellerName row ≠ "" ∧ col_VATNumber row ≠ ""
        ∧ col_InvoiceNumber row ≠ "" ∧ col_InvoiceDate row ≠ ""
        ∧ (or_null (sellerName qr) = None → col_SellerName row = "-")
        ∧ (or_null (vatNumber qr) = None → col_VATNumber row = "-")
        ∧ (or_null (invoiceNumber qr) = None → col_InvoiceNumber row = "-")
        ∧ (or_null (invoiceDate qr) = None → col_InvoiceDate row = "-")
        ∧ (or_null (subtotal qr) = None → col_Subtotal row = "-")
        ∧ (or_null (vatAmount qr) = None → col_VATAmount row = "-")
        ∧ (or_null (totalAmount qr) = None → col_TotalAmount row = "-").
Proof.
  intros data rows. unfold rows, exportToExcel. cbn [wb_rows]. fold data.
  unfold excelData. split; [apply length_imap|]. split.
  - generalize data. intros l. rewrite fmap_imap.
    rewrite <- (imap_seq_0 l (λ i, CellNumber (Z.of_nat i + 1))).
    done.
  - intros i qr Hi. exists (excelRow Number_toString Date_toLocaleString i qr).
    split; [by rewrite list_lookup_imap, Hi|]. cbn.
    assert (Hcell : ∀ o, or_default o "-" ≠ ""
                         ∧ (or_null o = None → or_default o "-" = "-")).
    { intros o.
      destruct (or_default_cases o "-") as [[_ ->]|(s & Hsome & Hs & ->)];
        (split; [done|congruence]). }
    assert (Hamount : ∀ a, or_null a = None
                           → amount_cell Number_toString a = "-").
    { intros a Ha. unfold amount_cell. by rewrite Ha. }
    split; [done|].
    destruct (String.eqb_spec (status qr) "valid") as [Hv|Hv].
    + split; [done|]. split; [done|].
      repeat split; try apply Hcell; apply Hamount.
    + split; [done|]. split; [done|].
      repeat split; try apply Hcell; apply Hamount.
Qed.

(** X14.  The summary row is written exactly when headers are included and
    at least one record is exported; it is labelled [SUMMARY], its total
    count is the number of data rows (at least 1), its valid count the
    number of data rows whose status cell is [Valid], which never exceeds
    the total and equals it for the range ['valid']. *)
Theorem exportToExcel_summary (now : Z) (qrCodes : list ScannedQR)
    (options : ExportOptions) :
  let data := dataToExport qrCodes options in
  let wb :=
    exportToExcel Number_toString Date_toLocaleString Date_toISODate
      now qrCodes options in
  (is_Some (wb_summary wb) ↔ includeHeaders options = true ∧ data ≠ [])
  ∧ wb_skipHeader wb = negb (includeHeaders options)
  ∧ ∀ row, wb_summary wb = Some row →
      ∃ valid total : nat,
        col_Row row = CellText "SUMMARY"
        ∧ col_Status row = string_of_Z (Z.of_nat valid) +:+ " Valid"
        ∧ col_SellerName row = string_of_Z (Z.of_nat total) +:+ " Total"
        ∧ total = length (wb_rows wb)
        ∧ valid = length (filter (λ r, col_Status r = "Valid") (wb_rows wb))
        ∧ (valid ≤ total)%nat ∧ (1 ≤ total)%nat
        ∧ (exportRange options = RangeValid → valid = total).
Proof.
  intros data wb. unfold wb, exportToExcel. cbn [wb_summary wb_skipHeader wb_rows].
  fold data. split; [|split; [done|]].
  - destruct (includeHeaders options); cbn [andb].
    + case_bool_decide as Hd; cbn [negb].
      * split; [by intros [? ?]|]. by intros [_ ?].
      * split; [done|]. by eauto.
    + split; [by intros [? ?]|]. by intros [? _].
  - intros row. destruct (includeHeaders options); cbn [andb]; [|done].
    case_bool_decide as Hd; cbn [negb]; [done|]. intros [= <-].
    exists (length (filter (λ qr, status qr = "valid") data)), (length data).
    cbn. split; [done|]. split; [done|]. split; [done|].
    unfold excelData. split; [by rewrite length_imap|]. split.
    { symmetry. apply length_filter_imap. intros i qr. cbn.
      by destruct (String.eqb_spec (status qr) "valid"). }
    split; [apply length_filter|]. split.
    { destruct data; [done|]. simpl. lia. }
    intros Hrange. f_equal. unfold data, dataToExport. rewrite Hrange.
    rewrite list_filter_filter. apply list_filter_iff. intros qr. tauto.
Qed.

Lemma foldl_amount_or_zero (l : list ScannedQR) z :
  foldl (λ sum qr, num_add sum (amount_or_zero (totalAmount qr))) z l
  = foldl (λ sum qr, num_add sum (parseFloat (or_default (totalAmount qr) "0")))
      z l.
Proof.
  revert z. induction l as [|x l IH]; intros z; [done|].
  simpl. rewrite IH. unfold amount_or_zero.
  by rewrite parseFloat_or_default_zero.
Qed.

(** X15.  Exporting all the records of a non-empty session with headers
    writes a summary row that agrees with [getSessionStats]: its total
    amount is the session's [totalAmount] printed with two decimals, its
    counts are [validScans] and [totalScans], and there are [totalScans]
    data rows. *)
Theorem export_summary_matches_stats (now : Z) (sid : string)
    (st : MemStorage) (name : string) (ids : option (list Z)) :
  getScannedQRs sid st ≠ [] →
  let wb :=
    exportToExcel Number_toString Date_toLocaleString Date_toISODate
      now (getScannedQRs sid st) (mkExportOptions name true RangeAll ids) in
  let stats := getSessionStats sid st in
  ∃ row, wb_summary wb = Some row
    ∧ col_TotalAmount row = toFixed2 Number_toString (Stats.totalAmount stats)
    ∧ col_Status row
      = string_of_Z (Z.of_nat (Stats.validScans stats)) +:+ " Valid"
    ∧ col_SellerName row
      = string_of_Z (Z.of_nat (Stats.totalScans stats)) +:+ " Total"
    ∧ length (wb_rows wb) = Stats.totalScans stats.
Proof.
  intros Hne wb stats. unfold wb, exportToExcel.
  cbn [wb_summary wb_rows includeHeaders andb dataToExport exportRange].
  unfold dataToExport. cbn [exportRange].
  rewrite bool_decide_eq_false_2 by done. cbn [negb].
  eexists. split; [done|]. cbn [summaryRow col_TotalAmount col_Status col_SellerName].
  unfold summaryRow. cbn.
  rewrite foldl_amount_or_zero. split; [done|]. split; [done|].
  split; [done|]. unfold excelData. by rewrite length_imap.
Qed.

Lemma with_fraction_shape f n :
  ∃ ip fp,
    with_fraction f n = ip +:+ String "." fp
    ∧ digit_string ip ∧ ip ≠ "" ∧ digit_string fp ∧ String.length fp = f.
Proof.
  unfold with_fraction. cbv zeta.
  set (m := list_ascii_of_string (pad_zeros (S f) (string_of_Z n))).
  assert (Hm : Forall (λ c, is_digit c = true) m).
  { apply digit_string_pad_zeros, string_of_Z_digits. }
  assert (Hlen : (S f ≤ length m)%nat).
  { unfold m. rewrite length_chars, length_pad_zeros. lia. }
  exists (string_of_list_ascii (take (length m - f) m)),
         (string_of_list_ascii (drop (length m - f) m)).
  split; [by rewrite str_app|]. split.
  { unfold digit_string. rewrite list_ascii_of_string_of_list_ascii.
    by apply Forall_take. }
  split.
  { intros He. apply (f_equal String.length) in He.
    rewrite length_str, length_take in He. simpl in He. lia. }
  split.
  { unfold digit_string. rewrite list_ascii_of_string_of_list_ascii.
    by apply Forall_drop. }
  rewrite length_str, length_drop. lia.
Qed.

(** X16.  An amount cell of the export is ["-"] when the amount is null or
    empty; otherwise it is [NaN], [Infinity], [-Infinity], or a number with
    an optional minus sign, at least one integer digit and exactly two
    digits after the point, unless the amount read is 1e21 or more in
    magnitude, when it is the engine's rendering of the number. *)
Theorem amount_cell_shape (a : option string) :
  let c := amount_cell Number_toString a in
  (or_null a = None → c = "-")
  ∧ ∀ s, or_null a = Some s →
      c = "NaN" ∨ c = "Infinity" ∨ c = "-Infinity" ∨ two_decimals c
      ∨ ∃ neg m e,
          parseFloat s = S754_finite neg m e
          ∧ (0 ≤ e → 10 ^ 21 ≤ Zpos m * 2 ^ e)
          ∧ (e < 0 → 10 ^ 21 * 2 ^ (- e) ≤ Zpos m)
          ∧ c = (if neg then "-" else "")
                +:+ Number_toString (S754_finite false m e).
Proof.
  intros c. unfold c, amount_cell. split; [by intros ->|].
  intros s ->. unfold toFixed2.
  destruct (parseFloat s) as [sg|[|]| |neg m e].
  - right; right; right; left. exists "", "0", "00".
    split; [done|]. split; [by left|].
    split; [by repeat constructor|]. split; [done|].
    split; [by repeat constructor|done].
  - right; right; by left.
  - right; by left.
  - by left.
  - destruct (Z.leb_spec 0 e) as [He|He].
    + destruct (Z.leb_spec (10 ^ 21) (Zpos m * 2 ^ e)) as [Hbig|Hsmall].
      * do 4 right. exists neg, m, e. split; [done|]. split; [done|].
        split; [lia|done].
      * right; right; right; left.
        destruct (with_fraction_shape 2 (100 * Zpos m * 2 ^ e))
          as (ip & fp & -> & Hip & Hne & Hfp & Hlen).
        exists (if neg then "-" else ""), ip, fp.
        split; [done|]. split; [destruct neg; [by right|by left]|done].
    + destruct (Z.leb_spec (10 ^ 21 * 2 ^ (- e)) (Zpos m)) as [Hbig|Hsmall].
      * do 4 right. exists neg, m, e. split; [done|]. split; [lia|].
        split; [done|done].
      * right; right; right; left.
        destruct (with_fraction_shape 2
                    ((200 * Zpos m + 2 ^ (- e)) / (2 * 2 ^ (- e))))
          as (ip & fp & -> & Hip & Hne & Hfp & Hlen).
        exists (if neg then "-" else ""), ip, fp.
        split; [done|]. split; [destruct neg; [by right|by left]|done].
Qed.
End ExportProperties.

(** ** The scan table: pages *)

Section Pagination.

Lemma totalPages_bounds (qrCodes : list ScannedQR) :
  Z.of_nat (length qrCodes) ≤ 10 * totalPages qrCodes
  < Z.of_nat (length qrCodes) + 10.
Proof. unfold totalPages, itemsPerPage. lia. Qed.

Lemma currentItems_take_drop (p : Z) (qrCodes : list ScannedQR) :
  1 ≤ p →
  currentItems p qrCodes
  = take 10 (drop (10 * Z.to_nat (p - 1)) qrCodes).
Proof.
  intros Hp. unfold currentItems, slice, endIndex, startIndex, itemsPerPage.
  cbv zeta.
  destruct (Z.ltb_spec ((p - 1) * 10) 0) as [|_]; [lia|].
  destruct (Z.ltb_spec ((p - 1) * 10 + 10) 0) as [|_]; [lia|].
  set (len := length qrCodes).
  destruct (decide (Z.of_nat len ≤ (p - 1) * 10)) as [Hout|Hin].
  - rewrite !drop_ge by (fold len; lia). by rewrite !take_nil.
  - replace (Z.to_nat (Z.min ((p - 1) * 10) (Z.of_nat len)))
      with (10 * Z.to_nat (p - 1))%nat by lia.
    destruct (decide ((p - 1) * 10 + 10 ≤ Z.of_nat len)) as [Hfull|Hpart].
    + f_equal. lia.
    + rewrite !take_ge; [done|..]; rewrite length_drop; fold len; lia.
Qed.

Lemma chunks_join {A} (n : nat) (l : list A) :
  (length l ≤ 10 * n)%nat →
  mjoin ((λ k, take 10 (drop (10 * k) l)) <$> seq 0 n) = l.
Proof.
  revert l. induction n as [|n IH]; intros l Hl.
  - destruct l; [done|simpl in Hl; lia].
  - cbn [seq fmap list_fmap mjoin list_join]. rewrite <- fmap_S_seq.
    rewrite <- list_fmap_compose. rewrite Nat.mul_0_r, drop_0.
    rewrite <- (take_drop 10 l) at 2. f_equal.
    rewrite <- (IH (drop 10 l)) by (rewrite length_drop; lia).
    f_equal. apply list_fmap_ext. intros i k _. cbn.
    rewrite drop_drop. do 2 f_equal. lia.
Qed.

(** X17.  The pages 1, ..., [totalPages] of the table, laid end to end, are
    the list of records: every record is on exactly one page, in order. *)
Theorem pages_partition (qrCodes : list ScannedQR) :
  mjoin ((λ p, currentItems p qrCodes) <$> seqZ 1 (totalPages qrCodes))
  = qrCodes.
Proof.
  pose proof (totalPages_bounds qrCodes) as Hb.
  unfold seqZ. rewrite <- list_fmap_compose.
  rewrite <- (chunks_join (Z.to_nat (totalPages qrCodes)) qrCodes) at 2 by lia.
  f_equal. apply list_fmap_ext. intros i k _. cbn.
  rewrite currentItems_take_drop by lia. do 3 f_equal. lia.
Qed.

(** X18.  A page between 1 and [totalPages] shows between 1 and 10
    records, exactly 10 unless it is the last page; its i-th record is the
    record at [startIndex + i] of the list; and the footer's range
    ["from-to"] is within the list and counts exactly the records
    shown. *)
Theorem page_bounds (p : Z) (qrCodes : list ScannedQR) :
  1 ≤ p ≤ totalPages qrCodes →
  let items := currentItems p qrCodes in
  (1 ≤ length items ≤ 10)%nat
  ∧ (p < totalPages qrCodes → length items = 10%nat)
  ∧ (∀ i, (i < length items)%nat →
       items !! i = qrCodes !! (Z.to_nat (startIndex p) + i)%nat)
  ∧ (showing p qrCodes).2 - (showing p qrCodes).1 + 1
    = Z.of_nat (length items)
  ∧ 1 ≤ (showing p qrCodes).1 ≤ (showing p qrCodes).2
  ∧ (showing p qrCodes).2 ≤ Z.of_nat (length qrCodes).
Proof.
  intros Hp items. pose proof (totalPages_bounds qrCodes) as Hb.
  assert (Hlen : Z.of_nat (length items)
                 = Z.min 10 (Z.of_nat (length qrCodes) - 10 * (p - 1))).
  { unfold items. rewrite currentItems_take_drop by lia.
    rewrite length_take, length_drop. lia. }
  unfold showing, endIndex, startIndex, itemsPerPage. cbn [fst snd].
  split; [lia|]. split; [lia|]. split; [|lia].
  intros i Hi. unfold items. rewrite currentItems_take_drop by lia.
  rewrite lookup_take_lt by lia. rewrite lookup_drop. f_equal. lia.
Qed.

(** X19.  A page beyond [totalPages] (as after deletions, the page number
    being kept) shows no record although the list may not be empty, and
    [Next] then leads to the last page.  [Previous] and [Next] never leave
    the range from 1 to [totalPages] of a non-empty list; [Next] advances
    by one below the last page and [Previous] undoes it. *)
Theorem page_navigation (p : Z) (qrCodes : list ScannedQR) :
  1 ≤ p →
  (totalPages qrCodes < p → currentItems p qrCodes = [])
  ∧ 1 ≤ previousPage p ≤ p
  ∧ (p ≤ totalPages qrCodes → previousPage p ≤ totalPages qrCodes)
  ∧ (qrCodes ≠ [] → 1 ≤ nextPage qrCodes p ≤ totalPages qrCodes)
  ∧ (p < totalPages qrCodes → nextPage qrCodes p = p + 1
                              ∧ previousPage (nextPage qrCodes p) = p)
  ∧ (totalPages qrCodes ≤ p → nextPage qrCodes p = totalPages qrCodes)
  ∧ (1 < p → previousPage p = p - 1)
  ∧ previousPage 1 = 1.
Proof.
  intros Hp. pose proof (totalPages_bounds qrCodes) as Hb.
  unfold previousPage, nextPage. split.
  { intros Hout. rewrite currentItems_take_drop by done.
    rewrite drop_ge by lia. apply take_nil. }
  split; [lia|]. split; [lia|]. split; [|lia].
  intros Hne. destruct qrCodes; [done|]. simpl length in *. lia.
Qed.
End Pagination.

(** ** The scan table: selection *)

Section Selection.

Lemma set_has_true k s : set_has k s = true ↔ k ∈ s.
Proof. apply bool_decide_eq_true. Qed.

Lemma elem_of_set_add k k' s : k' ∈ set_add k s ↔ k' = k ∨ k' ∈ s.
Proof.
  unfold set_add. destruct (set_has k s) eqn:Hk.
  - apply set_has_true in Hk. split; [by right|]. by intros [->|?].
  - rewrite elem_of_app, list_elem_of_singleton. tauto.
Qed.

Lemma NoDup_set_add k s : NoDup s → NoDup (set_add k s).
Proof.
  intros Hs. unfold set_add. destruct (set_has k s) eqn:Hk; [done|].
  apply not_true_iff_false in Hk. rewrite set_has_true in Hk.
  apply NoDup_app. split; [done|]. split; [|apply NoDup_singleton].
  intros x Hx Hx'. by apply list_elem_of_singleton in Hx' as ->.
Qed.

Lemma set_from_acc (l : list Z) (acc : jsset) :
  NoDup acc →
  NoDup (foldl (λ s k, set_add k s) acc l)
  ∧ ∀ k, k ∈ foldl (λ s k, set_add k s) acc l ↔ k ∈ acc ∨ k ∈ l.
Proof.
  revert acc. induction l as [|x l IH]; intros acc Hacc; cbn [foldl].
  - split; [done|]. intros k. rewrite elem_of_nil. tauto.
  - destruct (IH (set_add x acc) (NoDup_set_add x acc Hacc)) as [Hnd Hin].
    split; [done|]. intros k. rewrite Hin, elem_of_set_add, elem_of_cons.
    tauto.
Qed.

Lemma NoDup_set_from l : NoDup (set_from l).
Proof. apply set_from_acc, NoDup_nil_2. Qed.

Lemma elem_of_set_from k l : k ∈ set_from l ↔ k ∈ l.
Proof.
  unfold set_from.
  destruct (set_from_acc l [] (NoDup_nil_2)) as [_ ->].
  rewrite elem_of_nil. tauto.
Qed.

Lemma set_from_acc_NoDup (l : list Z) (acc : jsset) :
  NoDup (acc ++ l) → foldl (λ s k, set_add k s) acc l = acc ++ l.
Proof.
  revert acc. induction l as [|x l IH]; intros acc Hnd; cbn [foldl].
  - by rewrite app_nil_r.
  - assert (Hx : set_has x acc = false).
    { apply not_true_iff_false. rewrite set_has_true. intros Hx.
      apply NoDup_app in Hnd as (_ & Hdisj & _). apply (Hdisj x Hx). left. }
    unfold set_add. rewrite Hx. rewrite IH; rewrite <- (assoc_L (++)); done.
Qed.

Lemma set_from_NoDup l : NoDup l → set_from l = l.
Proof. intros Hl. by apply (set_from_acc_NoDup l []). Qed.

Lemma elem_of_set_delete k k' s : k' ∈ set_delete k s ↔ k' ≠ k ∧ k' ∈ s.
Proof. unfold set_delete. by rewrite list_elem_of_filter. Qed.

(** X20.  With pairwise distinct record ids, checking the header checkbox
    selects the ids of all listed records in their order: every row is
    then checked, and the header checkbox shows as checked exactly when the
    list is not empty; unchecking it leaves no row checked.  Both
    selections hold no id twice and only ids of listed records. *)
Theorem handleSelectAll_spec (qrCodes : list ScannedQR) :
  NoDup (id <$> qrCodes) →
  handleExport (handleSelectAll qrCodes true) = id <$> qrCodes
  ∧ (∀ qr, qr ∈ qrCodes → rowSelected qr (handleSelectAll qrCodes true) = true)
  ∧ (allSelected qrCodes (handleSelectAll qrCodes true) = true ↔ qrCodes ≠ [])
  ∧ (∀ qr, rowSelected qr (handleSelectAll qrCodes false) = false)
  ∧ allSelected qrCodes (handleSelectAll qrCodes false) = false
  ∧ selection_wf qrCodes (handleSelectAll qrCodes true)
  ∧ selection_wf qrCodes (handleSelectAll qrCodes false).
Proof.
  intros Hnd. unfold handleExport, handleSelectAll.
  rewrite (set_from_NoDup _ Hnd). split; [done|]. split.
  { intros qr Hqr. apply set_has_true. apply list_elem_of_fmap. by exists qr. }
  split.
  { unfold allSelected. rewrite length_fmap, Nat.eqb_refl. cbn [andb].
    rewrite Nat.ltb_lt. destruct qrCodes; simpl; [|split; [done|lia]].
    split; [lia|done]. }
  split; [done|]. split.
  { unfold allSelected. cbn. destruct qrCodes; [done|]. done. }
  split; [by split|]. split; [constructor|].
  intros k Hk. by apply elem_of_nil in Hk.
Qed.

(** X21.  [handleSelectItem] on a selection without duplicates gives one
    without duplicates in which the row of the given id is checked as
    asked and every other row as before; it changes nothing when the row
    was already in the state asked for; and checking then unchecking a row
    that was not selected restores the selection. *)
Theorem handleSelectItem_spec (k : Z) (checked : bool) (selectedIds : jsset) :
  NoDup selectedIds →
  let s' := handleSelectItem k checked selectedIds in
  NoDup s'
  ∧ (∀ k', set_has k' s'
           = if decide (k' = k) then checked else set_has k' selectedIds)
  ∧ (set_has k selectedIds = checked → s' = selectedIds)
  ∧ (set_has k selectedIds = false →
     handleSelectItem k false (handleSelectItem k true selectedIds)
     = selectedIds).
Proof.
  intros Hnd s'. unfold s', handleSelectItem. cbv zeta.
  rewrite (set_from_NoDup _ Hnd).
  assert (Hdel : ∀ s, k ∉ s → set_delete k s = s).
  { intros s Hs. unfold set_delete. induction s as [|x s IH]; [done|].
    apply not_elem_of_cons in Hs as [Hne Hs].
    rewrite filter_cons, decide_True by done. by rewrite IH. }
  split.
  { destruct checked; [by apply NoDup_set_add|].
    by apply NoDup_filter. }
  split.
  { intros k'. apply eq_true_iff_eq. rewrite set_has_true.
    destruct checked.
    - rewrite elem_of_set_add. destruct (decide (k' = k)) as [->|].
      + split; [done|by left].
      + rewrite set_has_true. split; [by intros [?|?]|by right].
    - rewrite elem_of_set_delete. destruct (decide (k' = k)) as [->|].
      + split; [by intros [? _]|done].
      + rewrite set_has_true. tauto. }
  split.
  { intros Hk. destruct checked.
    - unfold set_add. by rewrite Hk.
    - apply Hdel. apply not_true_iff_false in Hk. by rewrite set_has_true in Hk. }
  intros Hk. unfold set_add. rewrite Hk.
  apply not_true_iff_false in Hk. rewrite set_has_true in Hk.
  assert (Hnd' : NoDup (selectedIds ++ [k])).
  { apply NoDup_app. split; [done|]. split; [|apply NoDup_singleton].
    intros x Hx Hx'. by apply list_elem_of_singleton in Hx' as ->. }
  rewrite (set_from_NoDup _ Hnd'). unfold set_delete.
  rewrite filter_app. fold (set_delete k selectedIds). rewrite Hdel by done.
  rewrite filter_cons, decide_False; [by rewrite app_nil_r|].
  intros H. by apply H.
Qed.

(** X22.  When the record ids are pairwise distinct and the selection
    holds no id twice and only ids of listed records, the header checkbox
    is checked exactly when the list is not empty and every row is
    checked. *)
Theorem allSelected_iff (qrCodes : list ScannedQR) (selectedIds : jsset) :
  NoDup (id <$> qrCodes) → selection_wf qrCodes selectedIds →
  (allSelected qrCodes selectedIds = true
   ↔ qrCodes ≠ [] ∧ ∀ qr, qr ∈ qrCodes → rowSelected qr selectedIds = true).
Proof.
  intros Hids [Hnd Hsub]. unfold allSelected, rowSelected.
  rewrite andb_true_iff, Nat.eqb_eq, Nat.ltb_lt.
  assert (Hmset : selectedIds ⊆+ id <$> qrCodes).
  { by apply NoDup_submseteq. }
  split.
  - intros [Hlen Hpos]. split.
    { intros ->. simpl in Hpos. lia. }
    intros qr Hqr. apply set_has_true.
    assert (Hperm : selectedIds ≡ₚ id <$> qrCodes).
    { apply submseteq_length_Permutation; [done|].
      rewrite length_fmap. lia. }
    rewrite Hperm. apply list_elem_of_fmap. by exists qr.
  - intros [Hne Hall]. split; [|destruct qrCodes; [done|simpl; lia]].
    assert (Hsup : (id <$> qrCodes) ⊆+ selectedIds).
    { apply NoDup_submseteq; [done|]. intros k Hk.
      apply list_elem_of_fmap in Hk as (qr & -> & Hqr).
      apply set_has_true. by apply Hall. }
    apply submseteq_length in Hmset, Hsup. rewrite length_fmap in *. lia.
Qed.

Lemma filter_all_in {A} (P : A → Prop) `{!∀ x, Decision (P x)} (l : list A) :
  (∀ x, x ∈ l → P x) → filter P l = l.
Proof.
  induction l as [|x l IH]; intros Hall; [done|].
  rewrite filter_cons, decide_True by (apply Hall; left).
  rewrite IH; [done|]. intros y Hy. apply Hall. by right.
Qed.

(** X23.  Exporting the range ['selected'] with the ids [handleExport]
    passes on exports exactly the records whose row is checked, in the
    order of the list; after select-all that is every record, after
    unselect-all none. *)
Theorem export_of_selection (qrCodes : list ScannedQR) (selection : jsset)
    (name : string) (headers : bool) :
  let options ids := mkExportOptions name headers RangeSelected (Some ids) in
  dataToExport qrCodes (options (handleExport selection))
  = filter (λ qr, rowSelected qr selection = true) qrCodes
  ∧ dataToExport qrCodes
      (options (handleExport (handleSelectAll qrCodes true)))
    = qrCodes
  ∧ dataToExport qrCodes
      (options (handleExport (handleSelectAll qrCodes false)))
    = [].
Proof.
  intros options. unfold dataToExport, options, handleExport.
  cbn [exportRange selectedIds]. split; [|split].
  - apply list_filter_iff. intros qr. unfold rowSelected.
    by rewrite set_has_true.
  - unfold handleSelectAll. apply filter_all_in. intros x Hx.
    apply elem_of_set_from. apply list_elem_of_fmap. by exists x.
  - unfold handleSelectAll. cbn.
    induction qrCodes as [|qr l IH]; [done|].
    rewrite filter_cons, decide_False; [done|]. apply not_elem_of_nil.
Qed.

(** X24.  A selection that holds no id twice and only ids of listed records
    stays so when a row of the list is checked or unchecked and when
    [handleDeleteRecord] runs; after a confirmed deletion that succeeded,
    the deleted id is no longer selected and the selection fits the list
    without the deleted record. *)
Theorem selection_invariant (qrCodes : list ScannedQR) (selectedIds : jsset)
    (qr : ScannedQR) (k : Z) (checked confirmed deleted : bool) :
  selection_wf qrCodes selectedIds →
  (qr ∈ qrCodes →
   selection_wf qrCodes (handleSelectItem (id qr) checked selectedIds))
  ∧ selection_wf qrCodes (handleDeleteRecord confirmed deleted k selectedIds)
  ∧ (confirmed = true → deleted = true →
     selection_wf (filter (λ qr, id qr ≠ k) qrCodes)
       (handleDeleteRecord confirmed deleted k selectedIds)
     ∧ set_has k (handleDeleteRecord confirmed deleted k selectedIds) = false).
Proof.
  intros [Hnd Hsub].
  assert (Hdelete : ∀ k, NoDup (set_delete k (set_from selectedIds))
    ∧ ∀ x, x ∈ set_delete k (set_from selectedIds) → x ≠ k ∧ x ∈ selectedIds).
  { intros k0. split; [apply NoDup_filter, NoDup_set_from|].
    intros x Hx. apply elem_of_set_delete in Hx as [Hne Hx].
    rewrite elem_of_set_from in Hx. by split. }
  split; [|split].
  - intros Hqr. unfold handleSelectItem. cbv zeta. destruct checked.
    + split; [apply NoDup_set_add, NoDup_set_from|].
      intros x Hx. apply elem_of_set_add in Hx as [->|Hx].
      * apply list_elem_of_fmap. by exists qr.
      * apply Hsub. by rewrite elem_of_set_from in Hx.
    + destruct (Hdelete (id qr)) as [Hnd' Hin]. split; [done|].
      intros x Hx. apply Hsub. by apply Hin.
  - unfold handleDeleteRecord. destruct (confirmed && deleted); [|by split].
    destruct (Hdelete k) as [Hnd' Hin]. split; [done|].
    intros x Hx. apply Hsub. by apply Hin.
  - intros -> ->. unfold handleDeleteRecord. cbn [andb].
    destruct (Hdelete k) as [Hnd' Hin]. split; [split; [done|]|].
    + intros x Hx. destruct (Hin x Hx) as [Hne Hx'].
      apply Hsub in Hx'. apply list_elem_of_fmap in Hx' as (y & -> & Hy).
      apply list_elem_of_fmap. exists y. split; [done|].
      by apply list_elem_of_filter.
    + apply not_true_iff_false. rewrite set_has_true. intros Hk.
      by destruct (Hin k Hk).
Qed.
End Selection.

(** ** Debounced detection *)

Section DebouncedDetection.

Lemma pending_clearTimeout_ref d h :
  one_pending d → debounceTimeout d = Some h →
  pending (clearTimeout h (timers d)) = [].
Proof.
  intros [Hnone|(h' & due & qrData & Href & Hone)] Hh;
    unfold clearTimeout; cbn [pending map_delete snd].
  - by rewrite Hnone.
  - rewrite Hone. assert (h' = h) as -> by congruence.
    rewrite filter_cons, decide_False; [done|]. cbn. intros H. by apply H.
Qed.

Lemma handleQRDetection_accepted now qrData st d :
  one_pending d →
  qrData ≠ lastScannedData st → isProcessing st = false →
  let d' := handleQRDetection now qrData st d in
  debounceTimeout d' = Some (nextHandle (timers d))
  ∧ pending (timers d') = [(nextHandle (timers d), (now + 1000, qrData))].
Proof.
  intros Hone Hdata Hproc d'. unfold d', handleQRDetection.
  apply String.eqb_neq in Hdata. rewrite Hdata, Hproc. cbn [orb].
  destruct (debounceTimeout d) as [h|] eqn:Href.
  - pose proof (pending_clearTimeout_ref d h Hone Href) as Hclear.
    unfold setTimeout. cbn [timers debounceTimeout pending].
    rewrite Hclear. done.
  - destruct Hone as [Hnone|(h' & ? & ? & ? & ?)]; [|congruence].
    unfold setTimeout. cbn [timers debounceTimeout pending].
    by rewrite Hnone.
Qed.

Lemma handleQRDetection_refused now qrData st d :
  qrData = lastScannedData st ∨ isProcessing st = true →
  handleQRDetection now qrData st d = d.
Proof.
  intros Href. unfold handleQRDetection.
  destruct Href as [->| ->]; [by rewrite String.eqb_refl|].
  by rewrite orb_true_r.
Qed.

Lemma one_pending_event d e : one_pending d → one_pending (scanner_event d e).
Proof.
  intros Hone. destruct e as [now qrData st|h]; cbn [scanner_event].
  - destruct (decide (qrData = lastScannedData st)) as [Hsame|Hnew].
    { rewrite handleQRDetection_refused; [done|by left]. }
    destruct (isProcessing st) eqn:Hproc.
    { rewrite handleQRDetection_refused; [done|by right]. }
    destruct (handleQRDetection_accepted now qrData st d Hone Hnew Hproc)
      as [Href Hpending].
    right. by eexists _, _, _.
  - unfold runTimer, clearTimeout. cbn [snd].
    destruct Hone as [Hnone|(h' & due & qrData & Href & Hone)].
    + left. cbn. by rewrite Hnone.
    + unfold one_pending. cbn [timers pending debounceTimeout map_delete snd].
      rewrite Hone, filter_cons. destruct (decide _); [|by left].
      right. by exists h', due, qrData.
Qed.

Lemma one_pending_after es : one_pending (debounce_after es).
Proof.
  unfold debounce_after. induction es as [|e es IH] using rev_ind.
  - by left.
  - rewrite foldl_snoc. by apply one_pending_event.
Qed.

(** X25.  Whatever detections and timer runs happened since the component
    was mounted, at most one debounce timer is pending, the one the ref
    [debounceTimeout] names.  A detection of the data last scanned, or one
    that arrives while processing, changes nothing; any other detection
    leaves exactly one pending timer, due one second later, which passes
    this detection's data to [processQRCode] and leaves none pending
    (a detection waiting from before is dropped); and the cleanup on
    unmount leaves no timer pending. *)
Theorem handleQRDetection_debounce (es : list ScannerEvent) :
  let d := debounce_after es in
  (pending (timers d) = []
   ∨ ∃ h due qrData,
       debounceTimeout d = Some h ∧ pending (timers d) = [(h, (due, qrData))])
  ∧ (∀ now qrData st,
       qrData = lastScannedData st ∨ isProcessing st = true →
       handleQRDetection now qrData st d = d)
  ∧ (∀ now qrData st,
       qrData ≠ lastScannedData st → isProcessing st = false →
       ∃ h, pending (timers (handleQRDetection now qrData st d))
            = [(h, (now + 1000, qrData))]
            ∧ (runTimer h (handleQRDetection now qrData st d)).1
              = Some qrData
            ∧ pending (timers (runTimer h (handleQRDetection now qrData st d)).2)
              = [])
  ∧ pending (timers (unmount d)) = [].
Proof.
  intros d. pose proof (one_pending_after es) as Hone. fold d in Hone.
  split; [exact Hone|]. split.
  { intros now qrData st. apply handleQRDetection_refused. }
  split.
  - intros now qrData st Hnew Hproc.
    destruct (handleQRDetection_accepted now qrData st d Hone Hnew Hproc)
      as [Href Hpending].
    exists (nextHandle (timers d)). split; [done|].
    unfold runTimer, clearTimeout. cbn [fst snd timers pending map_delete].
    rewrite Hpending. rewrite map_get_cons, decide_True by done.
    split; [done|]. rewrite filter_cons, decide_False; [done|].
    cbn. intros H. by apply H.
  - unfold unmount. destruct (debounceTimeout d) as [h|] eqn:Href.
    + by apply pending_clearTimeout_ref.
    + destruct Hone as [Hnone|(h' & ? & ? & ? & ?)]; [done|congruence].
Qed.

End DebouncedDetection.

(** ** The further theorems on the example data *)

Lemma addScannedQR_then_queries_witness :
  store_wf example_store
  ∧ getScannedQRs "s"
      (addScannedQR 40 (scan "s" "valid" (Some "1.00")) example_store).2
    = (addScannedQR 40 (scan "s" "valid" (Some "1.00")) example_store).1
      :: getScannedQRs "s" example_store.
Proof.
  split; [apply example_store_wf|].
  destruct (addScannedQR_then_queries 40 (scan "s" "valid" (Some "1.00"))
              example_store example_store_wf)
    as (_ & _ & _ & _ & _ & _ & Hfirst & _).
  apply Hfirst. intros old Hold. vm_compute in Hold.
  repeat (apply elem_of_cons in Hold as [->|Hold]; [done|]).
  by apply elem_of_nil in Hold.
Defined.

Lemma deleteScannedQR_listing_witness :
  keyed_by_id (storage_after example_calls)
  ∧ getScannedQRs "s" (deleteScannedQR 1 (storage_after example_calls)).2
    = filter (λ qr, id qr ≠ 1) (getScannedQRs "s" (storage_after example_calls)).
Proof.
  assert (H : keyed_by_id (storage_after example_calls)).
  { apply storage_inv_keyed, storage_inv_after. }
  split; [exact H|]. by apply deleteScannedQR_listing.
Defined.

Lemma add_then_delete_witness :
  store_wf newMemStorage
  ∧ qrs (deleteScannedQR 1
           (addScannedQR 10 (scan "s" "valid" None) newMemStorage).2).2
    = []
  ∧ id (addScannedQR 20 (scan "s" "valid" None)
          (deleteScannedQR 1
             (addScannedQR 10 (scan "s" "valid" None) newMemStorage).2).2).1
    = 2.
Proof.
  split; [apply store_wf_new|].
  destruct (add_then_delete 10 20 (scan "s" "valid" None)
              (scan "s" "valid" None) newMemStorage store_wf_new)
    as (_ & Hqrs & _ & _ & Hid).
  split; [exact Hqrs|exact Hid].
Defined.

Lemma clearSessionQRs_then_queries_witness :
  store_wf example_store
  ∧ getScannedQRs "s" (clearSessionQRs "s" example_store).2 = []
  ∧ getScannedQRs "t" (clearSessionQRs "s" example_store).2
    = getScannedQRs "t" example_store.
Proof.
  split; [apply example_store_wf|].
  destruct (clearSessionQRs_then_queries "s" example_store example_store_wf)
    as (Hnone & _ & Hother & _).
  split; [exact Hnone|]. by apply Hother.
Defined.

Lemma stats_of_scanned_records_witness :
  let cs :=
    [AddScannedQR 10 (qrRecord integer_toString "s" "qr" (Some empty_vat_data));
     AddScannedQR 20 (qrRecord integer_toString "s" "??" None)] in
  Stats.totalScans (getSessionStats "s" (storage_after cs)) = 2%nat
  ∧ Stats.totalScans (getSessionStats "s" (storage_after cs))
    = (Stats.validScans (getSessionStats "s" (storage_after cs))
       + Stats.errors (getSessionStats "s" (storage_after cs)))%nat.
Proof.
  intros cs. split; [reflexivity|].
  apply (stats_of_scanned_records integer_toString cs "s").
  intros now q Hin. unfold cs in Hin.
  apply elem_of_cons in Hin as [[= -> ->]|Hin]; [by eauto|].
  apply list_elem_of_singleton in Hin as [= -> ->]. by eauto.
Defined.

Lemma export_summary_matches_stats_witness :
  getScannedQRs "s" example_store ≠ []
  ∧ ∃ row,
      wb_summary
        (exportToExcel (λ _, "") integer_toString integer_toString
           40 (getScannedQRs "s" example_store)
           (mkExportOptions "scans" true RangeAll None)) = Some row
      ∧ col_Status row = "1 Valid" ∧ col_SellerName row = "2 Total".
Proof.
  assert (Hne : getScannedQRs "s" example_store ≠ []) by done.
  split; [exact Hne|].
  destruct (export_summary_matches_stats (λ _, "") integer_toString
              integer_toString 40 "s" example_store "scans" None Hne)
    as (row & Hrow & _ & Hvalid & Htotal & _).
  exists row. split; [exact Hrow|]. split; [exact Hvalid|exact Htotal].
Defined.

Lemma page_bounds_witness :
  1 ≤ 1 ≤ totalPages example_rows
  ∧ length (currentItems 1 example_rows) = 2%nat
  ∧ showing 1 example_rows = (1, 2).
Proof.
  assert (Hp : 1 ≤ 1 ≤ totalPages example_rows) by (vm_compute; split; discriminate).
  split; [exact Hp|].
  destruct (page_bounds 1 example_rows Hp) as (_ & _ & _ & Hshow & _).
  split; [|reflexivity].
  apply Nat2Z.inj. rewrite <- Hshow. reflexivity.
Defined.

Lemma page_navigation_witness :
  1 ≤ 2
  ∧ currentItems 2 example_rows = []
  ∧ nextPage example_rows 2 = 1.
Proof.
  assert (Hp : 1 ≤ 2) by lia.
  split; [exact Hp|].
  destruct (page_navigation 2 example_rows Hp) as (Hstale & _ & _ & _ & _ & Hnext & _).
  split.
  - apply Hstale. reflexivity.
  - apply Hnext. vm_compute. discriminate.
Defined.

Lemma example_rows_ids : NoDup (id <$> example_rows).
Proof. by apply (bool_decide_unpack _). Qed.

Lemma example_selection_wf : selection_wf example_rows [2; 1].
Proof.
  split; [by apply (bool_decide_unpack _)|].
  intros k Hk. vm_compute. exact Hk.
Qed.

Lemma handleSelectAll_spec_witness :
  NoDup (id <$> example_rows)
  ∧ handleExport (handleSelectAll example_rows true) = [2; 1]
  ∧ allSelected example_rows (handleSelectAll example_rows true) = true.
Proof.
  split; [apply example_rows_ids|].
  destruct (handleSelectAll_spec example_rows example_rows_ids)
    as (Hids & _ & Hall & _).
  split; [exact Hids|]. by apply Hall.
Defined.

Lemma handleSelectItem_spec_witness :
  NoDup [2; 1]
  ∧ handleSelectItem 5 false (handleSelectItem 5 true [2; 1]) = [2; 1].
Proof.
  assert (Hnd : NoDup [2; 1]) by by apply (bool_decide_unpack _).
  split; [exact Hnd|].
  destruct (handleSelectItem_spec 5 true [2; 1] Hnd) as (_ & _ & _ & Hback).
  by apply Hback.
Defined.

Lemma allSelected_iff_witness :
  NoDup (id <$> example_rows) ∧ selection_wf example_rows [1]
  ∧ allSelected example_rows [1] ≠ true.
Proof.
  assert (Hwf : selection_wf example_rows [1]).
  { split; [by apply (bool_decide_unpack _)|].
    intros k Hk. apply list_elem_of_singleton in Hk as ->.
    by apply (bool_decide_unpack _). }
  split; [apply example_rows_ids|]. split; [exact Hwf|].
  intros Hall.
  apply (allSelected_iff example_rows [1] example_rows_ids Hwf) in Hall
    as [_ Hrows].
  specialize (Hrows (mkScannedQR "s" "" "invalid" None None None None None
                       None None 2 20)).
  assert (Hrow : rowSelected (mkScannedQR "s" "" "invalid" None None None None
                                None None None 2 20) [1] = true).
  { apply Hrows. vm_compute. left. }
  discriminate Hrow.
Defined.

Lemma selection_invariant_witness :
  selection_wf example_rows [2; 1]
  ∧ selection_wf (filter (λ qr, id qr ≠ 2) example_rows)
      (handleDeleteRecord true true 2 [2; 1]).
Proof.
  pose proof example_selection_wf as Hwf.
  split; [exact Hwf|].
  destruct (selection_invariant example_rows [2; 1]
              (mkScannedQR "s" "" "invalid" None None None None None
                 None None 2 20) 2 true true true Hwf)
    as (_ & _ & Hdel).
  by apply Hdel.
Defined.


(** ** The table and the exported sheet *)

(** X27.  The table and the exported sheet show the same of a record: the
    exported row of a record of the list has the status, seller name, VAT
    number and date cells of the record's table row, and each of its two
    amounts is ["-"] in both when the amount is null or empty, and
    otherwise the text of the sheet followed by [" SAR"] in the table. *)
Theorem table_matches_export
    (Number_toString : number → string) (Date_toLocaleString : Z → string)
    (Date_toISODate : Z → string) (now : Z) (qrCodes : list ScannedQR)
    (options : ExportOptions) (i : nat) (qr : ScannedQR) :
  dataToExport qrCodes options !! i = Some qr →
  ∃ row,
    wb_rows (exportToExcel Number_toString Date_toLocaleString Date_toISODate
               now qrCodes options) !! i = Some row
    ∧ qr ∈ qrCodes
    ∧ col_Status row = cell_Status (tableRow Number_toString qr)
    ∧ col_SellerName row = cell_SellerName (tableRow Number_toString qr)
    ∧ col_VATNumber row = cell_VATNumber (tableRow Number_toString qr)
    ∧ col_InvoiceDate row = cell_Date (tableRow Number_toString qr)
    ∧ (or_null (totalAmount qr) = None →
       col_TotalAmount row = "-"
       ∧ cell_Amount (tableRow Number_toString qr) = "-")
    ∧ (or_null (totalAmount qr) ≠ None →
       cell_Amount (tableRow Number_toString qr)
       = col_TotalAmount row +:+ " SAR")
    ∧ (or_null (vatAmount qr) = None →
       col_VATAmount row = "-"
       ∧ cell_VAT (tableRow Number_toString qr) = "-")
    ∧ (or_null (vatAmount qr) ≠ None →
       cell_VAT (tableRow Number_toString qr) = col_VATAmount row +:+ " SAR").
Proof.
  intros Hi. exists (excelRow Number_toString Date_toLocaleString i qr).
  split.
  { unfold exportToExcel, excelData. cbn [wb_rows].
    by rewrite list_lookup_imap, Hi. }
  split.
  { apply list_elem_of_lookup_2 in Hi. revert Hi. unfold dataToExport.
    destruct (exportRange options); [done|..].
    - destruct (selectedIds options); [|done].
      rewrite list_elem_of_filter. tauto.
    - rewrite list_elem_of_filter. tauto. }
  cbn. unfold amount_cell, amount_text.
  split; [done|]. split; [done|]. split; [done|]. split; [done|].
  destruct (or_null (totalAmount qr)), (or_null (vatAmount qr));
    repeat split; done.
Qed.

Lemma table_matches_export_witness :
  dataToExport example_rows (mkExportOptions "" true RangeValid None) !! 0%nat
  = Some (mkScannedQR "s" "" "valid" None None None None None None
            (Some "115.00") 1 10)
  ∧ cell_Amount
      (tableRow (λ _, "")
         (mkScannedQR "s" "" "valid" None None None None None None
            (Some "115.00") 1 10))
    = "115.00 SAR".
Proof.
  assert (Hi : dataToExport example_rows
                 (mkExportOptions "" true RangeValid None) !! 0%nat
               = Some (mkScannedQR "s" "" "valid" None None None None None
                         None (Some "115.00") 1 10)) by reflexivity.
  split; [exact Hi|].
  destruct (table_matches_export (λ _, "") integer_toString integer_toString
              40 example_rows (mkExportOptions "" true RangeValid None)
              0%nat _ Hi)
    as (row & Hrow & _ & _ & _ & _ & _ & _ & Hamount & _).
  rewrite Hamount by done.
  injection Hrow as <-. reflexivity.
Defined.
